(** * Rwanda Infrastructure Management System: the persistence engine

    A shallow embedding of [src/RIMS/main.cpp] (class
    [InfrastructureManager]) and the properties of its city registry, its two
    matrices and its reconcile-then-rewrite road file.

    Modelling choices, all stated where they are made:
    - [int] is [Z]; [stoi] only yields values in the range of [int], and the
      one arithmetic operation on identifiers, [nbr + 1], wraps around at
      [INT_MAX] as the compiled program does (the language leaves that sum
      undefined);
    - [double] is an exact rational [Q]; the only operations of the source
      on budgets are the two comparisons of [is_valid_budget], copying, and
      the text round trip through [fixed << setprecision(1)] and [stod];
    - a line of a data file is kept as its tab-separated fields, with the
      numeric fields already passed through [stoi] / [stod]; the middle
      field of a road line is kept as text, because the source splits it
      again at the first [" - "]. A city name never holds a tab or a line
      break ([is_valid_city_name] refuses them), so the fields of a written
      line are the fields read back;
    - [ensure_data_directory] is left out: whether a file can be opened
      is a field of the modelled disk;
    - the prompt loops of the menu operations are represented by their exit
      condition: an operation applied to an input the loop would reject
      yields [None]. *)

From Stdlib Require Import ZArith QArith Qround String Ascii List Sorted Lia Bool.
From stdpp Require Import base option list strings pretty.

Local Open Scope Z_scope.

(** ** Text helpers *)

Module Text.

(** [isalpha] / [isalnum] in the "C" locale. *)
Definition isupper (c : ascii) : bool :=
  let n := nat_of_ascii c in (65 <=? n)%nat && (n <=? 90)%nat.
Definition islower (c : ascii) : bool :=
  let n := nat_of_ascii c in (97 <=? n)%nat && (n <=? 122)%nat.
Definition isdigit (c : ascii) : bool :=
  let n := nat_of_ascii c in (48 <=? n)%nat && (n <=? 57)%nat.
Definition isalpha (c : ascii) : bool := isupper c || islower c.
Definition isalnum (c : ascii) : bool := isalpha c || isdigit c.

(** [s.substr(pos)]: the suffix of [s] from [pos] on. *)
Definition substr_from (pos : nat) (s : string) : string :=
  String.substring pos (String.length s - pos) s.

(** [s.substr(0, len)]. *)
Definition substr_to (len : nat) (s : string) : string :=
  String.substring 0 len s.

(** The endpoint separator of a road line. *)
Definition dash : string := " - ".

(** [road.find(" - ")]: position of the first occurrence, if any. *)
Definition find_dash (road : string) : option nat :=
  String.index 0 dash road.

(** Lines 136-139 and 238-241: split the middle field at the first
    separator; [None] is the [continue] of [dash_pos == npos]. *)
Definition split_road (road : string) : option (string * string) :=
  match find_dash road with
  | None => None
  | Some dash_pos =>
      Some (substr_to dash_pos road, substr_from (dash_pos + 3) road)
  end.

(** The middle field written by line 186. *)
Definition join_road (c1 c2 : string) : string :=
  String.append c1 (String.append dash c2).

(** Does [" -"] occur in [s]? *)
Fixpoint has_space_hyphen (s : string) : bool :=
  match s with
  | EmptyString => false
  | String _ rest => String.prefix " -" s || has_space_hyphen rest
  end.

End Text.

(** ** Budgets *)

Module Budget.

Definition Qlt_bool (x y : Q) : bool :=
  match Qcompare x y with Lt => true | _ => false end.

(** Nearest integer, ties to even (the rule of glibc and of the current
    UCRT for a value that lies exactly between two decimals). No statement
    below depends on a tie. *)
Definition round_half_even (q : Q) : Z :=
  let f := Qfloor q in
  match Qcompare (q - inject_Z f) (1 # 2) with
  | Lt => f
  | Gt => f + 1
  | Eq => if Z.even f then f else f + 1
  end.

(** What [stod] reads back from a budget printed with
    [fixed << setprecision(1)]: the nearest multiple of one tenth. *)
Definition fixed1 (b : Q) : Q := Qred (round_half_even (b * 10) # 10).

End Budget.

(** ** Data model *)

(** [struct RoadEntry] (lines 104-108). *)
Record RoadEntry := mkRoadEntry {
  nbr : Z;
  city1 : string;
  city2 : string;
  budget : Q
}.

(** The three data members of [InfrastructureManager] (lines 27-29). *)
Record Manager := mkManager {
  city_names : list string;
  roads : list (list Z);
  budgets : list (list Q)
}.

Definition MAX_CITIES : Z := 500.

(** A line of [data/cities.txt]: the text after the first tab, or a line
    without tab. The position column before the tab is never read. *)
Inductive city_line :=
| CityLine (name : string)
| CityNoTab.

(** A line of [data/roads.txt]: [stoi] of the first field, the middle field,
    [stod] of the rest ([None] where the conversion throws), or a line with
    fewer than two tabs. *)
Inductive road_line :=
| RoadLine (nbr_field : option Z) (road_field : string) (budget_field : option Q)
| RoadNoTabs.

(** The two files. [None] as content: the file cannot be opened for
    reading. The [_writable] flags say whether [ofstream] can open the
    file. *)
Record Disk := mkDisk {
  cities_txt : option (list city_line);
  roads_txt : option (list road_line);
  cities_writable : bool;
  roads_writable : bool
}.

(** The manager, the disk and what was printed on [cout]. *)
Record World := mkWorld {
  mgr : Manager;
  disk : Disk;
  console : list string
}.

(** ** City registry (lines 33-73) *)

Fixpoint get_city_index (names : list string) (name : string) : option nat :=
  match names with
  | [] => None
  | c :: rest =>
      if String.eqb c name then Some 0%nat
      else S <$> get_city_index rest name
  end.

Definition city_exists (names : list string) (name : string) : bool :=
  bool_decide (get_city_index names name ≠ None).

(** The loop of [is_valid_city_name]: [has_letter] is the accumulator. *)
Fixpoint valid_chars (name : string) (has_letter : bool) : bool :=
  match name with
  | EmptyString => has_letter
  | String c rest =>
      let has_letter := if Text.isalpha c then true else has_letter in
      if negb (Text.isalnum c) && negb (Ascii.eqb c " ") && negb (Ascii.eqb c "-")
      then false
      else valid_chars rest has_letter
  end.

Definition is_valid_city_name (name : string) : bool :=
  if (String.length name <? 2)%nat then false else valid_chars name false.

Definition is_valid_budget (b : Q) : bool :=
  Budget.Qlt_bool 0 b && Qle_bool b 1000.

Definition is_valid_city_count (m : Manager) (count : Z) : bool :=
  (0 <? count) && (count <=? MAX_CITIES - Z.of_nat (length (city_names m))).

Definition is_valid_index (m : Manager) (index : Z) : bool :=
  (1 <=? index) && (index <=? Z.of_nat (length (city_names m))).

(** ** Matrices *)

(** [M[i][j]], where both positions exist; the source has no defined
    behaviour where they do not. *)
Definition at2 {A} (M : list (list A)) (i j : nat) : option A :=
  M !! i ≫= (λ row, row !! j).

(** [M[i][j] = v]; outside the matrix the source has no defined behaviour,
    here the matrix is left as it is. *)
Definition set_cell {A} (i j : nat) (v : A) (M : list (list A)) : list (list A) :=
  alter (λ row, <[j := v]> row) i M.

(** [M[i][j] = M[j][i] = v]: the right assignment is performed first. *)
Definition set_sym {A} (i j : nat) (v : A) (M : list (list A)) : list (list A) :=
  set_cell i j v (set_cell j i v M).

(** Lines 207-212 and 292-297: append the name, pad every row to the new
    size and add a zero row. *)
Definition push_city (name : string) (m : Manager) : Manager :=
  let names := city_names m ++ [name] in
  let n := length names in
  {| city_names := names;
     roads := (resize n 0 <$> roads m) ++ [replicate n 0];
     budgets := (resize n 0%Q <$> budgets m) ++ [replicate n 0%Q] |}.

(** The state built by the constructor before any file is read. *)
Definition empty_manager : Manager :=
  {| city_names := []; roads := []; budgets := [] |}.

(** ** World updates *)

Definition with_mgr (m : Manager) (w : World) : World :=
  {| mgr := m; disk := disk w; console := console w |}.

(** [cout << line]. *)
Definition cout (line : string) (w : World) : World :=
  {| mgr := mgr w; disk := disk w; console := console w ++ [line] |}.

Definition write_cities (lines : list city_line) (w : World) : World :=
  {| mgr := mgr w;
     disk := {| cities_txt := Some lines;
                roads_txt := roads_txt (disk w);
                cities_writable := cities_writable (disk w);
                roads_writable := roads_writable (disk w) |};
     console := console w |}.

Definition write_roads (lines : list road_line) (w : World) : World :=
  {| mgr := mgr w;
     disk := {| cities_txt := cities_txt (disk w);
                roads_txt := Some lines;
                cities_writable := cities_writable (disk w);
                roads_writable := roads_writable (disk w) |};
     console := console w |}.

(** The two error lines of the save routines. *)
Definition cannot_save_cities : string :=
  "Error: Cannot save to cities.txt. Check permissions.".

Definition cannot_save_roads : string := "Error: Cannot save to roads.txt.".

(** ** City file (lines 85-97 and 196-216) *)

(** ["Index\tCity Name"]: the text after its tab. *)
Definition cities_header : city_line := CityLine "City Name".

Definition save_cities_to_file (w : World) : World :=
  if cities_writable (disk w) then
    write_cities (cities_header :: (CityLine <$> city_names (mgr w))) w
  else
    cout cannot_save_cities w.

(** One iteration of the [while (getline ...)] loop of the loader. *)
Definition load_city_line (m : Manager) (l : city_line) : Manager :=
  match l with
  | CityNoTab => m
  | CityLine city_name =>
      if is_valid_city_name city_name && negb (city_exists (city_names m) city_name)
      then push_city city_name m
      else m
  end.

(** The first line is skipped as the header, whatever it is. *)
Definition load_cities_from_file (d : Disk) (m : Manager) : Manager :=
  match cities_txt d with
  | None => m
  | Some lines => foldl load_city_line m (tail lines)
  end.

(** ** Road file: saving (lines 100-193) *)

(** Lines 116-142: one line of the prior file as a [RoadEntry]; [None] is
    one of the four [continue]s. *)
Definition parse_entry (l : road_line) : option RoadEntry :=
  match l with
  | RoadLine (Some n) road (Some b) =>
      match Text.split_road road with
      | Some (c1, c2) => Some {| nbr := n; city1 := c1; city2 := c2; budget := b |}
      | None => None
      end
  | _ => None
  end.

(** [existing_roads]: empty when the file cannot be opened. *)
Definition read_existing_roads (d : Disk) : list RoadEntry :=
  match roads_txt d with
  | None => []
  | Some lines => omap parse_entry (tail lines)
  end.

(** Lines 149-151: the positions [(i, j)], [i < j], with [roads[i][j] == 1],
    in the order of the two nested loops. *)
Definition present_edges (m : Manager) : list (nat * nat) :=
  i ← seq 0 (length (roads m));
  j ← seq (S i) (length (default [] (roads m !! i)) - S i);
  if decide (at2 (roads m) i j = Some 1) then [(i, j)] else [].

Definition name_at (m : Manager) (i : nat) : string :=
  default EmptyString (city_names m !! i).

Definition budget_at (m : Manager) (i j : nat) : Q :=
  default 0%Q (at2 (budgets m) i j).

(** The canonical edge enumeration with budgets. *)
Definition edge_enumeration (m : Manager) : list (nat * nat * Q) :=
  (λ '(i, j), (i, j, budget_at m i j)) <$> present_edges m.

(** The condition of lines 159-160. *)
Definition names_match (c1 c2 : string) (entry : RoadEntry) : bool :=
  (String.eqb (city1 entry) c1 && String.eqb (city2 entry) c2)
  || (String.eqb (city1 entry) c2 && String.eqb (city2 entry) c1).

(** The range of [int]. *)
Definition INT_MIN : Z := -2147483648.
Definition INT_MAX : Z := 2147483647.

(** An [int] result: the sum of line 169 is computed on 32 bits. The
    language leaves a signed sum past [INT_MAX] undefined; the compiled
    program wraps around, and so does this function. *)
Definition wrap_int (z : Z) : Z := (z - INT_MIN) mod 4294967296 + INT_MIN.

(** Line 169. *)
Definition next_nbr (existing : list RoadEntry) : Z :=
  match last existing with
  | None => 1
  | Some e => wrap_int (nbr e + 1)
  end.

(** Lines 155-171: the entry pushed for one edge. *)
Definition reconcile (existing : list RoadEntry) (c1 c2 : string) (b : Q) : RoadEntry :=
  match List.find (names_match c1 c2) existing with
  | Some entry => {| nbr := nbr entry; city1 := c1; city2 := c2; budget := b |}
  | None => {| nbr := next_nbr existing; city1 := c1; city2 := c2; budget := b |}
  end.

Definition reconcile_edge (existing : list RoadEntry) (m : Manager) (e : nat * nat) : RoadEntry :=
  reconcile existing (name_at m e.1) (name_at m e.2) (budget_at m e.1 e.2).

(** [updated_roads] before the sort. *)
Definition updated_roads (existing : list RoadEntry) (m : Manager) : list RoadEntry :=
  reconcile_edge existing m <$> present_edges m.

(** The comparator of lines 177-179. *)
Definition nbr_less (a b : RoadEntry) : bool := nbr a <? nbr b.

(** [std::sort] with that comparator. The order it leaves among entries of
    equal [nbr] is unspecified; here they keep their order. *)
Fixpoint insert_by_nbr (x : RoadEntry) (l : list RoadEntry) : list RoadEntry :=
  match l with
  | [] => [x]
  | y :: l' => if nbr_less y x then y :: insert_by_nbr x l' else x :: l
  end.

Definition sort_by_nbr (l : list RoadEntry) : list RoadEntry :=
  foldr insert_by_nbr [] l.

(** ["Nbr\tRoad\t\t\tBudget"] as a line: [stoi] and [stod] both throw. *)
Definition roads_header : road_line := RoadLine None "Road" None.

(** Lines 186-187. *)
Definition format_entry (e : RoadEntry) : road_line :=
  RoadLine (Some (nbr e)) (Text.join_road (city1 e) (city2 e))
           (Some (Budget.fixed1 (budget e))).

(** The lines written by a save of [m] over the prior file of [d]. *)
Definition road_lines (d : Disk) (m : Manager) : list road_line :=
  roads_header :: (format_entry <$> sort_by_nbr (updated_roads (read_existing_roads d) m)).

Definition save_roads_to_file (w : World) : World :=
  if roads_writable (disk w) then
    write_roads (road_lines (disk w) (mgr w)) w
  else
    cout cannot_save_roads w.

(** ** Road file: loading (lines 219-251) *)

(** Lines 226-241: the three [continue]s of the loader. The first field is
    not converted here. *)
Definition parse_load_line (l : road_line) : option (string * string * Q) :=
  match l with
  | RoadLine _ road (Some b) =>
      match Text.split_road road with
      | Some (c1, c2) => Some (c1, c2, b)
      | None => None
      end
  | _ => None
  end.

(** Lines 243-245: the cells a parsed record writes, [None] when the
    record is discarded. *)
Definition record_write (names : list string) (c1 c2 : string) (b : Q)
  : option (nat * nat * Q) :=
  match get_city_index names c1, get_city_index names c2 with
  | Some i, Some j => if is_valid_budget b then Some (i, j, b) else None
  | _, _ => None
  end.

(** Lines 246-247. *)
Definition apply_write (m : Manager) (wr : nat * nat * Q) : Manager :=
  let '(i, j, b) := wr in
  {| city_names := city_names m;
     roads := set_sym i j 1 (roads m);
     budgets := set_sym i j b (budgets m) |}.

Definition load_road_line (m : Manager) (l : road_line) : Manager :=
  match parse_load_line l with
  | None => m
  | Some (c1, c2, b) =>
      match record_write (city_names m) c1 c2 b with
      | None => m
      | Some wr => apply_write m wr
      end
  end.

Definition load_roads_from_file (d : Disk) (m : Manager) : Manager :=
  match roads_txt d with
  | None => m
  | Some lines => foldl load_road_line m (tail lines)
  end.

(** The constructor (lines 255-260). *)
Definition new_manager (d : Disk) : Manager :=
  load_roads_from_file d (load_cities_from_file d empty_manager).

(** ** Messages of the menu operations *)

Definition cities_added (k : Z) : string :=
  pretty k +:+ " cities added successfully.".

Definition road_added (c1 c2 : string) : string :=
  "Road added between " +:+ c1 +:+ " and " +:+ c2 +:+ ".".

Definition budget_added (c1 c2 : string) : string :=
  "Budget added for the road between " +:+ c1 +:+ " and " +:+ c2 +:+ ".".

Definition city_edited : string := "City edited successfully.".

(** ** Menu operations (lines 263-401)

    Each operation takes the values its prompt loops end with; [None] means
    that one of the loops would have rejected the value and asked again. *)

(** One round of the loop of lines 276-298. *)
Definition add_city (name : string) (m : Manager) : option Manager :=
  if String.eqb name EmptyString then None
  else if city_exists (city_names m) name then None
  else if negb (is_valid_city_name name) then None
  else Some (push_city name m).

Fixpoint add_city_list (names : list string) (m : Manager) : option Manager :=
  match names with
  | [] => Some m
  | name :: rest =>
      match add_city name m with
      | None => None
      | Some m' => add_city_list rest m'
      end
  end.

(** [k] is the length of [names]. *)
Definition add_cities (names : list string) (w : World) : option World :=
  if is_valid_city_count (mgr w) (Z.of_nat (length names)) then
    match add_city_list names (mgr w) with
    | None => None
    | Some m' =>
        Some (save_cities_to_file
                (cout (cities_added (Z.of_nat (length names))) (with_mgr m' w)))
    end
  else None.

Definition add_road (c1 c2 : string) (w : World) : option World :=
  let m := mgr w in
  if negb (city_exists (city_names m) c1) then None
  else if String.eqb c2 c1 then None
  else if negb (city_exists (city_names m) c2) then None
  else
    match get_city_index (city_names m) c1, get_city_index (city_names m) c2 with
    | Some i, Some j =>
        if decide (at2 (roads m) i j = Some 1) then None
        else
          let m' := {| city_names := city_names m;
                       roads := set_sym i j 1 (roads m);
                       budgets := budgets m |} in
          Some (save_roads_to_file (cout (road_added c1 c2) (with_mgr m' w)))
    | _, _ => None
    end.

Definition add_budget (c1 c2 : string) (b : Q) (w : World) : option World :=
  let m := mgr w in
  if negb (city_exists (city_names m) c1) then None
  else if negb (city_exists (city_names m) c2) then None
  else
    match get_city_index (city_names m) c1, get_city_index (city_names m) c2 with
    | Some i, Some j =>
        if decide (at2 (roads m) i j = Some 0) then None
        else if negb (is_valid_budget b) then None
        else
          let m' := {| city_names := city_names m;
                       roads := roads m;
                       budgets := set_sym i j b (budgets m) |} in
          Some (save_roads_to_file (cout (budget_added c1 c2) (with_mgr m' w)))
    | _, _ => None
    end.

(** [index] is the 1-based position typed by the user. *)
Definition edit_city (index : Z) (new_name : string) (w : World) : option World :=
  let m := mgr w in
  if negb (is_valid_index m index) then None
  else if String.eqb new_name EmptyString then None
  else if city_exists (city_names m) new_name then None
  else if negb (is_valid_city_name new_name) then None
  else
    let m' := {| city_names := <[Z.to_nat (index - 1) := new_name]> (city_names m);
                 roads := roads m;
                 budgets := budgets m |} in
    Some (save_roads_to_file (save_cities_to_file (cout city_edited (with_mgr m' w)))).

(** A disk with no data file yet, both writable, and the world the program
    starts in. *)
Definition fresh_disk : Disk :=
  {| cities_txt := None; roads_txt := None;
     cities_writable := true; roads_writable := true |}.

Definition start (d : Disk) : World :=
  {| mgr := new_manager d; disk := d; console := [] |}.

(** ** Shapes of the matrices *)

(** [n] rows of [n] cells. *)
Definition square {A} (n : nat) (M : list (list A)) : Prop :=
  length M = n ∧ Forall (λ row, length row = n) M.

Definition symmetric {A} (M : list (list A)) : Prop :=
  ∀ i j, at2 M i j = at2 M j i.

Definition zero_diagonal {A} (z : A) (M : list (list A)) : Prop :=
  ∀ i v, at2 M i i = Some v → v = z.

(** A manager as the operations keep it: distinct, valid names and two
    matrices with one row and one column per city. *)
Record well_formed (m : Manager) : Prop := {
  wf_names_distinct : NoDup (city_names m);
  wf_names_valid : Forall (λ c, is_valid_city_name c = true) (city_names m);
  wf_roads : square (length (city_names m)) (roads m);
  wf_budgets : square (length (city_names m)) (budgets m)
}.

(** ** Identifiers of a record list *)

Definition nbr_le (a b : RoadEntry) : Prop := nbr a ≤ nbr b.

(** The highest identifier of a list of entries, if it has one. *)
Fixpoint highest_nbr (l : list RoadEntry) : option Z :=
  match l with
  | [] => None
  | e :: rest =>
      match highest_nbr rest with
      | None => Some (nbr e)
      | Some h => Some (Z.max (nbr e) h)
      end
  end.

(** An entry is for the unordered pair of names [{c1, c2}]. *)
Definition same_pair (c1 c2 : string) (e : RoadEntry) : Prop :=
  (city1 e = c1 ∧ city2 e = c2) ∨ (city1 e = c2 ∧ city2 e = c1).

(** The identifiers of the lines of a road file, in file order. *)
Definition line_nbr (l : road_line) : option Z :=
  match l with
  | RoadLine n _ _ => n
  | RoadNoTabs => None
  end.

Definition file_nbrs (d : Disk) : list Z :=
  omap line_nbr (default [] (roads_txt d)).

(** ** Sessions used as examples *)

Definition or_start (o : option World) : World := default (start fresh_disk) o.

(** Two cities and the road between them, from an empty data directory. *)
Definition kigali_huye : World :=
  or_start (w ← add_cities ["Kigali"; "Huye"]%string (start fresh_disk);
            add_road "Kigali" "Huye" w).

(** Three cities and the two roads that leave Kigali. *)
Definition kigali_two_roads : World :=
  or_start (w ← add_cities ["Kigali"; "Huye"; "Musanze"]%string (start fresh_disk);
            w ← add_road "Kigali" "Huye" w;
            add_road "Kigali" "Musanze" w).

(** A data directory whose road file was reordered by hand. *)
Definition reordered_disk : Disk :=
  {| cities_txt := Some [cities_header; CityLine "Kigali"; CityLine "Huye";
                         CityLine "Musanze"; CityLine "Rubavu"];
     roads_txt := Some [roads_header;
                        RoadLine (Some 5) "Kigali - Huye" (Some (10 # 1));
                        RoadLine (Some 2) "Huye - Musanze" (Some (20 # 1))];
     cities_writable := true;
     roads_writable := true |}.

(** A data directory whose only road record has the largest [int] as its
    identifier. *)
Definition last_int_disk : Disk :=
  {| cities_txt := Some [cities_header; CityLine "Kigali"; CityLine "Huye";
                         CityLine "Musanze"];
     roads_txt := Some [roads_header;
                        RoadLine (Some 2147483647) "Kigali - Huye" (Some (10 # 1))];
     cities_writable := true;
     roads_writable := true |}.

(** The data directory [d] with [lines] as its road file. *)
Definition with_road_lines (lines : list road_line) (d : Disk) : Disk :=
  {| cities_txt := cities_txt d;
     roads_txt := Some lines;
     cities_writable := cities_writable d;
     roads_writable := roads_writable d |}.

(** A road file with a record from a city to itself. *)
Definition self_loop_disk : Disk :=
  {| cities_txt := Some [cities_header; CityLine "Kigali"];
     roads_txt := Some [roads_header;
                        RoadLine (Some 1) "Kigali - Kigali" (Some (5 # 1))];
     cities_writable := true;
     roads_writable := true |}.

(** A city whose name contains the separator of the road file. *)
Definition kigali_nord : World :=
  or_start (w ← add_cities ["Kigali - Nord"; "Huye"]%string (start fresh_disk);
            add_road "Kigali - Nord" "Huye" w).

(** The same world with a road file that cannot be opened for writing. *)
Definition read_only_roads (w : World) : World :=
  {| mgr := mgr w;
     disk := {| cities_txt := cities_txt (disk w);
                roads_txt := roads_txt (disk w);
                cities_writable := cities_writable (disk w);
                roads_writable := false |};
     console := console w |}.

(** The two cities and their road, over a road file whose only record
    names a city that is not in the registry. *)
Definition stale_record_world : World :=
  {| mgr := mgr kigali_huye;
     disk := {| cities_txt := cities_txt (disk kigali_huye);
                roads_txt := Some [roads_header;
                                   RoadLine (Some 1) "Gitarama - Huye" (Some 0%Q)];
                cities_writable := true;
                roads_writable := true |};
     console := [] |}.

(** ** Auxiliary notions for the round trip *)

(** The given cities and no road. *)
Definition zero_manager (names : list string) : Manager :=
  let n := length names in
  {| city_names := names;
     roads := replicate n (replicate n 0);
     budgets := replicate n (replicate n 0%Q) |}.

(** What the loader reads back from the budget of an edge. *)
Definition read_back (m : Manager) (e : nat * nat) : Q :=
  Budget.fixed1 (budget_at m e.1 e.2).

(** The budget of an edge, as read back, is accepted by the loader. *)
Definition budget_accepted (m : Manager) (e : nat * nat) : Prop :=
  is_valid_budget (read_back m e) = true.

Global Instance budget_accepted_dec m e : Decision (budget_accepted m e).
Proof. unfold budget_accepted. apply _. Defined.

(** The write the loader performs for the saved line of an edge of [m]:
    none when the budget read back is not valid. *)
Definition edge_write (m : Manager) (e : nat * nat) : option (nat * nat * Q) :=
  if is_valid_budget (read_back m e) then Some (e.1, e.2, read_back m e) else None.

(** The write the loader performs for a saved entry, if any. *)
Definition entry_write (names : list string) (e : RoadEntry) : option (nat * nat * Q) :=
  record_write names (city1 e) (city2 e) (Budget.fixed1 (budget e)).

(** One step of the loader, once the line is known to stand for [o]. *)
Definition apply_write_opt (m : Manager) (o : option (nat * nat * Q)) : Manager :=
  match o with
  | Some wr => apply_write m wr
  | None => m
  end.

(** The write [wr] goes to the cell [(a, b)]. *)
Definition touches (a b : nat) (wr : nat * nat * Q) : Prop :=
  (a = wr.1.1 ∧ b = wr.1.2) ∨ (a = wr.1.2 ∧ b = wr.1.1).

Global Instance touches_dec a b wr : Decision (touches a b wr).
Proof. unfold touches. apply _. Defined.

(** The budget of every present edge is accepted by the loader and is
    printed without loss at one decimal place: it is the reduced fraction
    of a number of tenths. *)
Definition budgets_survive (m : Manager) : Prop :=
  ∀ i j, (i, j) ∈ present_edges m →
    is_valid_budget (budget_at m i j) = true
    ∧ Budget.fixed1 (budget_at m i j) = budget_at m i j.

(** No city name contains [" -"], so that the first [" - "] of a road
    field is the separator. *)
Definition names_split (m : Manager) : Prop :=
  Forall (λ c, Text.has_space_hyphen c = false) (city_names m).

(** The road between Kigali and Huye with a budget of 12.5. *)
Definition kigali_huye_budget : World :=
  or_start (add_budget "Kigali" "Huye" (25 # 2) kigali_huye).

(** The city file is the one a save of the current registry writes. *)
Definition cities_in_sync (w : World) : Prop :=
  cities_txt (disk w) = Some (cities_header :: (CityLine <$> city_names (mgr w))).

(** The manager a restart builds from the files that [w] saves. *)
Definition save_then_load (w : World) : Manager :=
  new_manager (disk (save_roads_to_file (save_cities_to_file w))).

(** Four cities whose names overlap around the separator: the roads
    "Kigali" - "Nord - Huye" (no budget) and "Kigali - Nord" - "Huye"
    (budget 5) are written with the same road field. *)
Definition crossing_names : World :=
  or_start (w ← add_cities ["Kigali"; "Nord - Huye"; "Kigali - Nord"; "Huye"]%string
                  (start fresh_disk);
            w ← add_road "Kigali" "Nord - Huye" w;
            w ← add_road "Kigali - Nord" "Huye" w;
            add_budget "Kigali - Nord" "Huye" (5 # 1) w).

(** ** Sessions *)

(** One menu operation whose prompts were passed. Searching and
    displaying change nothing and are left out. *)
Inductive step : World → World → Prop :=
| step_add_cities names w w' : add_cities names w = Some w' → step w w'
| step_add_road c1 c2 w w' : add_road c1 c2 w = Some w' → step w w'
| step_add_budget c1 c2 b w w' : add_budget c1 c2 b w = Some w' → step w w'
| step_edit_city index new_name w w' : edit_city index new_name w = Some w' → step w w'.

(** The worlds a session that begins in [w0] goes through. *)
Inductive reaches (w0 : World) : World → Prop :=
| reaches_here : reaches w0 w0
| reaches_step w w' : reaches w0 w → step w w' → reaches w0 w'.

(** The worlds of a run of the program: the constructor loads some data
    directory, then operations follow. *)
Definition reachable (w : World) : Prop := ∃ d, reaches (start d) w.

(** Both matrices are symmetric. *)
Definition matrices_symmetric (m : Manager) : Prop :=
  symmetric (roads m) ∧ symmetric (budgets m).

(** Both matrices are zero on the diagonal. *)
Definition diagonals_zero (m : Manager) : Prop :=
  zero_diagonal 0 (roads m) ∧ zero_diagonal 0%Q (budgets m).

(** A matrix after one more city: every row padded by one cell, one row
    added. *)
Definition grow {A} (n : nat) (z : A) (M : list (list A)) : list (list A) :=
  (resize n z <$> M) ++ [replicate n z].

(** An entry as it is read back from the line it was written to. *)
Definition reread (e : RoadEntry) : RoadEntry :=
  {| nbr := nbr e; city1 := city1 e; city2 := city2 e;
     budget := Budget.fixed1 (budget e) |}.

(** * Further definitions: the rest of the class *)

From stdpp Require sorting.

(** ** Search and display (lines 404-442) *)

(** [search_city]: [index] is the 1-based position typed by the user; the
    line shows that position again and the name stored there. *)
Definition search_city (index : Z) (w : World) : option World :=
  if negb (is_valid_index (mgr w) index) then None
  else
    Some (cout ("City at index " +:+ pretty index +:+ ": "
                +:+ name_at (mgr w) (Z.to_nat (index - 1))) w).

(** One line of the list of [display_cities]. *)
Definition city_row (i : nat) (name : string) : string :=
  pretty (S i) +:+ ": " +:+ name.

Definition display_cities (w : World) : World :=
  match city_names (mgr w) with
  | [] => cout "No cities recorded." w
  | names => foldl (λ w line, cout line w) (cout "Cities:" w) (imap city_row names)
  end.

(** One row of the adjacency matrix: every value followed by a space. *)
Definition roads_row (row : list Z) : string :=
  foldr (λ val rest, pretty val +:+ " " +:+ rest) EmptyString row.

(** [display_roads]: the test is on the matrix, which has no row exactly
    when there is no city. *)
Definition display_roads (w : World) : World :=
  match roads (mgr w) with
  | [] => cout "No roads recorded." w
  | rows =>
      foldl (λ w line, cout line w)
            (cout "Roads Adjacency Matrix:" (cout EmptyString (display_cities w)))
            (roads_row <$> rows)
  end.

(** ** Notions used by the further properties *)

(** The characters [is_valid_city_name] lets through. *)
Definition allowed_char (c : ascii) : bool :=
  Text.isalnum c || Ascii.eqb c " " || Ascii.eqb c "-".

(** The order of the two nested loops of the save. *)
Definition lex_lt (e e' : nat * nat) : Prop :=
  (e.1 < e'.1)%nat ∨ (e.1 = e'.1 ∧ (e.2 < e'.2)%nat).

(** The cells a line of the road file writes when it is loaded over the
    cities [names], if any. *)
Definition line_write (names : list string) (l : road_line) : option (nat * nat * Q) :=
  match parse_load_line l with
  | Some (c1, c2, b) => record_write names c1 c2 b
  | None => None
  end.

(** The road file is the one a save of the current manager wrote. *)
(** The road file is the one a save of the current manager writes; before
    the first save there is no file and no road. *)
Definition roads_in_sync (w : World) : Prop :=
  (roads_txt (disk w) = None ∧ present_edges (mgr w) = [])
  ∨ ∃ d0, roads_txt (disk w) = Some (road_lines d0 (mgr w)).

(** The identifier the next new road gets after a file with the
    identifiers [nbrs]. *)
Definition next_after (nbrs : list Z) : Z :=
  match last nbrs with
  | Some h => h + 1
  | None => 1
  end.

(** Identifier and road field of a line: what a budget change leaves
    alone. *)
(** What identifies a record of the road file: its identifier and its two
    names. *)
Definition entry_key (e : RoadEntry) : Z * string * string :=
  (nbr e, city1 e, city2 e).

(** Kigali and Huye, before any road. *)
Definition kigali_huye_start : World :=
  or_start (add_cities ["Kigali"; "Huye"]%string (start fresh_disk)).

(** The city file is the one a save of the current registry writes; before
    the first save there is no file and no city. *)
Definition cities_in_step (w : World) : Prop :=
  (cities_txt (disk w) = None ∧ city_names (mgr w) = []) ∨ cities_in_sync w.

(** The same world with a city file that cannot be opened for writing. *)
Definition read_only_cities (w : World) : World :=
  {| mgr := mgr w;
     disk := {| cities_txt := cities_txt (disk w);
                roads_txt := roads_txt (disk w);
                cities_writable := false;
                roads_writable := roads_writable (disk w) |};
     console := console w |}.

(** * Properties *)

(** ** The middle field of a road line *)

Module TextFacts.
Import Text.

Lemma append_nil (t : string) : String.append EmptyString t = t.
Proof. reflexivity. Qed.

Lemma append_cons (a : ascii) (s t : string) :
  String.append (String a s) t = String a (String.append s t).
Proof. reflexivity. Qed.

Lemma substring_append_l (s rest : string) :
  String.substring 0 (String.length s) (String.append s rest) = s.
Proof.
  induction s as [|a s IH].
  - rewrite append_nil. by destruct rest.
  - rewrite append_cons. simpl. by rewrite IH.
Qed.

Lemma substring_append_skip (s rest : string) (k m : nat) :
  String.substring (String.length s + k) m (String.append s rest)
  = String.substring k m rest.
Proof.
  induction s as [|a s IH].
  - by rewrite append_nil.
  - rewrite append_cons. simpl. by rewrite IH.
Qed.

Lemma substring_whole (s : string) :
  String.substring 0 (String.length s) s = s.
Proof. induction s as [|a s IH]; simpl; [done | by rewrite IH]. Qed.

Lemma length_append (s t : string) :
  String.length (String.append s t) = (String.length s + String.length t)%nat.
Proof.
  induction s as [|a s IH]; [done|].
  rewrite append_cons. simpl. by rewrite IH.
Qed.

(** A name that does not start with [" -"] does not make the field start
    with the separator. *)
Lemma prefix_cons (a b : ascii) (s t : string) :
  String.prefix (String a s) (String b t)
  = if ascii_dec a b then String.prefix s t else false.
Proof. reflexivity. Qed.

Lemma prefix_nil (t : string) : String.prefix EmptyString t = true.
Proof. by destruct t. Qed.

Lemma prefix_dash_false (a : ascii) (s c2 : string) :
  String.prefix " -" (String a s) = false →
  String.prefix dash (String a (String.append s (String.append dash c2))) = false.
Proof.
  unfold dash. rewrite !prefix_cons.
  destruct (ascii_dec " " a) as [_|]; [|done].
  destruct s as [|b s]; [done|].
  rewrite append_cons, !prefix_cons.
  destruct (ascii_dec "-" b); [|done].
  by destruct s.
Qed.

Lemma find_dash_join (c1 c2 : string) :
  has_space_hyphen c1 = false →
  find_dash (join_road c1 c2) = Some (String.length c1).
Proof.
  unfold find_dash, join_road. induction c1 as [|a c1 IH]; intros Hno.
  - rewrite append_nil. unfold dash. rewrite !append_cons, append_nil.
    cbn [String.index String.length]. rewrite !prefix_cons.
    repeat (destruct (ascii_dec _ _) as [_|]; [|done]).
    by rewrite prefix_nil.
  - cbn [has_space_hyphen] in Hno. apply orb_false_iff in Hno as [Hp Hrest].
    rewrite append_cons. cbn [String.index String.length].
    by rewrite (prefix_dash_false _ _ _ Hp), (IH Hrest).
Qed.

(** The split of lines 136-139 gives back the two names that were joined,
    when the first has no [" -"] in it. *)
Lemma split_join_road (c1 c2 : string) :
  has_space_hyphen c1 = false →
  split_road (join_road c1 c2) = Some (c1, c2).
Proof.
  intros Hno. unfold split_road. rewrite (find_dash_join _ _ Hno).
  unfold substr_to, substr_from, join_road. f_equal. f_equal.
  - apply substring_append_l.
  - rewrite substring_append_skip, !length_append.
    replace (String.length c1 + (String.length dash + String.length c2)
             - (String.length c1 + 3))%nat with (String.length c2)
      by (unfold dash; simpl; lia).
    unfold dash. simpl. apply substring_whole.
Qed.

End TextFacts.

(** ** City registry *)

Section registry.
Implicit Types (names : list string) (name c : string) (i : nat).

Lemma get_city_index_Some names name i :
  get_city_index names name = Some i → names !! i = Some name.
Proof.
  revert i. induction names as [|c names IH]; intros i; simpl; [done|].
  destruct (String.eqb_spec c name) as [->|Hne].
  - by intros [= <-].
  - destruct (get_city_index names name) as [k|]; simpl; [|done].
    intros [= <-]. by apply IH.
Qed.

Lemma get_city_index_None names name :
  get_city_index names name = None ↔ name ∉ names.
Proof.
  induction names as [|c names IH]; simpl.
  - split; [intros _; apply not_elem_of_nil | done].
  - rewrite not_elem_of_cons.
    destruct (String.eqb_spec c name) as [->|Hne].
    + split; [done | by intros [? _]].
    + destruct (get_city_index names name); simpl.
      * split; [done|]. intros [_ Hn]. by apply IH in Hn.
      * split; [|done]. intros _. split; [done | by apply IH].
Qed.

(** With distinct names the scan finds the position a name is stored at. *)
Lemma get_city_index_lookup names name i :
  NoDup names → names !! i = Some name → get_city_index names name = Some i.
Proof.
  intros Hnd. revert i. induction Hnd as [|c names Hc Hnd IH]; intros i; [done|].
  destruct i as [|i]; simpl.
  - intros [= ->]. by rewrite String.eqb_refl.
  - intros Hi. destruct (String.eqb_spec c name) as [->|Hne].
    + exfalso. apply Hc. by eapply list_elem_of_lookup_2.
    + by rewrite (IH _ Hi).
Qed.

Lemma city_exists_true names name :
  city_exists names name = true ↔ name ∈ names.
Proof.
  unfold city_exists. rewrite bool_decide_eq_true.
  pose proof (get_city_index_None names name) as H.
  destruct (decide (name ∈ names)); split; intros; try done.
  - intros Hn. by apply H in Hn.
  - exfalso. tauto.
Qed.

Lemma city_exists_false names name :
  city_exists names name = false ↔ name ∉ names.
Proof.
  rewrite <- city_exists_true. by destruct (city_exists names name).
Qed.

Lemma get_city_index_lt names name i :
  get_city_index names name = Some i → (i < length names)%nat.
Proof. intros H%get_city_index_Some. by eapply lookup_lt_Some. Qed.

End registry.

(** ** Matrices *)

Section matrices.
Context {A : Type}.
Implicit Types (M : list (list A)) (v : A) (i j a b n : nat).

Lemma at2_set_cell M i j v a b :
  at2 (set_cell i j v M) a b
  = if decide (a = i ∧ b = j) then (λ _, v) <$> at2 M a b else at2 M a b.
Proof.
  unfold at2, set_cell. destruct (decide (a = i ∧ b = j)) as [[-> ->]|Hn].
  - rewrite list_lookup_alter_eq. destruct (M !! i) as [row|]; simpl; [|done].
    destruct (decide (j < length row)%nat) as [Hlt|Hge].
    + rewrite list_lookup_insert_eq by done.
      apply lookup_lt_is_Some in Hlt as [x ->]. done.
    + rewrite list_insert_ge by lia. rewrite lookup_ge_None_2 by lia. done.
  - rewrite list_lookup_alter. destruct (decide (i = a)) as [->|]; [|done].
    destruct (M !! a) as [row|]; simpl; [|done].
    apply list_lookup_insert_ne. intros ->. by apply Hn.
Qed.

(** A symmetric write: the two cells take the value, nothing else moves. *)
Lemma at2_set_sym M i j v a b :
  at2 (set_sym i j v M) a b
  = if decide ((a = i ∧ b = j) ∨ (a = j ∧ b = i)) then (λ _, v) <$> at2 M a b
    else at2 M a b.
Proof.
  unfold set_sym. rewrite !at2_set_cell.
  destruct (decide (a = i ∧ b = j)), (decide (a = j ∧ b = i));
    try (rewrite decide_True by tauto); try (rewrite decide_False by tauto);
    try done.
  by destruct (at2 M a b).
Qed.

Lemma set_cell_square n M i j v : square n M → square n (set_cell i j v M).
Proof.
  intros [Hlen Hrows]. split.
  - unfold set_cell. by rewrite length_alter.
  - unfold set_cell. apply Forall_lookup. intros k row.
    rewrite list_lookup_alter. case_decide; subst.
    + destruct (M !! k) as [row'|] eqn:Hk; simpl; [|done].
      intros [= <-]. rewrite length_insert.
      by eapply (Forall_lookup_1 _ _ _ _ Hrows).
    + intros Hk. by eapply (Forall_lookup_1 _ _ _ _ Hrows).
Qed.

Lemma set_sym_square n M i j v : square n M → square n (set_sym i j v M).
Proof. intros. by do 2 apply set_cell_square. Qed.

Lemma at2_square n M a b :
  square n M → (a < n)%nat → (b < n)%nat → is_Some (at2 M a b).
Proof.
  intros [Hlen Hrows] Ha Hb. unfold at2.
  destruct (M !! a) as [row|] eqn:Hrow; simpl.
  - apply lookup_lt_is_Some. by rewrite (Forall_lookup_1 _ _ _ _ Hrows Hrow).
  - apply lookup_ge_None in Hrow. lia.
Qed.

Lemma at2_Some_lt n M a b v :
  square n M → at2 M a b = Some v → (a < n)%nat ∧ (b < n)%nat.
Proof.
  intros [Hlen Hrows]. unfold at2.
  destruct (M !! a) as [row|] eqn:Hrow; simpl; [|done].
  intros Hb. split.
  - rewrite <- Hlen. by eapply lookup_lt_Some.
  - rewrite <- (Forall_lookup_1 _ _ _ _ Hrows Hrow). by eapply lookup_lt_Some.
Qed.

(** A symmetric write keeps the matrix symmetric. *)
Lemma set_sym_symmetric M i j v : symmetric M → symmetric (set_sym i j v M).
Proof.
  intros Hsym a b. rewrite !at2_set_sym, (Hsym a b).
  destruct (decide ((a = i ∧ b = j) ∨ (a = j ∧ b = i)));
    [rewrite decide_True by tauto | rewrite decide_False by tauto]; done.
Qed.

(** Off the diagonal it keeps the diagonal at zero too. *)
Lemma set_sym_zero_diagonal z M i j v :
  i ≠ j → zero_diagonal z M → zero_diagonal z (set_sym i j v M).
Proof.
  intros Hij Hz a x. rewrite at2_set_sym.
  rewrite decide_False by (intros [[-> ->]|[-> ->]]; done). apply Hz.
Qed.

End matrices.

(** ** The sort *)

Section sorting.
Implicit Types (x y : RoadEntry) (l : list RoadEntry).

Lemma insert_by_nbr_perm x l : insert_by_nbr x l ≡ₚ x :: l.
Proof.
  induction l as [|y l IH]; simpl; [done|].
  destruct (nbr_less y x); [|done].
  rewrite IH. apply Permutation_swap.
Qed.

Lemma sort_by_nbr_perm l : sort_by_nbr l ≡ₚ l.
Proof.
  induction l as [|x l IH]; simpl; [done|].
  by rewrite insert_by_nbr_perm, IH.
Qed.

Lemma elem_of_sort_by_nbr x l : x ∈ sort_by_nbr l ↔ x ∈ l.
Proof. by rewrite sort_by_nbr_perm. Qed.

Lemma insert_by_nbr_sorted x l :
  StronglySorted nbr_le l → StronglySorted nbr_le (insert_by_nbr x l).
Proof.
  induction 1 as [|y l Hs IH Hy]; simpl.
  - repeat constructor.
  - unfold nbr_less. destruct (Z.ltb_spec (nbr y) (nbr x)) as [Hlt|Hge].
    + constructor; [done|]. rewrite insert_by_nbr_perm.
      constructor; [unfold nbr_le; lia | done].
    + constructor; [by constructor|]. constructor; [done|].
      eapply Forall_impl; [exact Hy|]. unfold nbr_le. intros; simpl in *. lia.
Qed.

(** The written records are in ascending order of identifier. *)
Lemma sort_by_nbr_sorted l : StronglySorted nbr_le (sort_by_nbr l).
Proof.
  induction l as [|x l IH]; simpl; [constructor | by apply insert_by_nbr_sorted].
Qed.

(** In an ascending list the last identifier is the highest one. *)
Lemma highest_nbr_sorted l :
  StronglySorted nbr_le l → highest_nbr l = nbr <$> last l.
Proof.
  induction 1 as [|x l Hs IH Hx]; [done|].
  simpl highest_nbr. rewrite IH, last_cons.
  destruct (last l) as [z|] eqn:Hz; simpl; [|done].
  f_equal. apply last_Some_elem_of in Hz.
  rewrite Forall_forall in Hx. specialize (Hx z Hz). unfold nbr_le in Hx. lia.
Qed.

Lemma highest_nbr_None l : highest_nbr l = None → l = [].
Proof. destruct l as [|y l]; [done|]. simpl. by destruct (highest_nbr l). Qed.

Lemma highest_nbr_bound l h x :
  highest_nbr l = Some h → x ∈ l → nbr x ≤ h.
Proof.
  revert h. induction l as [|y l IH]; intros h; [by intros _ ?%elem_of_nil|].
  simpl. destruct (highest_nbr l) as [h'|] eqn:Hl.
  - intros [= <-] [->|Hx]%elem_of_cons; [lia|].
    specialize (IH h' eq_refl Hx). lia.
  - intros [= <-] [->|Hx]%elem_of_cons; [lia|].
    apply highest_nbr_None in Hl as ->. by apply elem_of_nil in Hx.
Qed.

End sorting.

(** ** The enumeration of the present edges *)

Lemma elem_of_present_edges (m : Manager) (i j : nat) :
  (i, j) ∈ present_edges m ↔ (i < j)%nat ∧ at2 (roads m) i j = Some 1.
Proof.
  unfold present_edges. rewrite list_elem_of_bind. split.
  - intros (i' & Hin & _). apply list_elem_of_bind in Hin as (j' & Hin & Hj').
    apply elem_of_seq in Hj'. case_decide as Hc; [|by apply elem_of_nil in Hin].
    apply list_elem_of_singleton in Hin as [= -> ->]. split; [lia | done].
  - intros [Hlt Hat]. exists i.
    unfold at2 in Hat. destruct (roads m !! i) as [row|] eqn:Hrow; simpl in Hat; [|done].
    split.
    + apply list_elem_of_bind. exists j. split.
      * rewrite decide_True; [apply list_elem_of_singleton; done|].
        unfold at2. by rewrite Hrow.
      * apply elem_of_seq. simpl. apply lookup_lt_Some in Hat. lia.
    + apply elem_of_seq. apply lookup_lt_Some in Hrow. lia.
Qed.

(** On a well-formed manager every access of the save loop is in range. *)
Lemma present_edges_in_range (m : Manager) (i j : nat) :
  well_formed m → (i, j) ∈ present_edges m →
  (i < j)%nat ∧ (j < length (city_names m))%nat
  ∧ is_Some (city_names m !! i) ∧ is_Some (city_names m !! j)
  ∧ is_Some (at2 (budgets m) i j).
Proof.
  intros Hwf [Hlt Hat]%elem_of_present_edges.
  destruct (at2_Some_lt _ _ _ _ _ (wf_roads _ Hwf) Hat) as [Hi Hj].
  repeat split; try done.
  - by apply lookup_lt_is_Some.
  - by apply lookup_lt_is_Some.
  - by apply (at2_square _ _ _ _ (wf_budgets _ Hwf)).
Qed.

(** Well-formedness of a manager given in full: the four parts are decided
    by computation. *)
Ltac well_formed_by_computation :=
  split;
  [ refine (bool_decide_unpack _ _); by vm_compute
  | repeat constructor
  | split; [reflexivity | repeat constructor]
  | split; [reflexivity | repeat constructor] ].

(** ** Budgets *)

Lemma is_valid_budget_spec (b : Q) :
  is_valid_budget b = true ↔ (0 < b ∧ b <= 1000)%Q.
Proof.
  unfold is_valid_budget, Budget.Qlt_bool. rewrite andb_true_iff, Qle_bool_iff.
  rewrite (Qlt_alt 0 b). destruct (0 ?= b)%Q; intuition congruence.
Qed.

(** ** Matching against the prior file *)

Section matching.
Implicit Types (existing : list RoadEntry) (e : RoadEntry).

Lemma names_match_spec (c1 c2 : string) e : names_match c1 c2 e = true ↔ same_pair c1 c2 e.
Proof.
  unfold names_match, same_pair.
  rewrite orb_true_iff, !andb_true_iff, !String.eqb_eq. done.
Qed.

Lemma find_match_None existing (c1 c2 : string) :
  List.find (names_match c1 c2) existing = None
  ↔ ∀ e, e ∈ existing → ¬ same_pair c1 c2 e.
Proof.
  induction existing as [|x l IH]; simpl.
  - split; [by intros _ e ?%elem_of_nil | done].
  - destruct (names_match c1 c2 x) eqn:Hx.
    + split; [done|]. intros H. exfalso. apply (H x); [by left|].
      by apply names_match_spec.
    + rewrite IH. split.
      * intros H e [->|He]%elem_of_cons; [|by apply H].
        rewrite <- names_match_spec. by rewrite Hx.
      * intros H e He. apply H. by right.
Qed.

Lemma find_match_Some existing (c1 c2 : string) e :
  List.find (names_match c1 c2) existing = Some e →
  e ∈ existing ∧ same_pair c1 c2 e.
Proof.
  intros [Hin Hm]%find_some. split.
  - by apply list_elem_of_In.
  - by apply names_match_spec.
Qed.

(** Lines 168-171: an edge without a record gets the last identifier of
    the prior file plus one, whatever was assigned before it in this save. *)
Lemma reconcile_unmatched existing (c1 c2 : string) b :
  (∀ e, e ∈ existing → ¬ same_pair c1 c2 e) →
  reconcile existing c1 c2 b
  = {| nbr := next_nbr existing; city1 := c1; city2 := c2; budget := b |}.
Proof. intros H%find_match_None. unfold reconcile. by rewrite H. Qed.

(** Lines 158-165: a matched edge keeps the identifier of the first record
    for its pair of names. *)
Lemma reconcile_matched existing (c1 c2 : string) b e :
  List.find (names_match c1 c2) existing = Some e →
  reconcile existing c1 c2 b
  = {| nbr := nbr e; city1 := c1; city2 := c2; budget := b |}.
Proof. intros H. unfold reconcile. by rewrite H. Qed.

Lemma reconcile_names existing (c1 c2 : string) b :
  city1 (reconcile existing c1 c2 b) = c1
  ∧ city2 (reconcile existing c1 c2 b) = c2
  ∧ budget (reconcile existing c1 c2 b) = b.
Proof. unfold reconcile. by destruct (List.find _ _). Qed.

Lemma wrap_int_in_range (z : Z) : INT_MIN ≤ z ≤ INT_MAX → wrap_int z = z.
Proof.
  unfold wrap_int, INT_MIN, INT_MAX. intros Hz.
  rewrite Z.mod_small by lia. lia.
Qed.

(** Below the largest [int] line 169 is a plain successor. *)
Lemma next_nbr_in_range existing :
  (∀ e, last existing = Some e → INT_MIN ≤ nbr e < INT_MAX) →
  next_nbr existing = match last existing with None => 1 | Some e => nbr e + 1 end.
Proof.
  intros Hlast. unfold next_nbr. destruct (last existing) as [e|]; [|done].
  apply wrap_int_in_range. specialize (Hlast e eq_refl).
  unfold INT_MIN, INT_MAX in *. lia.
Qed.

Lemma last_nbr_sorted existing :
  StronglySorted nbr_le existing →
  match last existing with None => 1 | Some e => nbr e + 1 end
  = match highest_nbr existing with None => 1 | Some h => h + 1 end.
Proof.
  intros Hs. rewrite (highest_nbr_sorted _ Hs).
  by destruct (last existing).
Qed.

End matching.

(** ** What a save writes *)

Lemma save_roads_writable (w : World) :
  roads_writable (disk w) = true →
  save_roads_to_file w = write_roads (road_lines (disk w) (mgr w)) w.
Proof. intros H. unfold save_roads_to_file. by rewrite H. Qed.

Lemma reconciled_line_written (d : Disk) (m : Manager) (e : nat * nat) :
  e ∈ present_edges m →
  format_entry (reconcile_edge (read_existing_roads d) m e) ∈ road_lines d m.
Proof.
  intros He. unfold road_lines. right. apply list_elem_of_fmap_2.
  apply elem_of_sort_by_nbr. unfold updated_roads. by apply list_elem_of_fmap_2.
Qed.

(** Saving the city file leaves the road file and the manager alone. *)
Lemma save_cities_frame (w : World) :
  mgr (save_cities_to_file w) = mgr w
  ∧ roads_txt (disk (save_cities_to_file w)) = roads_txt (disk w)
  ∧ roads_writable (disk (save_cities_to_file w)) = roads_writable (disk w).
Proof. unfold save_cities_to_file. by destruct (cities_writable (disk w)). Qed.

(** ** The menu operations, once their prompts are passed *)

(** What [edit_city] does when its two prompts are passed. *)
Lemma edit_city_Some (index : Z) (new_name : string) (w w' : World) :
  edit_city index new_name w = Some w' →
  let k := Z.to_nat (index - 1) in
  let m' := {| city_names := <[k := new_name]> (city_names (mgr w));
               roads := roads (mgr w);
               budgets := budgets (mgr w) |} in
  (k < length (city_names (mgr w)))%nat
  ∧ (new_name ∉ city_names (mgr w))
  ∧ is_valid_city_name new_name = true
  ∧ w' = save_roads_to_file
           (save_cities_to_file (cout city_edited (with_mgr m' w))).
Proof.
  unfold edit_city.
  destruct (is_valid_index (mgr w) index) eqn:Hidx; simpl; [|done].
  destruct (String.eqb new_name EmptyString); [done|].
  destruct (city_exists (city_names (mgr w)) new_name) eqn:Hex; [done|].
  destruct (is_valid_city_name new_name) eqn:Hval; simpl; [|done].
  intros [= <-]. repeat split; try done.
  - unfold is_valid_index in Hidx. apply andb_true_iff in Hidx as [H1 H2].
    apply Z.leb_le in H1, H2. lia.
  - by apply city_exists_false.
Qed.

(** What [add_road] does when its prompts are passed. *)
Lemma add_road_Some (c1 c2 : string) (w w' : World) :
  add_road c1 c2 w = Some w' →
  ∃ i j,
    get_city_index (city_names (mgr w)) c1 = Some i
    ∧ get_city_index (city_names (mgr w)) c2 = Some j
    ∧ i ≠ j
    ∧ at2 (roads (mgr w)) i j ≠ Some 1
    ∧ w' = save_roads_to_file
             (cout (road_added c1 c2)
                (with_mgr {| city_names := city_names (mgr w);
                             roads := set_sym i j 1 (roads (mgr w));
                             budgets := budgets (mgr w) |} w)).
Proof.
  unfold add_road.
  destruct (city_exists (city_names (mgr w)) c1); simpl; [|done].
  destruct (String.eqb_spec c2 c1) as [|Hne]; [done|].
  destruct (city_exists (city_names (mgr w)) c2); simpl; [|done].
  destruct (get_city_index (city_names (mgr w)) c1) as [i|] eqn:Hi; [|done].
  destruct (get_city_index (city_names (mgr w)) c2) as [j|] eqn:Hj; [|done].
  case_decide as Hroad; [done|]. intros [= <-].
  exists i, j. repeat split; try done.
  intros ->. apply get_city_index_Some in Hi, Hj. congruence.
Qed.

Lemma add_city_Some (name : string) (m m' : Manager) :
  add_city name m = Some m' →
  is_valid_city_name name = true ∧ (name ∉ city_names m) ∧ m' = push_city name m.
Proof.
  unfold add_city. destruct (String.eqb name EmptyString); [done|].
  destruct (city_exists (city_names m) name) eqn:Hex; [done|].
  destruct (is_valid_city_name name) eqn:Hv; simpl; [|done].
  intros [= <-]. repeat split; try done. by apply city_exists_false.
Qed.

Lemma add_budget_Some (c1 c2 : string) (b : Q) (w w' : World) :
  add_budget c1 c2 b w = Some w' →
  ∃ i j,
    get_city_index (city_names (mgr w)) c1 = Some i
    ∧ get_city_index (city_names (mgr w)) c2 = Some j
    ∧ at2 (roads (mgr w)) i j ≠ Some 0
    ∧ is_valid_budget b = true
    ∧ w' = save_roads_to_file
             (cout (budget_added c1 c2)
                (with_mgr {| city_names := city_names (mgr w);
                             roads := roads (mgr w);
                             budgets := set_sym i j b (budgets (mgr w)) |} w)).
Proof.
  unfold add_budget.
  destruct (city_exists (city_names (mgr w)) c1); simpl; [|done].
  destruct (city_exists (city_names (mgr w)) c2); simpl; [|done].
  destruct (get_city_index (city_names (mgr w)) c1) as [i|] eqn:Hi; [|done].
  destruct (get_city_index (city_names (mgr w)) c2) as [j|] eqn:Hj; [|done].
  case_decide as Hroad; [done|].
  destruct (is_valid_budget b) eqn:Hv; simpl; [|done].
  intros [= <-]. by exists i, j.
Qed.

Lemma add_cities_Some (names : list string) (w w' : World) :
  add_cities names w = Some w' →
  ∃ m', add_city_list names (mgr w) = Some m'
    ∧ w' = save_cities_to_file (cout (cities_added (Z.of_nat (length names))) (with_mgr m' w)).
Proof.
  unfold add_cities. destruct (is_valid_city_count _ _); [|done].
  destruct (add_city_list names (mgr w)) as [m'|]; [|done].
  intros [= <-]. by exists m'.
Qed.

Lemma save_roads_mgr (w : World) : mgr (save_roads_to_file w) = mgr w.
Proof. unfold save_roads_to_file. by destruct (roads_writable (disk w)). Qed.

Lemma save_cities_mgr (w : World) : mgr (save_cities_to_file w) = mgr w.
Proof. unfold save_cities_to_file. by destruct (cities_writable (disk w)). Qed.

(** ** C8: a save that cannot write *)

Lemma save_cities_roads_file (w : World) :
  roads_txt (disk (save_cities_to_file w)) = roads_txt (disk w)
  ∧ roads_writable (disk (save_cities_to_file w)) = roads_writable (disk w).
Proof. unfold save_cities_to_file. by destruct (cities_writable (disk w)). Qed.

(** C8. When [data/roads.txt] cannot be opened for writing, a save prints
    the error line on the console and changes nothing else: the city list,
    the adjacency matrix, the budget matrix and the disk are as before.
    Nothing is rolled back either: [add_road] keeps the road it has just
    set in the matrix, and whatever operation runs, the road file stays as
    it was. The modelled save is a total function, so it returns on every
    world. *)
Theorem save_roads_unwritable (w : World) :
  roads_writable (disk w) = false →
  (let w' := save_roads_to_file w in
   console w' = console w ++ [cannot_save_roads]
   ∧ city_names (mgr w') = city_names (mgr w)
   ∧ roads (mgr w') = roads (mgr w)
   ∧ budgets (mgr w') = budgets (mgr w)
   ∧ disk w' = disk w)
  ∧ (∀ c1 c2 w', add_road c1 c2 w = Some w' →
       ∃ i j, get_city_index (city_names (mgr w)) c1 = Some i
         ∧ get_city_index (city_names (mgr w)) c2 = Some j
         ∧ roads (mgr w') = set_sym i j 1 (roads (mgr w))
         ∧ disk w' = disk w
         ∧ last (console w') = Some cannot_save_roads)
  ∧ (∀ w', step w w' →
       roads_txt (disk w') = roads_txt (disk w)
       ∧ roads_writable (disk w') = false).
Proof.
  intros Hrw.
  assert (Hsave : ∀ w0, roads_writable (disk w0) = false →
                        save_roads_to_file w0 = cout cannot_save_roads w0).
  { intros w0 H0. unfold save_roads_to_file. by rewrite H0. }
  split; [|split].
  - by rewrite (Hsave w Hrw).
  - intros c1 c2 w' (i & j & Hi & Hj & _ & _ & ->)%add_road_Some.
    exists i, j. rewrite Hsave by done. simpl.
    repeat split; try done. apply last_snoc.
  - intros w' Hstep. revert Hrw.
    destruct Hstep as [names w1 w2 H|c1 c2 w1 w2 H|c1 c2 b w1 w2 H|index new_name w1 w2 H];
      intros Hrw.
    + apply add_cities_Some in H as (m' & _ & ->).
      match goal with
      | |- context [save_cities_to_file ?w0] =>
          destruct (save_cities_roads_file w0) as [-> ->]
      end. done.
    + apply add_road_Some in H as (i & j & _ & _ & _ & _ & ->).
      by rewrite Hsave.
    + apply add_budget_Some in H as (i & j & _ & _ & _ & _ & ->).
      by rewrite Hsave.
    + apply edit_city_Some in H as (_ & _ & _ & ->).
      match goal with
      | |- context [save_cities_to_file ?w0] =>
          destruct (save_cities_roads_file w0) as [Hr Hw]
      end.
      rewrite Hsave by (by rewrite Hw). simpl. rewrite Hr, Hw. done.
Qed.

Lemma save_roads_unwritable_witness :
  let w := read_only_roads kigali_huye in
  let w' := save_roads_to_file w in
  console w' = console w ++ [cannot_save_roads]
  ∧ city_names (mgr w') = city_names (mgr w)
  ∧ roads (mgr w') = roads (mgr w)
  ∧ budgets (mgr w') = budgets (mgr w)
  ∧ disk w' = disk w.
Proof.
  exact (proj1 (save_roads_unwritable (read_only_roads kigali_huye) eq_refl)).
Defined.

(** ** C4: the identifier of an edge without a record *)

(** C4, amended. An enumerated edge that no record of the prior file
    matches (by unordered pair of names) is written with the identifier of
    the last parseable record after the first line of the prior file plus
    one, or with 1 when there is no such record; this for a last identifier
    below the largest [int], where the sum of line 169 does not overflow.
    Every parseable record counts, also one whose names are not current
    cities. When the prior records are in ascending order of identifier, as
    every save writes them, this is the highest identifier of the prior file
    plus one. *)
Theorem unmatched_edge_nbr (w : World) (i j : nat) :
  roads_writable (disk w) = true →
  (i, j) ∈ present_edges (mgr w) →
  let existing := read_existing_roads (disk w) in
  let c1 := name_at (mgr w) i in
  let c2 := name_at (mgr w) j in
  (∀ e, e ∈ existing → ¬ same_pair c1 c2 e) →
  (∀ e, last existing = Some e → INT_MIN ≤ nbr e < INT_MAX) →
  let id := match last existing with None => 1 | Some e => nbr e + 1 end in
  (∃ lines, roads_txt (disk (save_roads_to_file w)) = Some lines
     ∧ format_entry {| nbr := id; city1 := c1; city2 := c2;
                       budget := budget_at (mgr w) i j |} ∈ lines)
  ∧ (StronglySorted nbr_le existing →
     id = match highest_nbr existing with None => 1 | Some h => h + 1 end).
Proof.
  intros Hw He existing c1 c2 Hno Hlast id. split.
  - exists (road_lines (disk w) (mgr w)). split.
    + by rewrite save_roads_writable.
    + pose proof (reconciled_line_written (disk w) (mgr w) (i, j) He) as H.
      unfold reconcile_edge in H. simpl in H.
      rewrite (reconcile_unmatched _ _ _ _ Hno) in H.
      fold existing in H. by rewrite (next_nbr_in_range existing Hlast) in H.
  - apply last_nbr_sorted.
Qed.

Lemma unmatched_edge_nbr_witness :
  ∃ lines, roads_txt (disk (save_roads_to_file stale_record_world)) = Some lines
    ∧ RoadLine (Some 2) "Kigali - Huye" (Some 0%Q) ∈ lines.
Proof.
  assert (Hin : (0%nat, 1%nat) ∈ present_edges (mgr stale_record_world))
    by (by left).
  assert (Hno : ∀ e, e ∈ read_existing_roads (disk stale_record_world) →
                ¬ same_pair (name_at (mgr stale_record_world) 0)
                            (name_at (mgr stale_record_world) 1) e).
  { intros e He. apply list_elem_of_singleton in He. subst e.
    intros [[H _]|[_ H]]; discriminate H. }
  assert (Hlast : ∀ e, last (read_existing_roads (disk stale_record_world)) = Some e →
                  INT_MIN ≤ nbr e < INT_MAX).
  { intros e [= <-]. split; [by intros H | reflexivity]. }
  destruct (unmatched_edge_nbr stale_record_world 0 1 eq_refl Hin Hno Hlast)
    as [(lines & Hl & Hm) _].
  exists lines. split; [exact Hl | exact Hm].
Defined.

(** The prior file of [reordered_disk] has the identifiers 5 and 2, in that
    order. The road added next is written with 3, the last identifier plus
    one, and not with 6. *)
Lemma unmatched_edge_not_highest :
  highest_nbr (read_existing_roads reordered_disk) = Some 5
  ∧ (∀ e, e ∈ read_existing_roads reordered_disk → ¬ same_pair "Musanze" "Rubavu" e)
  ∧ roads_txt (disk (or_start (add_road "Musanze" "Rubavu" (start reordered_disk))))
    = Some [roads_header;
            RoadLine (Some 2) "Huye - Musanze" (Some (20 # 1));
            RoadLine (Some 3) "Musanze - Rubavu" (Some 0%Q);
            RoadLine (Some 5) "Kigali - Huye" (Some (10 # 1))].
Proof.
  split; [reflexivity|]. split; [|reflexivity].
  intros e He. change (read_existing_roads reordered_disk) with
    [ {| nbr := 5; city1 := "Kigali"; city2 := "Huye"; budget := 10 # 1 |};
      {| nbr := 2; city1 := "Huye"; city2 := "Musanze"; budget := 20 # 1 |} ] in He.
  apply elem_of_cons in He as [->|He];
    [|apply list_elem_of_singleton in He as ->];
    intros [[H1 H2]|[H1 H2]]; discriminate.
Qed.

(** Past the largest [int] the sum of line 169 wraps around: the road
    added over [last_int_disk] is written with the smallest [int] and is
    sorted first. *)
Example identifier_overflow :
  roads_txt (disk (or_start (add_road "Huye" "Musanze" (start last_int_disk))))
  = Some [roads_header;
          RoadLine (Some (-2147483648)) "Huye - Musanze" (Some 0%Q);
          RoadLine (Some 2147483647) "Kigali - Huye" (Some (10 # 1))].
Proof. reflexivity. Qed.

(** ** C1: several new edges in one save *)

(** Every edge without a record is given the same identifier: line 169
    reads the last record of the prior file each time, and nothing is added
    to [existing_roads] during the loop. *)
Lemma unmatched_edges_same_nbr (existing : list RoadEntry) (m : Manager)
      (e e' : nat * nat) :
  (∀ x, x ∈ existing → ¬ same_pair (name_at m e.1) (name_at m e.2) x) →
  (∀ x, x ∈ existing → ¬ same_pair (name_at m e'.1) (name_at m e'.2) x) →
  nbr (reconcile_edge existing m e) = nbr (reconcile_edge existing m e').
Proof.
  intros H H'. unfold reconcile_edge.
  by rewrite (reconcile_unmatched _ _ _ _ H), (reconcile_unmatched _ _ _ _ H').
Qed.

(** C1. Kigali has two roads, saved as 1 and 2. After Kigali is renamed,
    the save finds no record for either road and introduces both as new
    edges. Both are written with the identifier 3; the identifiers 3 and 4
    are not what the file holds. *)
Theorem two_new_edges_one_nbr :
  file_nbrs (disk kigali_two_roads) = [1; 2]
  ∧ ∃ w', edit_city 1 "Nyarugenge" kigali_two_roads = Some w'
      ∧ roads_txt (disk w')
        = Some [roads_header;
                RoadLine (Some 3) "Nyarugenge - Huye" (Some 0%Q);
                RoadLine (Some 3) "Nyarugenge - Musanze" (Some 0%Q)]
      ∧ file_nbrs (disk w') = [3; 3].
Proof.
  split; [reflexivity|]. eexists. split; [reflexivity|]. split; reflexivity.
Qed.

(** ** C2: a rename followed by a save *)

(** C2. The road Kigali - Huye is on disk as record 1. After Kigali is
    renamed, the save run by [edit_city] compares the new name with the
    names stored in the file (lines 158-165), finds no record for the road
    and writes it as record 2: the identifier is not kept. *)
Theorem rename_changes_nbr :
  roads_txt (disk kigali_huye)
  = Some [roads_header; RoadLine (Some 1) "Kigali - Huye" (Some 0%Q)]
  ∧ ∃ w', edit_city 1 "Nyarugenge" kigali_huye = Some w'
      ∧ roads_txt (disk w')
        = Some [roads_header; RoadLine (Some 2) "Nyarugenge - Huye" (Some 0%Q)].
Proof. split; [reflexivity|]. eexists. split; reflexivity. Qed.

Lemma read_existing_roads_ext (d d' : Disk) :
  roads_txt d = roads_txt d' → read_existing_roads d = read_existing_roads d'.
Proof. unfold read_existing_roads. by intros ->. Qed.

Lemma road_lines_ext (d d' : Disk) (m : Manager) :
  roads_txt d = roads_txt d' → road_lines d m = road_lines d' m.
Proof. intros H. unfold road_lines. by rewrite (read_existing_roads_ext _ _ H). Qed.

(** The same for every rename. Where no record of the prior file carries
    the new name, no road of the renamed city finds its record: each is
    written with the result of line 169 as its identifier. A road that does
    not touch the renamed city is written as a save without the rename
    would write it, its identifier included. *)
Lemma rename_then_save (w w' : World) (index : Z) (new_name : string) :
  edit_city index new_name w = Some w' →
  roads_writable (disk w) = true →
  let existing := read_existing_roads (disk w) in
  (∀ e, e ∈ existing → city1 e ≠ new_name ∧ city2 e ≠ new_name) →
  let k := Z.to_nat (index - 1) in
  name_at (mgr w') k = new_name
  ∧ ∃ lines, roads_txt (disk w') = Some lines
    ∧ ∀ i j, (i, j) ∈ present_edges (mgr w) →
        ((i = k ∨ j = k) →
         format_entry {| nbr := next_nbr existing;
                         city1 := name_at (mgr w') i;
                         city2 := name_at (mgr w') j;
                         budget := budget_at (mgr w) i j |} ∈ lines)
        ∧ (i ≠ k → j ≠ k →
           format_entry (reconcile_edge existing (mgr w) (i, j)) ∈ lines).
Proof.
  intros Hedit Hw existing Hfresh k.
  apply edit_city_Some in Hedit as (Hk & Hnew & Hval & ->).
  subst k. set (k := Z.to_nat (index - 1)) in *.
  set (m' := {| city_names := <[k := new_name]> (city_names (mgr w));
                roads := roads (mgr w); budgets := budgets (mgr w) |}).
  set (w1 := save_cities_to_file (cout city_edited (with_mgr m' w))).
  destruct (save_cities_frame (cout city_edited (with_mgr m' w)))
    as (Hm1 & Hr1 & Hw1). fold w1 in Hm1, Hr1, Hw1. simpl in Hm1, Hr1, Hw1.
  rewrite save_roads_writable by (by rewrite Hw1).
  assert (Hat : name_at m' k = new_name).
  { unfold name_at, m'. simpl. by rewrite list_lookup_insert_eq. }
  simpl. rewrite Hm1. split; [done|].
  exists (road_lines (disk w) m'). split.
  { f_equal. by apply road_lines_ext. }
  intros i j Hin.
  assert (Hin' : (i, j) ∈ present_edges m') by done.
  pose proof (reconciled_line_written (disk w) m' (i, j) Hin') as Hline.
  unfold reconcile_edge in Hline. simpl in Hline.
  change (budget_at m' i j) with (budget_at (mgr w) i j) in Hline.
  split.
  - intros Hik. rewrite reconcile_unmatched in Hline; [done|].
    intros e He Hpair. destruct (Hfresh e He) as [H1 H2].
    destruct Hik as [->| ->]; rewrite Hat in Hpair;
      destruct Hpair as [[? ?]|[? ?]]; done.
  - intros Hi Hj. unfold reconcile_edge. simpl.
    assert (Hn : ∀ x, x ≠ k → name_at m' x = name_at (mgr w) x).
    { intros x Hx. unfold name_at, m'. simpl. by rewrite list_lookup_insert_ne. }
    by rewrite <- (Hn i Hi), <- (Hn j Hj).
Qed.

(** ** Loading the city file *)

Lemma push_city_zero (names : list string) (c : string) :
  push_city c (zero_manager names) = zero_manager (names ++ [c]).
Proof.
  unfold push_city, zero_manager. simpl. rewrite length_app. simpl.
  replace (length names + 1)%nat with (S (length names)) by lia.
  f_equal.
  - rewrite fmap_replicate, resize_replicate. by rewrite <- replicate_S_end.
  - rewrite fmap_replicate, resize_replicate. by rewrite <- replicate_S_end.
Qed.

(** Distinct valid names are appended one by one, each growing the
    matrices. *)
Lemma load_city_lines (loaded names : list string) :
  NoDup (loaded ++ names) →
  Forall (λ c, is_valid_city_name c = true) names →
  foldl load_city_line (zero_manager loaded) (CityLine <$> names)
  = zero_manager (loaded ++ names).
Proof.
  revert loaded. induction names as [|c names IH]; intros loaded Hnd Hval.
  - by rewrite app_nil_r.
  - apply Forall_cons in Hval as [Hc Hval]. simpl.
    rewrite Hc. simpl.
    assert (c ∉ loaded) as Hfresh.
    { apply NoDup_app in Hnd as (_ & Hdisj & _). intros Hin.
      apply (Hdisj c Hin). by left. }
    apply city_exists_false in Hfresh. rewrite Hfresh. simpl.
    rewrite push_city_zero, IH; [by rewrite <- app_assoc | | done].
    by rewrite <- app_assoc.
Qed.

Lemma load_saved_cities (w : World) :
  cities_writable (disk w) = true →
  NoDup (city_names (mgr w)) →
  Forall (λ c, is_valid_city_name c = true) (city_names (mgr w)) →
  load_cities_from_file (disk (save_cities_to_file w)) empty_manager
  = zero_manager (city_names (mgr w)).
Proof.
  intros Hw Hnd Hval. unfold save_cities_to_file. rewrite Hw.
  unfold load_cities_from_file. simpl.
  by apply (load_city_lines []).
Qed.

(** ** A sequence of symmetric writes *)

Section writes.
Implicit Types (m : Manager) (ws : list (nat * nat * Q)) (a b : nat).

Lemma apply_write_names m wr : city_names (apply_write m wr) = city_names m.
Proof. by destruct wr as [[i j] v]. Qed.

Lemma foldl_apply_write_names m ws :
  city_names (foldl apply_write m ws) = city_names m.
Proof.
  revert m. induction ws as [|wr ws IH]; intros m; [done|].
  simpl. by rewrite IH, apply_write_names.
Qed.

Lemma at2_apply_write_roads m wr a b :
  at2 (roads (apply_write m wr)) a b
  = if decide (touches a b wr) then (λ _, 1) <$> at2 (roads m) a b
    else at2 (roads m) a b.
Proof. destruct wr as [[i j] v]. simpl. by rewrite at2_set_sym. Qed.

Lemma at2_apply_write_budgets m wr a b :
  at2 (budgets (apply_write m wr)) a b
  = if decide (touches a b wr) then (λ _, wr.2) <$> at2 (budgets m) a b
    else at2 (budgets m) a b.
Proof. destruct wr as [[i j] v]. simpl. by rewrite at2_set_sym. Qed.

(** Writes never change which cells exist. *)
Lemma foldl_apply_write_shape m ws a b :
  ((λ _, tt) <$> at2 (roads (foldl apply_write m ws)) a b
   = (λ _, tt) <$> at2 (roads m) a b)
  ∧ ((λ _, tt) <$> at2 (budgets (foldl apply_write m ws)) a b
     = (λ _, tt) <$> at2 (budgets m) a b).
Proof.
  revert m. induction ws as [|wr ws IH]; intros m; [done|].
  simpl. destruct (IH (apply_write m wr)) as [-> ->].
  rewrite at2_apply_write_roads, at2_apply_write_budgets.
  case_decide; [|done].
  by destruct (at2 (roads m) a b), (at2 (budgets m) a b).
Qed.

Lemma foldl_apply_write_untouched m ws a b :
  Forall (λ wr, ¬ touches a b wr) ws →
  at2 (roads (foldl apply_write m ws)) a b = at2 (roads m) a b
  ∧ at2 (budgets (foldl apply_write m ws)) a b = at2 (budgets m) a b.
Proof.
  intros H. revert m. induction H as [|wr ws Hwr _ IH]; intros m; [done|].
  simpl. destruct (IH (apply_write m wr)) as [-> ->].
  rewrite at2_apply_write_roads, at2_apply_write_budgets.
  by rewrite !decide_False.
Qed.

Lemma foldl_apply_write_touched_roads m ws a b :
  Exists (touches a b) ws →
  at2 (roads (foldl apply_write m ws)) a b = (λ _, 1) <$> at2 (roads m) a b.
Proof.
  induction ws as [|wr ws IH] using rev_ind; [by intros ?%Exists_nil|].
  intros Hex. rewrite foldl_snoc, at2_apply_write_roads.
  destruct (foldl_apply_write_shape m ws a b) as [Hshape _].
  case_decide as Hwr.
  - destruct (at2 (roads (foldl apply_write m ws)) a b),
      (at2 (roads m) a b); done.
  - apply IH. apply Exists_app in Hex as [?|Hex]; [done|].
    apply Exists_cons in Hex as [?|?%Exists_nil]; done.
Qed.

Lemma foldl_apply_write_touched_budgets m ws a b (v : Q) :
  Exists (touches a b) ws →
  Forall (λ wr, touches a b wr → wr.2 = v) ws →
  at2 (budgets (foldl apply_write m ws)) a b = (λ _, v) <$> at2 (budgets m) a b.
Proof.
  induction ws as [|wr ws IH] using rev_ind; [by intros ?%Exists_nil|].
  intros Hex Hall. rewrite foldl_snoc, at2_apply_write_budgets.
  apply Forall_app in Hall as [Hall Hwr'].
  apply Forall_cons in Hwr' as [Hwr' _].
  destruct (foldl_apply_write_shape m ws a b) as [_ Hshape].
  case_decide as Hwr.
  - rewrite (Hwr' Hwr).
    destruct (at2 (budgets (foldl apply_write m ws)) a b),
      (at2 (budgets m) a b); done.
  - apply IH; [|done]. apply Exists_app in Hex as [?|Hex]; [done|].
    apply Exists_cons in Hex as [?|?%Exists_nil]; done.
Qed.

Lemma foldl_apply_write_square m ws n :
  square n (roads m) → square n (budgets m) →
  square n (roads (foldl apply_write m ws))
  ∧ square n (budgets (foldl apply_write m ws)).
Proof.
  revert m. induction ws as [|[[i j] v] ws IH]; intros m Hr Hb; [done|].
  simpl. apply IH; simpl; by apply set_sym_square.
Qed.

End writes.
(** ** Reading back what a save wrote *)

Lemma parse_load_format (e : RoadEntry) :
  Text.has_space_hyphen (city1 e) = false →
  parse_load_line (format_entry e)
  = Some (city1 e, city2 e, Budget.fixed1 (budget e)).
Proof.
  intros H. unfold parse_load_line, format_entry.
  by rewrite (TextFacts.split_join_road _ _ H).
Qed.

Lemma parse_entry_format (e : RoadEntry) :
  Text.has_space_hyphen (city1 e) = false →
  parse_entry (format_entry e)
  = Some {| nbr := nbr e; city1 := city1 e; city2 := city2 e;
            budget := Budget.fixed1 (budget e) |}.
Proof.
  intros H. unfold parse_entry, format_entry.
  by rewrite (TextFacts.split_join_road _ _ H).
Qed.

(** The loader on a written line. *)
Lemma load_formatted_line (m0 : Manager) (e : RoadEntry) :
  Text.has_space_hyphen (city1 e) = false →
  load_road_line m0 (format_entry e)
  = apply_write_opt m0 (entry_write (city_names m0) e).
Proof.
  intros H. unfold load_road_line, entry_write, apply_write_opt.
  by rewrite (parse_load_format _ H).
Qed.

Lemma apply_write_opt_names (m0 : Manager) (o : option (nat * nat * Q)) :
  city_names (apply_write_opt m0 o) = city_names m0.
Proof. destruct o as [wr|]; [apply apply_write_names | done]. Qed.

Lemma load_formatted_lines (names : list string) (m0 : Manager) (es : list RoadEntry) :
  Forall (λ e, Text.has_space_hyphen (city1 e) = false) es →
  city_names m0 = names →
  foldl load_road_line m0 (format_entry <$> es)
  = foldl apply_write m0 (omap (entry_write names) es).
Proof.
  intros Hes. revert m0. induction Hes as [|e es He _ IH]; intros m0 Hnames; [done|].
  rewrite fmap_cons. cbn [foldl omap list_omap].
  rewrite (load_formatted_line _ _ He), Hnames.
  destruct (entry_write names e) as [wr|]; simpl.
  - apply IH. by rewrite apply_write_names.
  - by apply IH.
Qed.

Section saved_entries.
Variables (existing : list RoadEntry) (m : Manager).
Hypothesis Hwf : well_formed m.

Lemma name_at_lookup (i : nat) :
  (i < length (city_names m))%nat → city_names m !! i = Some (name_at m i).
Proof.
  intros [c Hc]%lookup_lt_is_Some. unfold name_at. by rewrite Hc.
Qed.

(** The scan resolves the name stored at a position to that position. *)
Lemma get_city_index_name_at (i : nat) :
  (i < length (city_names m))%nat →
  get_city_index (city_names m) (name_at m i) = Some i.
Proof.
  intros Hi. apply get_city_index_lookup; [apply Hwf | by apply name_at_lookup].
Qed.

Lemma name_at_inj (i j : nat) :
  (i < length (city_names m))%nat → (j < length (city_names m))%nat →
  name_at m i = name_at m j → i = j.
Proof.
  intros Hi Hj Heq.
  pose proof (get_city_index_name_at i Hi) as H1.
  pose proof (get_city_index_name_at j Hj) as H2.
  rewrite Heq in H1. congruence.
Qed.

(** The written line of an edge is loaded as the write of that edge. *)
Lemma entry_write_reconcile (e : nat * nat) :
  e ∈ present_edges m →
  entry_write (city_names m) (reconcile_edge existing m e) = edge_write m e.
Proof.
  destruct e as [i j]. intros He.
  destruct (present_edges_in_range m i j Hwf He) as (Hij & Hj & _).
  unfold entry_write, reconcile_edge, edge_write, read_back. cbn [fst snd].
  destruct (reconcile_names existing (name_at m i) (name_at m j) (budget_at m i j))
    as (-> & -> & ->).
  unfold record_write. by rewrite !get_city_index_name_at by lia.
Qed.

Lemma reconciled_names_split (e : nat * nat) :
  names_split m → e ∈ present_edges m →
  Text.has_space_hyphen (city1 (reconcile_edge existing m e)) = false.
Proof.
  destruct e as [i j]. intros Hsplit He.
  destruct (present_edges_in_range m i j Hwf He) as (Hij & Hj & _).
  unfold reconcile_edge. cbn [fst snd].
  destruct (reconcile_names existing (name_at m i) (name_at m j) (budget_at m i j))
    as (-> & _).
  unfold names_split in Hsplit. rewrite Forall_forall in Hsplit.
  apply Hsplit. apply list_elem_of_lookup. exists i.
  apply name_at_lookup. lia.
Qed.

End saved_entries.

(** ** What a restart rebuilds from a saved road file *)

Lemma zero_manager_square (names : list string) :
  square (length names) (roads (zero_manager names))
  ∧ square (length names) (budgets (zero_manager names)).
Proof.
  unfold zero_manager, square. simpl. rewrite !length_replicate.
  repeat split; try done; apply Forall_replicate; by rewrite length_replicate.
Qed.

Lemma at2_replicate {A} (n a b : nat) (z : A) :
  (a < n)%nat → (b < n)%nat → at2 (replicate n (replicate n z)) a b = Some z.
Proof.
  intros Ha Hb. unfold at2. rewrite (lookup_replicate_2 _ _ _ Ha). simpl.
  by rewrite lookup_replicate_2.
Qed.

Lemma square_row_length {A} (n i : nat) (M : list (list A)) :
  square n M → (i < n)%nat → length (default [] (M !! i)) = n.
Proof.
  intros [Hlen Hrows] Hi.
  destruct (M !! i) as [row|] eqn:Hrow; simpl.
  - by apply (Forall_lookup_1 _ _ _ _ Hrows Hrow).
  - apply lookup_ge_None in Hrow. lia.
Qed.

Lemma bind_filter {A B} (P : B → Prop) `{∀ x, Decision (P x)}
      (f g : A → list B) (l : list A) :
  Forall (λ x, g x = filter P (f x)) l → l ≫= g = filter P (l ≫= f).
Proof.
  induction 1 as [|x l Hx _ IH]; csimpl; [done|].
  by rewrite filter_app, Hx, IH.
Qed.

(** The enumeration only depends on which cells above the diagonal hold 1:
    cells that lose their 1 drop out of it, in place. *)
Lemma present_edges_filter (n : nat) (m m' : Manager)
      (P : nat * nat → Prop) `{∀ e, Decision (P e)} :
  square n (roads m) → square n (roads m') →
  (∀ a b, (a < b)%nat →
     at2 (roads m') a b = Some 1 ↔ at2 (roads m) a b = Some 1 ∧ P (a, b)) →
  present_edges m' = filter P (present_edges m).
Proof.
  intros Hsq Hsq' Hiff. unfold present_edges.
  rewrite (proj1 Hsq), (proj1 Hsq'). apply bind_filter, Forall_forall.
  intros i [_ Hi]%elem_of_seq. simpl in Hi.
  rewrite (square_row_length n i _ Hsq Hi), (square_row_length n i _ Hsq' Hi).
  apply bind_filter, Forall_forall. intros j [Hj _]%elem_of_seq.
  specialize (Hiff i j ltac:(lia)).
  destruct (decide (at2 (roads m) i j = Some 1)) as [H1|H1].
  - rewrite (filter_singleton _ _ []). destruct (decide (P (i, j))) as [HP|HP].
    + rewrite decide_True; [done | tauto].
    + rewrite decide_False; [done | tauto].
  - rewrite filter_nil. rewrite decide_False; [done | tauto].
Qed.

Section restart.
Variables (existing : list RoadEntry) (m : Manager).
Hypothesis Hwf : well_formed m.
Hypothesis Hsplit : names_split m.

Let names := city_names m.
Let n := length names.
Let saved := sort_by_nbr (updated_roads existing m).
Let ws := omap (entry_write names) saved.
Let loaded := foldl load_road_line (zero_manager names) (format_entry <$> saved).

Lemma elem_of_saved (x : RoadEntry) :
  x ∈ saved ↔ ∃ e, e ∈ present_edges m ∧ x = reconcile_edge existing m e.
Proof.
  subst saved. rewrite elem_of_sort_by_nbr. unfold updated_roads.
  rewrite list_elem_of_fmap. split; intros (e & H1 & H2); by exists e.
Qed.

Lemma loaded_as_writes : loaded = foldl apply_write (zero_manager names) ws.
Proof.
  subst loaded ws. apply load_formatted_lines; [|done].
  apply Forall_forall. intros x (e & He & ->)%elem_of_saved.
  by apply reconciled_names_split.
Qed.

Lemma elem_of_ws (wr : nat * nat * Q) :
  wr ∈ ws ↔ ∃ e, e ∈ present_edges m ∧ edge_write m e = Some wr.
Proof.
  unfold ws, names. rewrite list_elem_of_omap. split.
  - intros (x & (e & He & ->)%elem_of_saved & Hx).
    exists e. split; [done|]. by rewrite <- (entry_write_reconcile existing m Hwf e He).
  - intros (e & He & Hwr). exists (reconcile_edge existing m e). split.
    + apply elem_of_saved. by exists e.
    + by rewrite (entry_write_reconcile existing m Hwf e He).
Qed.

(** A write of the loader that goes to a cell above the diagonal is the
    write of the edge at that cell. *)
Lemma touching_write (a b : nat) (wr : nat * nat * Q) :
  (a < b)%nat → wr ∈ ws → touches a b wr →
  (a, b) ∈ present_edges m ∧ edge_write m (a, b) = Some wr.
Proof.
  intros Hab (e & He & Hwr)%elem_of_ws Ht. destruct e as [i j].
  destruct (present_edges_in_range m i j Hwf He) as (Hij & _).
  unfold edge_write in Hwr. cbn [fst snd] in Hwr.
  destruct (is_valid_budget (read_back m (i, j))) eqn:Hv; [|done].
  injection Hwr as <-. unfold touches in Ht. cbn [fst snd] in Ht.
  destruct Ht as [[-> ->]|[-> ->]]; [|lia].
  split; [done|]. unfold edge_write. cbn [fst snd]. by rewrite Hv.
Qed.

Lemma loaded_names : city_names loaded = names.
Proof. rewrite loaded_as_writes. apply foldl_apply_write_names. Qed.

Lemma loaded_square : square n (roads loaded) ∧ square n (budgets loaded).
Proof.
  rewrite loaded_as_writes.
  apply foldl_apply_write_square; apply zero_manager_square.
Qed.

(** After the load a cell above the diagonal holds 1 exactly for the edges
    that were present and whose budget, as read back, is valid. *)
Lemma loaded_roads (a b : nat) :
  (a < b)%nat →
  at2 (roads loaded) a b = Some 1
  ↔ (a, b) ∈ present_edges m ∧ budget_accepted m (a, b).
Proof.
  intros Hab. rewrite loaded_as_writes. split.
  - intros Hat. destruct (decide (Exists (touches a b) ws)) as [Hex|Hno].
    + apply Exists_exists in Hex as (wr & Hwr & Ht).
      destruct (touching_write a b wr Hab Hwr Ht) as [He Hw].
      split; [done|]. unfold edge_write in Hw. unfold budget_accepted.
      by destruct (is_valid_budget (read_back m (a, b))).
    + apply not_Exists_Forall in Hno; [|apply _].
      destruct (foldl_apply_write_untouched (zero_manager names) ws a b Hno)
        as [Hr _].
      rewrite Hr in Hat. exfalso.
      destruct (at2_Some_lt _ _ _ _ _ (proj1 (zero_manager_square names)) Hat)
        as [Ha Hb].
      unfold zero_manager in Hat. simpl in Hat.
      by rewrite at2_replicate in Hat.
  - intros [He Hv].
    destruct (present_edges_in_range m a b Hwf He) as (_ & Hb & _).
    rewrite foldl_apply_write_touched_roads.
    + unfold zero_manager. simpl.
      by rewrite at2_replicate by (unfold names; lia).
    + apply Exists_exists. exists (a, b, read_back m (a, b)). split.
      * apply elem_of_ws. exists (a, b). split; [done|].
        unfold edge_write. unfold budget_accepted in Hv. by rewrite Hv.
      * by left.
Qed.

Lemma loaded_budget (a b : nat) :
  (a, b) ∈ present_edges m → budget_accepted m (a, b) →
  budget_at loaded a b = read_back m (a, b).
Proof.
  intros He Hv.
  destruct (present_edges_in_range m a b Hwf He) as (Hab & Hb & _).
  unfold budget_at at 1. rewrite loaded_as_writes.
  rewrite (foldl_apply_write_touched_budgets _ _ _ _ (read_back m (a, b))).
  - unfold zero_manager. simpl.
    by rewrite at2_replicate by (unfold names; lia).
  - apply Exists_exists. exists (a, b, read_back m (a, b)). split.
    + apply elem_of_ws. exists (a, b). split; [done|].
      unfold edge_write. unfold budget_accepted in Hv. by rewrite Hv.
    + by left.
  - apply Forall_forall. intros wr Hwr Ht.
    destruct (touching_write a b wr Hab Hwr Ht) as [_ Hw].
    unfold edge_write in Hw.
    destruct (is_valid_budget (read_back m (a, b))); [|done].
    by injection Hw as <-.
Qed.

Lemma loaded_present_edges :
  present_edges loaded = filter (budget_accepted m) (present_edges m).
Proof.
  apply (present_edges_filter n).
  - apply Hwf.
  - apply loaded_square.
  - intros a b Hab. rewrite (loaded_roads a b Hab).
    rewrite elem_of_present_edges. tauto.
Qed.

(** The enumeration after the load: the edges whose budget is accepted, in
    the same order, with the budgets as read back. *)
Lemma loaded_enumeration :
  edge_enumeration loaded
  = (λ e, (e.1, e.2, read_back m e)) <$> filter (budget_accepted m) (present_edges m).
Proof.
  unfold edge_enumeration. rewrite loaded_present_edges.
  apply Forall_fmap_ext, Forall_forall.
  intros [i j] [Hv He]%list_elem_of_filter.
  cbn [fst snd]. by rewrite loaded_budget.
Qed.

End restart.

(** ** Restarting from saved files *)

Lemma filter_all {A} (P : A → Prop) `{∀ x, Decision (P x)} (l : list A) :
  Forall P l → filter P l = l.
Proof.
  induction 1 as [|x l Hx _ IH]; [done|].
  by rewrite filter_cons_True, IH.
Qed.

Lemma load_saved_city_lines (d : Disk) (names : list string) :
  cities_txt d = Some (cities_header :: (CityLine <$> names)) →
  NoDup names →
  Forall (λ c, is_valid_city_name c = true) names →
  load_cities_from_file d empty_manager = zero_manager names.
Proof.
  intros Hd Hnd Hval. unfold load_cities_from_file. rewrite Hd. simpl.
  by apply (load_city_lines []).
Qed.

(** The manager built at start-up from a city file and a road file that
    were both saved from [m]. *)
Lemma restart_of_saved (d d0 : Disk) (m : Manager) :
  well_formed m → names_split m →
  cities_txt d = Some (cities_header :: (CityLine <$> city_names m)) →
  roads_txt d = Some (road_lines d0 m) →
  city_names (new_manager d) = city_names m
  ∧ present_edges (new_manager d) = filter (budget_accepted m) (present_edges m)
  ∧ edge_enumeration (new_manager d)
    = (λ e, (e.1, e.2, read_back m e)) <$> filter (budget_accepted m) (present_edges m).
Proof.
  intros Hwf Hsplit Hc Hr. unfold new_manager.
  rewrite (load_saved_city_lines d _ Hc); [|apply Hwf..].
  unfold load_roads_from_file. rewrite Hr. unfold road_lines. cbn [tail].
  split; [|split].
  - by apply loaded_names.
  - by apply loaded_present_edges.
  - by apply loaded_enumeration.
Qed.

Lemma saved_files (w : World) :
  cities_writable (disk w) = true → roads_writable (disk w) = true →
  let d := disk (save_roads_to_file (save_cities_to_file w)) in
  cities_txt d = Some (cities_header :: (CityLine <$> city_names (mgr w)))
  ∧ roads_txt d = Some (road_lines (disk w) (mgr w)).
Proof.
  intros Hcw Hrw d. subst d.
  destruct (save_cities_frame w) as (Hm1 & Hr1 & Hw1).
  rewrite save_roads_writable by (by rewrite Hw1). simpl.
  rewrite Hm1, (road_lines_ext _ _ _ Hr1).
  unfold save_cities_to_file. by rewrite Hcw.
Qed.

(** ** C3: the round trip *)

(** C3, amended. Take a well-formed manager in which every present edge
    has a budget that the loader accepts ([0 < b <= 1000]) and that has at
    most one decimal place, and in which no city name contains [" -"]. If
    both files can be written, saving them and loading them into a fresh
    manager gives back the same city list and the same canonical edge
    enumeration, budgets included. *)
Theorem save_load_round_trip (w : World) :
  well_formed (mgr w) → names_split (mgr w) → budgets_survive (mgr w) →
  cities_writable (disk w) = true → roads_writable (disk w) = true →
  city_names (save_then_load w) = city_names (mgr w)
  ∧ edge_enumeration (save_then_load w) = edge_enumeration (mgr w).
Proof.
  intros Hwf Hsplit Hbud Hcw Hrw.
  destruct (saved_files w Hcw Hrw) as [Hc Hr].
  destruct (restart_of_saved _ _ _ Hwf Hsplit Hc Hr) as (Hnames & _ & Henum).
  unfold save_then_load. split; [done|]. rewrite Henum.
  rewrite filter_all.
  - unfold edge_enumeration. apply Forall_fmap_ext, Forall_forall.
    intros [i j] He. unfold read_back. cbn [fst snd].
    by destruct (Hbud i j He) as [_ ->].
  - apply Forall_forall. intros [i j] He. unfold budget_accepted, read_back.
    cbn [fst snd]. by destruct (Hbud i j He) as [Hv ->].
Qed.

Lemma kigali_huye_budget_well_formed : well_formed (mgr kigali_huye_budget).
Proof.
  well_formed_by_computation.
Defined.

Lemma save_load_round_trip_witness :
  city_names (save_then_load kigali_huye_budget) = ["Kigali"; "Huye"]%string
  ∧ edge_enumeration (save_then_load kigali_huye_budget) = [(0%nat, 1%nat, 25 # 2)].
Proof.
  apply (save_load_round_trip kigali_huye_budget).
  - exact kigali_huye_budget_well_formed.
  - repeat constructor.
  - intros i j Hin. apply list_elem_of_singleton in Hin.
    injection Hin as -> ->. split; reflexivity.
  - reflexivity.
  - reflexivity.
Defined.

(** A road that was added and has no budget yet is saved with the budget
    0.0; the loader discards that record as invalid, and the road is gone
    after a restart. *)
Lemma road_without_budget_lost :
  well_formed (mgr kigali_huye)
  ∧ edge_enumeration (mgr kigali_huye) = [(0%nat, 1%nat, 0%Q)]
  ∧ roads_txt (disk (save_roads_to_file (save_cities_to_file kigali_huye)))
    = Some [roads_header; RoadLine (Some 1) "Kigali - Huye" (Some 0%Q)]
  ∧ city_names (save_then_load kigali_huye) = ["Kigali"; "Huye"]%string
  ∧ edge_enumeration (save_then_load kigali_huye) = [].
Proof.
  split; [|repeat split; reflexivity].
  well_formed_by_computation.
Qed.

(** A budget with two decimal places comes back rounded. *)
Example budget_rounded_on_reload :
  edge_enumeration (mgr (or_start (add_budget "Kigali" "Huye" (1255 # 100) kigali_huye)))
  = [(0%nat, 1%nat, 1255 # 100)]
  ∧ edge_enumeration
      (save_then_load (or_start (add_budget "Kigali" "Huye" (1255 # 100) kigali_huye)))
    = [(0%nat, 1%nat, 63 # 5)].
Proof. split; reflexivity. Qed.

(** ** C9: a road that never got a budget *)

Lemma fixed1_zero : Budget.fixed1 0 = 0%Q.
Proof. reflexivity. Qed.

Lemma zero_budget_invalid : is_valid_budget 0 = false.
Proof. reflexivity. Qed.

(** On a well-formed manager none of whose city names contains [" -"],
    with the city file in step with the registry and a writable road file:
    a road created by [add_road] between two cities whose budget cell is 0
    keeps that cell at 0, is saved by [add_road] as a record with the budget
    field 0.0, that record is discarded by the loader, and the manager built
    at the next start has the same cities and no edge at this road's
    position. *)
Lemma unbudgeted_road_lost (w w' : World) (c1 c2 : string) (i j : nat) :
  well_formed (mgr w) → names_split (mgr w) → cities_in_sync w →
  roads_writable (disk w) = true →
  get_city_index (city_names (mgr w)) c1 = Some i →
  get_city_index (city_names (mgr w)) c2 = Some j →
  at2 (budgets (mgr w)) (i `min` j) (i `max` j) = Some 0%Q →
  add_road c1 c2 w = Some w' →
  let lo := (i `min` j)%nat in
  let hi := (i `max` j)%nat in
  let road := Text.join_road (name_at (mgr w') lo) (name_at (mgr w') hi) in
  (lo, hi) ∈ present_edges (mgr w')
  ∧ at2 (budgets (mgr w')) lo hi = Some 0%Q
  ∧ (∃ lines id, roads_txt (disk w') = Some lines
       ∧ RoadLine (Some id) road (Some 0%Q) ∈ lines)
  ∧ record_write (city_names (mgr w')) (name_at (mgr w') lo) (name_at (mgr w') hi) 0
    = None
  ∧ city_names (new_manager (disk w')) = city_names (mgr w')
  ∧ (lo, hi) ∉ present_edges (new_manager (disk w')).
Proof.
  intros Hwf Hsplit Hsync Hrw Hi Hj Hzero Hadd lo hi road. subst road.
  apply add_road_Some in Hadd as (i' & j' & Hi' & Hj' & Hij & Hroad & ->).
  assert (i' = i) as -> by congruence. assert (j' = j) as -> by congruence.
  clear Hi' Hj'.
  set (m' := {| city_names := city_names (mgr w);
                roads := set_sym i j 1 (roads (mgr w));
                budgets := budgets (mgr w) |}).
  rewrite save_roads_writable by done. simpl.
  apply get_city_index_lt in Hi, Hj.
  assert (Hwf' : well_formed m').
  { split; try apply Hwf. simpl. apply set_sym_square, Hwf. }
  assert (Hlohi : (lo < hi)%nat) by (subst lo hi; lia).
  assert (Hhi : (hi < length (city_names (mgr w)))%nat) by (subst hi; lia).
  assert (Hpair : (lo = i ∧ hi = j) ∨ (lo = j ∧ hi = i)) by (subst lo hi; lia).
  assert (Hin : (lo, hi) ∈ present_edges m').
  { apply elem_of_present_edges. split; [done|]. simpl. rewrite at2_set_sym.
    rewrite decide_True by done.
    destruct (at2_square _ _ lo hi (wf_roads _ Hwf)) as [x ->]; [lia | done | done]. }
  assert (Hb : budget_at m' lo hi = 0%Q).
  { unfold budget_at. simpl. fold lo hi in Hzero. by rewrite Hzero. }
  split; [done|]. split; [done|]. split; [|split].
  - exists (road_lines (disk w) m'),
      (nbr (reconcile_edge (read_existing_roads (disk w)) m' (lo, hi))).
    split; [done|].
    pose proof (reconciled_line_written (disk w) m' (lo, hi) Hin) as Hline.
    unfold format_entry in Hline. unfold reconcile_edge in Hline at 2 3 4.
    cbn [fst snd] in Hline.
    destruct (reconcile_names (read_existing_roads (disk w))
                (name_at m' lo) (name_at m' hi) (budget_at m' lo hi))
      as (Hc1 & Hc2 & Hbud).
    rewrite Hc1, Hc2, Hbud, Hb, fixed1_zero in Hline. exact Hline.
  - unfold record_write.
    destruct (get_city_index _ _); [|done]. destruct (get_city_index _ _); done.
  - match goal with
    | |- context [new_manager ?d] =>
        destruct (restart_of_saved d (disk w) m' Hwf' Hsplit Hsync eq_refl)
          as (Hn & Hedges & _)
    end.
    split; [done|]. rewrite Hedges. rewrite list_elem_of_filter.
    intros [Hacc _]. unfold budget_accepted, read_back in Hacc.
    cbn [fst snd] in Hacc. by rewrite Hb in Hacc.
Qed.

Lemma kigali_huye_start_well_formed :
  well_formed (mgr (or_start (add_cities ["Kigali"; "Huye"]%string (start fresh_disk)))).
Proof.
  well_formed_by_computation.
Defined.

(** C9. In [crossing_names] the road from Kigali to "Nord - Huye" never
    got a budget and the road from "Kigali - Nord" to Huye has the budget 5.
    Both are saved with the road field "Kigali - Nord - Huye". The loader
    discards the record with the budget 0.0 and reads the other one, split
    at its first separator, as a record of the road without budget: after a
    restart that road is there, with the budget 5, and the budgeted road is
    gone. *)
Theorem unbudgeted_road_kept :
  edge_enumeration (mgr crossing_names) = [(0%nat, 1%nat, 0%Q); (2%nat, 3%nat, 5%Q)]
  ∧ roads_txt (disk crossing_names)
    = Some [roads_header;
            RoadLine (Some 1) "Kigali - Nord - Huye" (Some 0%Q);
            RoadLine (Some 3) "Kigali - Nord - Huye" (Some 5%Q)]
  ∧ cities_in_sync crossing_names
  ∧ edge_enumeration (new_manager (disk crossing_names)) = [(0%nat, 1%nat, 5%Q)].
Proof. repeat split; reflexivity. Qed.

(** ** Growing the matrices *)

Lemma push_city_grow (c : string) (m : Manager) :
  push_city c m
  = {| city_names := city_names m ++ [c];
       roads := grow (length (city_names m ++ [c])) 0 (roads m);
       budgets := grow (length (city_names m ++ [c])) 0%Q (budgets m) |}.
Proof. reflexivity. Qed.

Section growing.
Context {A : Type}.
Implicit Types (M : list (list A)) (z : A).

Lemma grow_square n z M : length M = n → square (S n) (grow (S n) z M).
Proof.
  intros Hlen. unfold grow. split.
  - rewrite length_app, length_fmap. simpl. lia.
  - apply Forall_app. split.
    + apply Forall_fmap, Forall_forall. intros row _. simpl. apply length_resize.
    + repeat constructor. apply length_replicate.
Qed.

(** The old cells keep their values, the new row and column hold [z]. *)
Lemma at2_grow n z M a b :
  square n M →
  at2 (grow (S n) z M) a b
  = if decide (a < n ∧ b < n)%nat then at2 M a b
    else if decide (a ≤ n ∧ b ≤ n)%nat then Some z else None.
Proof.
  intros [Hlen Hrows]. unfold at2, grow.
  destruct (decide (a < n)%nat) as [Ha|Ha].
  - rewrite lookup_app_l by (rewrite length_fmap; lia).
    rewrite list_lookup_fmap.
    destruct (lookup_lt_is_Some_2 M a ltac:(lia)) as [row Hrow].
    rewrite Hrow. simpl.
    pose proof (Forall_lookup_1 _ _ _ _ Hrows Hrow) as Hrl. simpl in Hrl.
    destruct (decide (b < n)%nat) as [Hb|Hb].
    + rewrite decide_True by done. apply lookup_resize; lia.
    + rewrite decide_False by tauto. destruct (decide (b = n)) as [->|Hbn].
      * rewrite decide_True by lia. apply lookup_resize_new; lia.
      * rewrite decide_False by lia. apply lookup_resize_old. lia.
  - rewrite decide_False by tauto.
    rewrite lookup_app_r by (rewrite length_fmap; lia).
    rewrite length_fmap, Hlen.
    destruct (decide (a = n)) as [->|Han].
    + replace (n - n)%nat with 0%nat by lia. simpl.
      destruct (decide (b ≤ n)%nat) as [Hb|Hb].
      * rewrite decide_True by lia. apply (lookup_replicate_2 (S n) z b). lia.
      * rewrite decide_False by tauto.
        apply (proj1 (lookup_replicate_None (S n) z b)). lia.
    + rewrite decide_False by lia.
      destruct (a - n)%nat as [|k] eqn:Hk; [lia|]. done.
Qed.

Lemma grow_symmetric n z M :
  square n M → symmetric M → symmetric (grow (S n) z M).
Proof.
  intros Hsq Hsym a b. rewrite !(at2_grow n z M) by done. rewrite (Hsym a b).
  destruct (decide (a < n ∧ b < n)%nat), (decide (b < n ∧ a < n)%nat);
    try done; try tauto.
  destruct (decide (a ≤ n ∧ b ≤ n)%nat), (decide (b ≤ n ∧ a ≤ n)%nat);
    try done; tauto.
Qed.

Lemma grow_zero_diagonal n z M :
  square n M → zero_diagonal z M → zero_diagonal z (grow (S n) z M).
Proof.
  intros Hsq Hz a v. rewrite (at2_grow n z M) by done.
  destruct (decide (a < n ∧ a < n)%nat); [apply Hz|].
  destruct (decide (a ≤ n ∧ a ≤ n)%nat); [|done]. by intros [= <-].
Qed.

End growing.

(** ** Well-formedness is kept *)

Lemma empty_manager_well_formed : well_formed empty_manager.
Proof. split; simpl; try constructor; done. Qed.

Lemma push_city_well_formed (c : string) (m : Manager) :
  well_formed m → is_valid_city_name c = true → c ∉ city_names m →
  well_formed (push_city c m).
Proof.
  intros [Hnd Hval Hr Hb] Hc Hfresh. rewrite push_city_grow. split; simpl.
  - apply NoDup_app. split; [done|]. split; [|apply NoDup_singleton].
    intros x Hx ->%list_elem_of_singleton. done.
  - apply Forall_app. split; [done | by repeat constructor].
  - rewrite length_app. simpl.
    replace (length (city_names m) + 1)%nat with (S (length (city_names m))) by lia.
    apply grow_square, Hr.
  - rewrite length_app. simpl.
    replace (length (city_names m) + 1)%nat with (S (length (city_names m))) by lia.
    apply grow_square, Hb.
Qed.

(** Lines 206-213: what one line of the city file does. *)
Lemma load_city_line_cases (m : Manager) (l : city_line) :
  (load_city_line m l = m
   ∧ ∀ name, l = CityLine name →
       is_valid_city_name name = false ∨ name ∈ city_names m)
  ∨ (∃ name, l = CityLine name ∧ is_valid_city_name name = true
       ∧ (name ∉ city_names m) ∧ load_city_line m l = push_city name m).
Proof.
  destruct l as [name|]; simpl; [|left; split; [done | by intros name [=]]].
  destruct (is_valid_city_name name) eqn:Hv; simpl.
  - destruct (city_exists (city_names m) name) eqn:Hex; simpl.
    + left. split; [done|]. intros ? [= <-]. right. by apply city_exists_true.
    + right. exists name. repeat split; try done. by apply city_exists_false.
  - left. split; [done|]. intros ? [= <-]. by left.
Qed.

Lemma load_city_line_well_formed (m : Manager) (l : city_line) :
  well_formed m → well_formed (load_city_line m l).
Proof.
  intros Hwf.
  destruct (load_city_line_cases m l) as [[-> _]|(name & _ & Hv & Hf & ->)];
    [done | by apply push_city_well_formed].
Qed.

Lemma foldl_well_formed {L} (f : Manager → L → Manager) (ls : list L) (m : Manager) :
  (∀ m l, well_formed m → well_formed (f m l)) →
  well_formed m → well_formed (foldl f m ls).
Proof.
  intros Hf. revert m. induction ls as [|l ls IH]; intros m Hwf; [done|].
  simpl. by apply IH, Hf.
Qed.

Lemma apply_write_well_formed (m : Manager) (wr : nat * nat * Q) :
  well_formed m → well_formed (apply_write m wr).
Proof.
  destruct wr as [[i j] v]. intros [Hnd Hval Hr Hb].
  split; simpl; try done; by apply set_sym_square.
Qed.

Lemma load_road_line_well_formed (m : Manager) (l : road_line) :
  well_formed m → well_formed (load_road_line m l).
Proof.
  intros Hwf. unfold load_road_line.
  destruct (parse_load_line l) as [[[c1 c2] b]|]; [|done].
  destruct (record_write (city_names m) c1 c2 b); [|done].
  by apply apply_write_well_formed.
Qed.

(** The constructor builds a well-formed manager from any two files. *)
Lemma new_manager_well_formed (d : Disk) : well_formed (new_manager d).
Proof.
  unfold new_manager, load_roads_from_file, load_cities_from_file.
  assert (well_formed (match cities_txt d with
                       | Some lines => foldl load_city_line empty_manager (tail lines)
                       | None => empty_manager
                       end)) as Hc.
  { destruct (cities_txt d); [|apply empty_manager_well_formed].
    apply foldl_well_formed;
      [apply load_city_line_well_formed | apply empty_manager_well_formed]. }
  destruct (roads_txt d); [|done].
  by apply foldl_well_formed; [apply load_road_line_well_formed|].
Qed.

Lemma NoDup_insert_fresh {A} (l : list A) (k : nat) (x : A) :
  NoDup l → x ∉ l → NoDup (<[k := x]> l).
Proof.
  intros Hnd. revert k. induction Hnd as [|y l Hy Hnd IH]; intros k Hx;
    [destruct k; constructor|].
  apply not_elem_of_cons in Hx as [Hxy Hx].
  destruct k as [|k]; simpl.
  - by constructor.
  - constructor; [|by apply IH].
    intros Hin. apply list_elem_of_lookup in Hin as [i Hi].
    destruct (decide (k = i)) as [->|Hki].
    + rewrite list_lookup_insert in Hi. case_decide; simplify_eq.
      apply Hy. apply list_elem_of_lookup. by exists i.
    + rewrite list_lookup_insert_ne in Hi by done.
      apply Hy. apply list_elem_of_lookup. by exists i.
Qed.

Lemma step_well_formed (w w' : World) :
  step w w' → well_formed (mgr w) → well_formed (mgr w').
Proof.
  intros [names w1 w2 H|c1 c2 w1 w2 H|c1 c2 b w1 w2 H|index new_name w1 w2 H] Hwf.
  - apply add_cities_Some in H as (m' & Hlist & ->).
    rewrite save_cities_mgr. simpl.
    revert Hlist Hwf. generalize (mgr w1). clear w1.
    induction names as [|c names IH]; intros m Hlist Hwf; simpl in Hlist.
    + by injection Hlist as <-.
    + destruct (add_city c m) as [m1|] eqn:Hc; [|done].
      apply add_city_Some in Hc as (Hv & Hf & ->).
      apply (IH _ Hlist). by apply push_city_well_formed.
  - apply add_road_Some in H as (i & j & _ & _ & _ & _ & ->).
    rewrite save_roads_mgr. simpl.
    destruct Hwf as [Hnd Hval Hr Hb]. split; simpl; try done.
    by apply set_sym_square.
  - apply add_budget_Some in H as (i & j & _ & _ & _ & _ & ->).
    rewrite save_roads_mgr. simpl.
    destruct Hwf as [Hnd Hval Hr Hb]. split; simpl; try done.
    by apply set_sym_square.
  - apply edit_city_Some in H as (Hk & Hnew & Hv & ->).
    rewrite save_roads_mgr, save_cities_mgr. simpl.
    destruct Hwf as [Hnd Hval Hr Hb]. split; simpl.
    + by apply NoDup_insert_fresh.
    + by apply Forall_insert.
    + by rewrite length_insert.
    + by rewrite length_insert.
Qed.

Lemma reaches_well_formed (w0 w : World) :
  reaches w0 w → well_formed (mgr w0) → well_formed (mgr w).
Proof.
  induction 1 as [|w w' _ IH Hstep]; intros Hwf; [done|].
  by eapply step_well_formed; [|apply IH].
Qed.

(** ** C10: what the city-file load builds, and the shape kept afterwards *)

Lemma load_city_lines_zero (ls : list city_line) (names : list string) :
  ∃ names', foldl load_city_line (zero_manager names) ls = zero_manager names'.
Proof.
  revert names. induction ls as [|l ls IH]; intros names; [by exists names|].
  simpl.
  destruct (load_city_line_cases (zero_manager names) l)
    as [[-> _]|(name & _ & _ & _ & ->)]; [apply IH|].
  rewrite push_city_zero. apply IH.
Qed.

Lemma load_city_lines_origin (ls : list city_line) (m : Manager) (x : string) :
  x ∈ city_names (foldl load_city_line m ls) →
  x ∈ city_names m ∨ CityLine x ∈ ls.
Proof.
  revert m. induction ls as [|l ls IH]; intros m; [by left|].
  simpl. intros [Hx|Hx]%IH; [|right; by right].
  destruct (load_city_line_cases m l) as [[Heq _]|(name & -> & _ & _ & Heq)];
    rewrite Heq in Hx; [by left|].
  rewrite push_city_grow in Hx. simpl in Hx.
  apply elem_of_app in Hx as [Hx|Hx]; [by left|].
  apply list_elem_of_singleton in Hx as ->. right. by left.
Qed.

(** C10. The manager that the city-file load builds holds distinct, valid
    names, each taken from a line of the file after the header, and two
    zero matrices with one row and one column per name. After the load of
    the road file and after every operation that follows, the city names
    are distinct and both matrices are square, their side the number of
    cities. *)
Theorem city_load_shape (d : Disk) (w : World) :
  reaches (start d) w →
  let loaded := load_cities_from_file d empty_manager in
  (loaded = zero_manager (city_names loaded)
   ∧ NoDup (city_names loaded)
   ∧ Forall (λ c, is_valid_city_name c = true) (city_names loaded)
   ∧ ∀ c, c ∈ city_names loaded →
       ∃ lines, cities_txt d = Some lines ∧ CityLine c ∈ tail lines)
  ∧ NoDup (city_names (mgr w))
  ∧ square (length (city_names (mgr w))) (roads (mgr w))
  ∧ square (length (city_names (mgr w))) (budgets (mgr w)).
Proof.
  intros Hreach loaded. split.
  - assert (Hwf : well_formed loaded).
    { subst loaded. unfold load_cities_from_file.
      destruct (cities_txt d); [|apply empty_manager_well_formed].
      apply foldl_well_formed;
        [apply load_city_line_well_formed | apply empty_manager_well_formed]. }
    split; [|split; [apply Hwf | split; [apply Hwf|]]].
    + subst loaded. unfold load_cities_from_file.
      destruct (cities_txt d) as [lines|]; [|done].
      destruct (load_city_lines_zero (tail lines) []) as [names' Hz].
      change empty_manager with (zero_manager []). by rewrite Hz.
    + subst loaded. unfold load_cities_from_file. intros c Hc.
      destruct (cities_txt d) as [lines|]; [|by apply elem_of_nil in Hc].
      exists lines. split; [done|].
      apply load_city_lines_origin in Hc as [Hc|Hc]; [by apply elem_of_nil in Hc | done].
  - pose proof (reaches_well_formed _ _ Hreach (new_manager_well_formed d)) as Hwf.
    split; [|split]; apply Hwf.
Qed.

Lemma rubavu_session :
  reaches (start reordered_disk)
          (or_start (add_road "Musanze" "Rubavu" (start reordered_disk))).
Proof.
  eapply reaches_step; [apply reaches_here|].
  by apply (step_add_road "Musanze" "Rubavu").
Defined.

Lemma city_load_shape_witness :
  NoDup (city_names (mgr (or_start (add_road "Musanze" "Rubavu" (start reordered_disk)))))
  ∧ square 4 (roads (mgr (or_start (add_road "Musanze" "Rubavu" (start reordered_disk)))))
  ∧ square 4 (budgets (mgr (or_start (add_road "Musanze" "Rubavu" (start reordered_disk))))).
Proof.
  exact (proj2 (city_load_shape reordered_disk _ rubavu_session)).
Defined.

(** ** C5: symmetry and the diagonal *)

Lemma foldl_preserves {S L} (P : S → Prop) (f : S → L → S) (ls : list L) (s : S) :
  (∀ s l, P s → P (f s l)) → P s → P (foldl f s ls).
Proof.
  intros Hf. revert s. induction ls as [|l ls IH]; intros s Hs; [done|].
  simpl. by apply IH, Hf.
Qed.

Lemma push_city_symmetric (c : string) (m : Manager) :
  well_formed m → matrices_symmetric m → matrices_symmetric (push_city c m).
Proof.
  intros Hwf [Hr Hb]. rewrite push_city_grow, length_app. simpl.
  replace (length (city_names m) + 1)%nat with (S (length (city_names m))) by lia.
  split; simpl; apply grow_symmetric; try done; apply Hwf.
Qed.

Lemma push_city_diagonals_zero (c : string) (m : Manager) :
  well_formed m → diagonals_zero m → diagonals_zero (push_city c m).
Proof.
  intros Hwf [Hr Hb]. rewrite push_city_grow, length_app. simpl.
  replace (length (city_names m) + 1)%nat with (S (length (city_names m))) by lia.
  split; simpl; apply grow_zero_diagonal; try done; apply Hwf.
Qed.

Lemma apply_write_symmetric (m : Manager) (wr : nat * nat * Q) :
  matrices_symmetric m → matrices_symmetric (apply_write m wr).
Proof.
  destruct wr as [[i j] v]. intros [Hr Hb].
  split; simpl; by apply set_sym_symmetric.
Qed.

(** Every load, of any two files, ends with symmetric matrices. *)
Lemma new_manager_symmetric (d : Disk) : matrices_symmetric (new_manager d).
Proof.
  unfold new_manager, load_roads_from_file, load_cities_from_file.
  assert (∀ ls, well_formed (foldl load_city_line empty_manager ls)
                ∧ matrices_symmetric (foldl load_city_line empty_manager ls)) as Hc.
  { intros ls. apply (foldl_preserves (λ m, well_formed m ∧ matrices_symmetric m)).
    - intros m l [Hwf Hsym]. split; [by apply load_city_line_well_formed|].
      destruct (load_city_line_cases m l) as [[-> _]|(name & _ & _ & _ & ->)];
        [done | by apply push_city_symmetric].
    - split; [apply empty_manager_well_formed | by split]. }
  assert (∀ m ls, matrices_symmetric m →
                  matrices_symmetric (foldl load_road_line m ls)) as Hr.
  { intros m ls. apply foldl_preserves. clear m. intros m l Hsym.
    unfold load_road_line.
    destruct (parse_load_line l) as [[[c1 c2] b]|]; [|done].
    destruct (record_write (city_names m) c1 c2 b); [|done].
    by apply apply_write_symmetric. }
  destruct (cities_txt d) as [cs|], (roads_txt d) as [rs|];
    try apply Hr; try apply Hc; by split.
Qed.

Lemma step_symmetric (w w' : World) :
  step w w' → well_formed (mgr w) → matrices_symmetric (mgr w) →
  matrices_symmetric (mgr w').
Proof.
  intros [names w1 w2 H|c1 c2 w1 w2 H|c1 c2 b w1 w2 H|index new_name w1 w2 H] Hwf Hsym.
  - apply add_cities_Some in H as (m' & Hlist & ->).
    rewrite save_cities_mgr. simpl.
    revert Hlist Hwf Hsym. generalize (mgr w1). clear w1.
    induction names as [|c names IH]; intros m Hlist Hwf Hsym; simpl in Hlist.
    + by injection Hlist as <-.
    + destruct (add_city c m) as [m1|] eqn:Hc; [|done].
      apply add_city_Some in Hc as (Hv & Hf & ->).
      apply (IH _ Hlist); [by apply push_city_well_formed|].
      by apply push_city_symmetric.
  - apply add_road_Some in H as (i & j & _ & _ & _ & _ & ->).
    rewrite save_roads_mgr. simpl. destruct Hsym as [Hr Hb].
    split; simpl; [by apply set_sym_symmetric | done].
  - apply add_budget_Some in H as (i & j & _ & _ & _ & _ & ->).
    rewrite save_roads_mgr. simpl. destruct Hsym as [Hr Hb].
    split; simpl; [done | by apply set_sym_symmetric].
  - apply edit_city_Some in H as (_ & _ & _ & ->).
    by rewrite save_roads_mgr, save_cities_mgr.
Qed.

(** Symmetry holds in every world of a run. *)
Lemma reachable_symmetric (w : World) : reachable w → matrices_symmetric (mgr w).
Proof.
  intros [d Hreach].
  assert (well_formed (mgr w) ∧ matrices_symmetric (mgr w)) as [_ H]; [|done].
  induction Hreach as [|w w' _ [IHwf IHsym] Hstep].
  - split; [apply new_manager_well_formed | apply new_manager_symmetric].
  - split; [by eapply step_well_formed | by eapply step_symmetric].
Qed.

(** The menu operations keep the diagonals at zero: [add_road] refuses a
    road from a city to itself, and [add_budget] then finds no road there. *)
Lemma step_diagonals_zero (w w' : World) :
  step w w' → well_formed (mgr w) → diagonals_zero (mgr w) →
  diagonals_zero (mgr w').
Proof.
  intros [names w1 w2 H|c1 c2 w1 w2 H|c1 c2 b w1 w2 H|index new_name w1 w2 H] Hwf Hz.
  - apply add_cities_Some in H as (m' & Hlist & ->).
    rewrite save_cities_mgr. simpl.
    revert Hlist Hwf Hz. generalize (mgr w1). clear w1.
    induction names as [|c names IH]; intros m Hlist Hwf Hz; simpl in Hlist.
    + by injection Hlist as <-.
    + destruct (add_city c m) as [m1|] eqn:Hc; [|done].
      apply add_city_Some in Hc as (Hv & Hf & ->).
      apply (IH _ Hlist); [by apply push_city_well_formed|].
      by apply push_city_diagonals_zero.
  - apply add_road_Some in H as (i & j & _ & _ & Hij & _ & ->).
    rewrite save_roads_mgr. simpl. destruct Hz as [Hr Hb].
    split; simpl; [by apply set_sym_zero_diagonal | done].
  - apply add_budget_Some in H as (i & j & Hi & Hj & Hroad & _ & ->).
    rewrite save_roads_mgr. simpl. destruct Hz as [Hr Hb].
    split; simpl; [done|]. apply set_sym_zero_diagonal; [|done].
    intros ->. apply get_city_index_lt in Hi.
    destruct (at2_square _ _ j j (wf_roads _ Hwf) Hi Hi) as [v Hv].
    rewrite Hv in Hroad. by rewrite (Hr j v Hv) in Hroad.
  - apply edit_city_Some in H as (_ & _ & _ & ->).
    by rewrite save_roads_mgr, save_cities_mgr.
Qed.

(** C5. A road file with a record from Kigali to Kigali is loaded by the
    constructor without any check that the two positions differ: the
    diagonal cell of the adjacency matrix becomes 1 and that of the budget
    matrix 5. [add_road] refuses the same pair. The matrices stay
    symmetric. *)
Theorem self_loop_record_on_diagonal :
  city_names (new_manager self_loop_disk) = ["Kigali"]%string
  ∧ at2 (roads (new_manager self_loop_disk)) 0 0 = Some 1
  ∧ at2 (budgets (new_manager self_loop_disk)) 0 0 = Some (5 # 1)
  ∧ ¬ diagonals_zero (new_manager self_loop_disk)
  ∧ matrices_symmetric (new_manager self_loop_disk)
  ∧ add_road "Kigali" "Kigali" (start self_loop_disk) = None.
Proof.
  repeat split; try reflexivity.
  - intros [Hr _]. by specialize (Hr 0%nat 1 eq_refl).
  - apply new_manager_symmetric.
  - apply new_manager_symmetric.
Qed.

(** ** C6: saving twice *)

Section saving_twice.
Variables (existing : list RoadEntry) (m : Manager).
Hypothesis Hwf : well_formed m.
Hypothesis Hsplit : names_split m.

Let saved := sort_by_nbr (updated_roads existing m).

(** The second save reads the records of the first one back. *)
Lemma reread_saved :
  omap parse_entry (format_entry <$> saved) = reread <$> saved.
Proof.
  assert (Forall (λ e, Text.has_space_hyphen (city1 e) = false) saved) as H.
  { apply Forall_forall. intros x Hx. unfold saved in Hx.
    rewrite elem_of_sort_by_nbr in Hx.
    apply list_elem_of_fmap in Hx as (e & -> & He).
    by apply reconciled_names_split. }
  induction H as [|e es He _ IH]; [done|].
  rewrite !fmap_cons. cbn [omap list_omap].
  rewrite (parse_entry_format _ He). cbn [omap list_omap] in IH. by rewrite IH.
Qed.

(** Among the records of the first save only the one of the edge itself
    is for the edge's pair of names. *)
Lemma same_pair_saved (e : nat * nat) (x : RoadEntry) :
  e ∈ present_edges m → x ∈ reread <$> saved →
  same_pair (name_at m e.1) (name_at m e.2) x →
  nbr x = nbr (reconcile_edge existing m e).
Proof.
  destruct e as [i j]. intros He Hx Hpair. cbn [fst snd] in Hpair.
  apply list_elem_of_fmap in Hx as (y & -> & Hy). unfold saved in Hy.
  rewrite elem_of_sort_by_nbr in Hy.
  apply list_elem_of_fmap in Hy as ([i' j'] & -> & He').
  destruct (present_edges_in_range m i j Hwf He) as (Hij & Hj & _).
  destruct (present_edges_in_range m i' j' Hwf He') as (Hij' & Hj' & _).
  unfold same_pair, reread, reconcile_edge in Hpair. cbn [city1 city2 fst snd] in Hpair.
  destruct (reconcile_names existing (name_at m i') (name_at m j') (budget_at m i' j'))
    as (Hc1 & Hc2 & _).
  rewrite Hc1, Hc2 in Hpair.
  destruct Hpair as [[H1 H2]|[H1 H2]];
    apply (name_at_inj m Hwf) in H1; try lia;
    apply (name_at_inj m Hwf) in H2; try lia.
  by subst.
Qed.

Lemma reconcile_again (e : nat * nat) :
  e ∈ present_edges m →
  reconcile_edge (reread <$> saved) m e = reconcile_edge existing m e.
Proof.
  intros He. unfold reconcile_edge at 1. unfold reconcile.
  destruct (List.find _ (reread <$> saved)) as [x|] eqn:Hfind.
  - apply find_match_Some in Hfind as [Hx Hpair].
    rewrite (same_pair_saved e x He Hx Hpair).
    unfold reconcile_edge.
    destruct (reconcile_names existing (name_at m e.1) (name_at m e.2)
                (budget_at m e.1 e.2)) as (Hc1 & Hc2 & Hb).
    destruct (reconcile existing _ _ _) as [n c1 c2 b]. simpl in *. by subst.
  - exfalso. rewrite find_match_None in Hfind.
    apply (Hfind (reread (reconcile_edge existing m e))).
    + apply list_elem_of_fmap_2. unfold saved. rewrite elem_of_sort_by_nbr.
      by apply list_elem_of_fmap_2.
    + unfold same_pair, reread, reconcile_edge. cbn [city1 city2].
      destruct (reconcile_names existing (name_at m e.1) (name_at m e.2)
                  (budget_at m e.1 e.2)) as (-> & -> & _).
      by left.
Qed.

Lemma updated_roads_again :
  updated_roads (reread <$> saved) m = updated_roads existing m.
Proof.
  unfold updated_roads. apply Forall_fmap_ext, Forall_forall.
  intros e He. by apply reconcile_again.
Qed.

End saving_twice.

(** On a well-formed manager none of whose city names contains [" -"], a
    second save right after a save writes the same file. *)
Lemma save_roads_twice (w : World) :
  well_formed (mgr w) → names_split (mgr w) → roads_writable (disk w) = true →
  save_roads_to_file (save_roads_to_file w) = save_roads_to_file w.
Proof.
  intros Hwf Hsplit Hrw. rewrite (save_roads_writable w Hrw).
  rewrite save_roads_writable by done.
  unfold write_roads. simpl. do 3 f_equal.
  unfold road_lines, read_existing_roads at 1. simpl.
  rewrite (reread_saved _ _ Hwf Hsplit).
  by rewrite (updated_roads_again _ _ Hwf).
Qed.

(** C6. "Kigali - Nord" passes the name check. The road from it to Huye
    is saved as record 1 with the road field ["Kigali - Nord - Huye"]. The
    next save splits that field at its first separator, into "Kigali" and
    "Nord - Huye", finds no record for the road and writes it as record 2,
    although nothing changed in between. *)
Theorem separator_in_name_moves_nbr :
  is_valid_city_name "Kigali - Nord" = true
  ∧ roads_txt (disk kigali_nord)
    = Some [roads_header; RoadLine (Some 1) "Kigali - Nord - Huye" (Some 0%Q)]
  ∧ read_existing_roads (disk kigali_nord)
    = [ {| nbr := 1; city1 := "Kigali"; city2 := "Nord - Huye"; budget := 0 |} ]
  ∧ mgr (save_roads_to_file kigali_nord) = mgr kigali_nord
  ∧ roads_txt (disk (save_roads_to_file kigali_nord))
    = Some [roads_header; RoadLine (Some 2) "Kigali - Nord - Huye" (Some 0%Q)].
Proof. repeat split; reflexivity. Qed.

(** ** Files written by a save are in ascending order *)

Lemma parse_entry_format_nbr (e x : RoadEntry) :
  parse_entry (format_entry e) = Some x → nbr x = nbr e.
Proof.
  unfold parse_entry, format_entry.
  destruct (Text.split_road _) as [[c1 c2]|]; [|done]. by intros [= <-].
Qed.

Lemma reread_ascending (l : list RoadEntry) :
  StronglySorted nbr_le l →
  StronglySorted nbr_le (omap parse_entry (format_entry <$> l)).
Proof.
  induction 1 as [|e l Hs IH He]; [constructor|].
  rewrite fmap_cons. cbn [omap list_omap].
  destruct (parse_entry (format_entry e)) as [x|] eqn:Hx; [|done].
  constructor; [done|]. apply Forall_forall. intros y Hy.
  apply list_elem_of_omap in Hy as (ly & Hly & Hy).
  apply list_elem_of_fmap in Hly as (e' & -> & He').
  rewrite Forall_forall in He. specialize (He e' He').
  unfold nbr_le in *.
  by rewrite (parse_entry_format_nbr _ _ Hx), (parse_entry_format_nbr _ _ Hy).
Qed.

(** Whatever the prior file was, the records a later save reads from a
    file written by [save_roads_to_file] are in ascending order. *)
Lemma saved_file_ascending (w : World) :
  roads_writable (disk w) = true →
  StronglySorted nbr_le (read_existing_roads (disk (save_roads_to_file w))).
Proof.
  intros Hrw. rewrite (save_roads_writable w Hrw).
  unfold read_existing_roads, road_lines. simpl.
  apply reread_ascending, sort_by_nbr_sorted.
Qed.

(** ** C7: which records the loader discards *)

Lemma load_lines_foldl (d : Disk) (lines : list road_line) (m : Manager) :
  roads_txt d = Some lines →
  load_roads_from_file d m = foldl load_road_line m (tail lines).
Proof. intros H. unfold load_roads_from_file. by rewrite H. Qed.

Lemma load_road_line_shape (n : nat) (m : Manager) (l : road_line) :
  square n (roads m) ∧ square n (budgets m) →
  square n (roads (load_road_line m l)) ∧ square n (budgets (load_road_line m l)).
Proof.
  intros [Hr Hb]. unfold load_road_line.
  destruct (parse_load_line l) as [[[c1 c2] b]|]; [|done].
  destruct (record_write (city_names m) c1 c2 b) as [[[i j] v]|]; [|done].
  split; simpl; by apply set_sym_square.
Qed.

Lemma load_road_line_names (m : Manager) (l : road_line) :
  city_names (load_road_line m l) = city_names m.
Proof.
  unfold load_road_line.
  destruct (parse_load_line l) as [[[c1 c2] b]|]; [|done].
  destruct (record_write (city_names m) c1 c2 b) as [wr|]; [|done].
  apply apply_write_names.
Qed.

Lemma load_road_lines_names (ls : list road_line) (m : Manager) :
  city_names (foldl load_road_line m ls) = city_names m.
Proof.
  revert m. induction ls as [|l ls IH]; intros m; [done|].
  simpl. by rewrite IH, load_road_line_names.
Qed.

(** A cell of the adjacency matrix that holds 1 is never taken back. *)
Lemma load_road_line_keeps_road (m : Manager) (l : road_line) (x y : nat) :
  at2 (roads m) x y = Some 1 → at2 (roads (load_road_line m l)) x y = Some 1.
Proof.
  intros Hxy. unfold load_road_line.
  destruct (parse_load_line l) as [[[c1 c2] b]|]; [|done].
  destruct (record_write (city_names m) c1 c2 b) as [wr|]; [|done].
  rewrite at2_apply_write_roads, Hxy. by case_decide.
Qed.

(** C7. Take a road file and one of its lines after the first that gets
    through the three parsing steps of the loader. The load of the whole
    file is the load of the lines that follow, from the manager the loader
    has built once it is done with this line. When one of the two names is
    not a known city or the budget is not in [0 < b <= 1000], the line
    changes nothing and the load gives what it gives for the file without
    this line. When both names are cities and the budget is in the range,
    the line sets the two symmetric cells of the adjacency matrix to 1 and
    of the budget matrix to its budget and leaves every other cell and the
    city list alone; the two adjacency cells still hold 1 when the load is
    over. One of the two cases always applies. *)
Theorem load_discards_iff (d : Disk) (m : Manager) (hdr l : road_line)
    (pre rest : list road_line) (c1 c2 : string) (b : Q) :
  square (length (city_names m)) (roads m) →
  square (length (city_names m)) (budgets m) →
  roads_txt d = Some (hdr :: pre ++ l :: rest) →
  parse_load_line l = Some (c1, c2, b) →
  let names := city_names m in
  let load_lines ls := load_roads_from_file (with_road_lines (hdr :: ls) d) m in
  let before := load_lines pre in
  let after := load_lines (pre ++ [l]) in
  let unresolved :=
    get_city_index names c1 = None ∨ get_city_index names c2 = None in
  let valid := (0 < b ∧ b <= 1000)%Q in
  load_roads_from_file d m
  = load_roads_from_file (with_road_lines (hdr :: rest) d) after
  ∧ (unresolved ∨ ¬ valid →
       after = before ∧ load_roads_from_file d m = load_lines (pre ++ rest))
  ∧ (∀ i j, get_city_index names c1 = Some i → get_city_index names c2 = Some j →
       valid →
       at2 (roads after) i j = Some 1 ∧ at2 (roads after) j i = Some 1
       ∧ at2 (budgets after) i j = Some b ∧ at2 (budgets after) j i = Some b
       ∧ (∀ x y, ¬ ((x = i ∧ y = j) ∨ (x = j ∧ y = i)) →
            at2 (roads after) x y = at2 (roads before) x y
            ∧ at2 (budgets after) x y = at2 (budgets before) x y)
       ∧ city_names after = names
       ∧ at2 (roads (load_roads_from_file d m)) i j = Some 1
       ∧ at2 (roads (load_roads_from_file d m)) j i = Some 1)
  ∧ ((unresolved ∨ ¬ valid)
     ∨ ∃ i j, get_city_index names c1 = Some i ∧ get_city_index names c2 = Some j
              ∧ valid).
Proof.
  intros Hr Hb Hd Hparse names load_lines before after unresolved valid.
  assert (Hload : ∀ ls, load_lines ls = foldl load_road_line m ls).
  { intros ls. unfold load_lines. by rewrite (load_lines_foldl _ (hdr :: ls)). }
  assert (Hafter : after = load_road_line before l).
  { unfold after, before. by rewrite !Hload, foldl_snoc. }
  assert (Hnames : city_names before = names).
  { unfold before. rewrite Hload. apply load_road_lines_names. }
  assert (Hsq : square (length names) (roads before)
                ∧ square (length names) (budgets before)).
  { unfold before. rewrite Hload.
    apply (foldl_preserves
             (λ m0, square (length names) (roads m0)
                    ∧ square (length names) (budgets m0)));
      [intros; by apply load_road_line_shape | done]. }
  assert (Hfinal : load_roads_from_file d m = foldl load_road_line after rest).
  { rewrite (load_lines_foldl _ _ _ Hd). cbn [tail].
    replace (pre ++ l :: rest) with ((pre ++ [l]) ++ rest)
      by (by rewrite <- app_assoc).
    by rewrite foldl_app. }
  assert (Hstep : after = match record_write names c1 c2 b with
                          | None => before
                          | Some wr => apply_write before wr
                          end).
  { rewrite Hafter. unfold load_road_line. by rewrite Hparse, Hnames. }
  split; [|split; [|split]].
  - rewrite Hfinal. symmetry. by apply (load_lines_foldl _ (hdr :: rest)).
  - intros Hdisc.
    assert (Hnone : record_write names c1 c2 b = None).
    { unfold record_write.
      destruct (get_city_index names c1) as [i|] eqn:Hi;
        [|done].
      destruct (get_city_index names c2) as [j|] eqn:Hj; [|done].
      destruct (is_valid_budget b) eqn:Hv; [|done].
      apply is_valid_budget_spec in Hv.
      destruct Hdisc as [[H|H]|H]; done. }
    rewrite Hnone in Hstep. split; [done|].
    rewrite Hfinal, Hstep.
    change (load_lines (pre ++ rest)) with (foldl load_road_line m (pre ++ rest)).
    by rewrite foldl_app.
  - intros i j Hi Hj Hvalid.
    assert (Hsome : record_write names c1 c2 b = Some (i, j, b)).
    { unfold record_write. rewrite Hi, Hj.
      by rewrite (proj2 (is_valid_budget_spec b) Hvalid). }
    rewrite Hsome in Hstep. destruct Hsq as [Hsr Hsb].
    apply get_city_index_lt in Hi, Hj. fold names in Hi, Hj.
    destruct (at2_square _ _ i j Hsr Hi Hj) as [r1 Hr1].
    destruct (at2_square _ _ j i Hsr Hj Hi) as [r2 Hr2].
    destruct (at2_square _ _ i j Hsb Hi Hj) as [b1 Hb1].
    destruct (at2_square _ _ j i Hsb Hj Hi) as [b2 Hb2].
    assert (Hij : at2 (roads after) i j = Some 1).
    { rewrite Hstep. simpl. rewrite at2_set_sym, decide_True by tauto.
      by rewrite Hr1. }
    assert (Hji : at2 (roads after) j i = Some 1).
    { rewrite Hstep. simpl. rewrite at2_set_sym, decide_True by tauto.
      by rewrite Hr2. }
    split; [done|]. split; [done|].
    split. { rewrite Hstep. simpl. rewrite at2_set_sym, decide_True by tauto.
             by rewrite Hb1. }
    split. { rewrite Hstep. simpl. rewrite at2_set_sym, decide_True by tauto.
             by rewrite Hb2. }
    split. { intros x y Hxy. rewrite Hstep. simpl. rewrite !at2_set_sym.
             by rewrite !decide_False. }
    split. { by rewrite Hstep, apply_write_names. }
    rewrite Hfinal.
    split; apply (foldl_preserves (λ m0, at2 (roads m0) _ _ = Some 1));
      try done; intros; by apply load_road_line_keeps_road.
  - unfold unresolved, valid.
    destruct (get_city_index names c1) as [i|]; [|left; left; by left].
    destruct (get_city_index names c2) as [j|]; [|left; left; by right].
    destruct (is_valid_budget b) eqn:Hv.
    + right. exists i, j. by apply is_valid_budget_spec in Hv.
    + left. right. intros Hvalid%is_valid_budget_spec. congruence.
Qed.

Lemma load_discards_iff_witness :
  let m := load_cities_from_file reordered_disk empty_manager in
  let loaded := load_roads_from_file reordered_disk m in
  at2 (roads loaded) 1 2 = Some 1 ∧ at2 (roads loaded) 2 1 = Some 1
  ∧ at2 (budgets loaded) 1 2 = Some (20 # 1) ∧ at2 (budgets loaded) 2 1 = Some (20 # 1).
Proof.
  assert (Hsq1 : square (length (city_names (load_cities_from_file reordered_disk
                                               empty_manager)))
                   (roads (load_cities_from_file reordered_disk empty_manager)))
    by (split; [reflexivity | repeat constructor]).
  assert (Hsq2 : square (length (city_names (load_cities_from_file reordered_disk
                                               empty_manager)))
                   (budgets (load_cities_from_file reordered_disk empty_manager)))
    by (split; [reflexivity | repeat constructor]).
  pose proof (load_discards_iff reordered_disk
                (load_cities_from_file reordered_disk empty_manager)
                roads_header (RoadLine (Some 2) "Huye - Musanze" (Some (20 # 1)))
                [RoadLine (Some 5) "Kigali - Huye" (Some (10 # 1))] []
                "Huye" "Musanze" (20 # 1) Hsq1 Hsq2 eq_refl eq_refl)
    as (_ & _ & H & _).
  destruct (H 1%nat 2%nat eq_refl eq_refl) as (H1 & H2 & H3 & H4 & _).
  { by apply is_valid_budget_spec. }
  simpl. auto.
Defined.

(** ** The scenarios of the specification *)

(** Two cities, one road: record 1 with budget 0.0; the budget 12.5 is
    saved under the same identifier; a third city and a second road give
    the records 1 and 2, in that order. *)
Example scenario_two_roads :
  roads_txt (disk kigali_huye)
  = Some [roads_header; RoadLine (Some 1) "Kigali - Huye" (Some 0%Q)]
  ∧ roads_txt (disk kigali_huye_budget)
    = Some [roads_header; RoadLine (Some 1) "Kigali - Huye" (Some (25 # 2))]
  ∧ (w ← add_cities ["Musanze"]%string kigali_huye_budget;
     w ← add_road "Huye" "Musanze" w;
     roads_txt (disk w))
    = Some [roads_header;
            RoadLine (Some 1) "Kigali - Huye" (Some (25 # 2));
            RoadLine (Some 2) "Huye - Musanze" (Some 0%Q)].
Proof. repeat split; reflexivity. Qed.

(** A record that names an unknown city is skipped by the loader and is not
    written back; its identifier still counts for the next one. *)
Example scenario_unknown_city :
  edge_enumeration (new_manager (disk stale_record_world)) = []
  ∧ roads_txt (disk (save_roads_to_file stale_record_world))
    = Some [roads_header; RoadLine (Some 2) "Kigali - Huye" (Some 0%Q)].
Proof. split; reflexivity. Qed.

(** * Further properties *)

(** ** The registry scan *)

(** X1. [get_city_index] answers with the first position that holds the
    name, and with "not found" exactly when no position holds it. *)
Theorem get_city_index_first (names : list string) (name : string) :
  (∀ i, get_city_index names name = Some i
        ↔ names !! i = Some name ∧ ∀ j, (j < i)%nat → names !! j ≠ Some name)
  ∧ (get_city_index names name = None ↔ name ∉ names).
Proof.
  split; [|apply get_city_index_None].
  induction names as [|c names IH]; intros i; simpl.
  - split; [done | by intros [? _]].
  - destruct (String.eqb_spec c name) as [->|Hne].
    + split.
      * intros [= <-]. split; [done | intros j ?; lia].
      * intros [Hi Hfirst]. destruct i as [|i]; [done|].
        exfalso. by apply (Hfirst 0%nat); [lia|].
    + destruct (get_city_index names name) as [k|] eqn:Hk; simpl.
      * destruct (proj1 (IH k) eq_refl) as [Hk1 Hk2]. split.
        -- intros [= <-]. split; [done|].
           intros [|j] Hj; simpl; [by intros [= ?] | apply Hk2; lia].
        -- intros [Hi Hfirst]. destruct i as [|i]; [by injection Hi|].
           f_equal. f_equal. apply (inj Some), (IH i). split; [done|].
           intros j Hj. apply (Hfirst (S j)). lia.
      * split; [done|]. intros [Hi Hfirst].
        destruct i as [|i]; [by injection Hi|].
        assert (None = Some i) as Habs; [|done].
        apply (IH i). split; [done|]. intros j Hj. apply (Hfirst (S j)). lia.
Qed.

(** ** City names *)

Lemma reject_char (c : ascii) :
  negb (Text.isalnum c) && negb (Ascii.eqb c " ") && negb (Ascii.eqb c "-")
  = negb (allowed_char c).
Proof.
  unfold allowed_char.
  by destruct (Text.isalnum c), (Ascii.eqb c " "), (Ascii.eqb c "-").
Qed.

Lemma valid_chars_spec (s : string) (has_letter : bool) :
  valid_chars s has_letter = true
  ↔ Forall (λ c, allowed_char c = true) (list_ascii_of_string s)
    ∧ (has_letter = true
       ∨ Exists (λ c, Text.isalpha c = true) (list_ascii_of_string s)).
Proof.
  revert has_letter. induction s as [|c s IH]; intros h; simpl.
  - split; [by intros ->; split; [constructor | left]|].
    intros [_ [?|?%Exists_nil]]; done.
  - rewrite reject_char. destruct (allowed_char c) eqn:Hc; simpl.
    + rewrite IH, Forall_cons, Exists_cons.
      destruct (Text.isalpha c), h; intuition congruence.
    + split; [done|]. rewrite Forall_cons. intros [[? _] _]. congruence.
Qed.

(** X2. A city name is valid exactly when it has at least two characters,
    all of them letters, digits, spaces or hyphens, and at least one of them
    a letter. *)
Theorem is_valid_city_name_spec (s : string) :
  is_valid_city_name s = true
  ↔ (2 ≤ String.length s)%nat
    ∧ Forall (λ c, allowed_char c = true) (list_ascii_of_string s)
    ∧ Exists (λ c, Text.isalpha c = true) (list_ascii_of_string s).
Proof.
  unfold is_valid_city_name.
  destruct (Nat.ltb_spec (String.length s) 2) as [Hlt|Hge].
  - split; [done | intros [? _]; lia].
  - rewrite valid_chars_spec. split.
    + intros [Hall [?|Hex]]; done.
    + intros (_ & Hall & Hex). split; [done | by right].
Qed.

(** X3. A valid city name holds no tab, no line feed and no carriage
    return: written to a data file it stays one field of one line. *)
Theorem valid_name_one_field (s : string) :
  is_valid_city_name s = true →
  ("009"%char ∉ list_ascii_of_string s)
  ∧ ("010"%char ∉ list_ascii_of_string s)
  ∧ ("013"%char ∉ list_ascii_of_string s)
  ∧ s ≠ EmptyString.
Proof.
  unfold is_valid_city_name.
  destruct (Nat.ltb_spec (String.length s) 2) as [Hlt|Hge]; [done|].
  intros [Hall _]%valid_chars_spec. rewrite Forall_forall in Hall.
  repeat split; try (intros Hin; by specialize (Hall _ Hin)).
  intros ->. simpl in Hge. lia.
Qed.

Lemma valid_name_one_field_witness :
  ("009"%char ∉ list_ascii_of_string "Kigali - Nord")
  ∧ ("010"%char ∉ list_ascii_of_string "Kigali - Nord")
  ∧ ("013"%char ∉ list_ascii_of_string "Kigali - Nord")
  ∧ "Kigali - Nord"%string ≠ EmptyString.
Proof. apply (valid_name_one_field "Kigali - Nord"). reflexivity. Defined.

(** ** The road field *)

Lemma append_empty_r (s : string) : String.append s EmptyString = s.
Proof.
  induction s as [|a s IH]; [done|]. by rewrite TextFacts.append_cons, IH.
Qed.

Lemma substring_split (n : nat) (s : string) :
  s = String.append (String.substring 0 n s) (Text.substr_from n s).
Proof.
  unfold Text.substr_from. revert n. induction s as [|a s IH]; intros n.
  - by destruct n.
  - destruct n as [|n].
    + change (String.substring 0 0 (String a s)) with EmptyString.
      rewrite TextFacts.append_nil. rewrite Nat.sub_0_r.
      by rewrite TextFacts.substring_whole.
    + simpl. rewrite TextFacts.append_cons. f_equal. apply IH.
Qed.

Lemma substr_from_dash (m : nat) (s : string) :
  String.substring m 3 s = Text.dash →
  Text.substr_from m s = String.append Text.dash (Text.substr_from (m + 3) s).
Proof.
  unfold Text.substr_from, Text.dash. revert m.
  induction s as [|a s IH]; intros m.
  - by destruct m.
  - destruct m as [|m].
    + destruct s as [|b [|c s]]; try done. simpl. intros [= -> -> ->].
      rewrite !TextFacts.append_cons, TextFacts.append_nil.
      by rewrite Nat.sub_0_r.
    + simpl. apply IH.
Qed.

(** X4. When a road field splits at its first separator, the two parts
    joined by the separator are the field again: nothing of the field is
    lost by the split of lines 136-139 and 238-241. *)
Theorem split_road_join (road c1 c2 : string) :
  Text.split_road road = Some (c1, c2) → Text.join_road c1 c2 = road.
Proof.
  unfold Text.split_road, Text.find_dash, Text.join_road.
  destruct (String.index 0 Text.dash road) as [m|] eqn:Hm; [|done].
  intros [= <- <-]. apply String.index_correct1 in Hm.
  unfold Text.substr_to.
  by rewrite <- (substr_from_dash m road Hm), <- substring_split.
Qed.

Lemma split_road_join_witness :
  Text.join_road "Kigali" "Nord - Huye" = "Kigali - Nord - Huye"%string.
Proof. apply (split_road_join "Kigali - Nord - Huye"). reflexivity. Defined.

(** ** The order of the enumeration *)

Lemma StronglySorted_bind {A B} (S : relation A) (R : relation B)
      (f : A → list B) (l : list A) :
  StronglySorted S l →
  (∀ x, x ∈ l → StronglySorted R (f x)) →
  (∀ x y a b, S x y → a ∈ f x → b ∈ f y → R a b) →
  StronglySorted R (l ≫= f).
Proof.
  intros Hl Hf HR. induction Hl as [|x l Hl IH Hx]; csimpl; [constructor|].
  apply sorting.StronglySorted_app_2.
  - intros a b Ha (y & Hb & Hy)%list_elem_of_bind.
    rewrite Forall_forall in Hx. by eapply HR; [apply Hx| |].
  - apply Hf. by left.
  - apply IH. intros y Hy. apply Hf. by right.
Qed.

Lemma seq_strongly_sorted (a n : nat) : StronglySorted lt (seq a n).
Proof.
  revert a. induction n as [|n IH]; intros a; simpl; constructor; [apply IH|].
  apply Forall_forall. intros x Hx%elem_of_seq. lia.
Qed.

Lemma StronglySorted_NoDup {A} (R : relation A) (l : list A) :
  (∀ x, ¬ R x x) → StronglySorted R l → NoDup l.
Proof.
  intros Hirr. induction 1 as [|x l Hl IH Hx]; constructor; [|done].
  intros Hin. rewrite Forall_forall in Hx. by apply (Hirr x), Hx.
Qed.

Lemma elem_of_if_singleton {A} (P : Prop) `{Decision P} (x a : A) :
  a ∈ (if decide P then [x] else []) → a = x.
Proof.
  destruct (decide P); [by intros ->%list_elem_of_singleton|].
  by intros ?%elem_of_nil.
Qed.

Lemma present_edges_strongly_sorted (m : Manager) :
  StronglySorted lex_lt (present_edges m).
Proof.
  unfold present_edges.
  apply (StronglySorted_bind lt); [apply seq_strongly_sorted | |].
  - intros i _. apply (StronglySorted_bind lt); [apply seq_strongly_sorted | |].
    + intros j _. case_decide; repeat constructor.
    + intros j j' a b Hjj ->%elem_of_if_singleton ->%elem_of_if_singleton.
      by right.
  - intros i i' a b Hii (j & Ha & _)%list_elem_of_bind (j' & Hb & _)%list_elem_of_bind.
    apply elem_of_if_singleton in Ha as ->, Hb as ->. by left.
Qed.

Lemma lex_lt_irrefl (e : nat * nat) : ¬ lex_lt e e.
Proof. unfold lex_lt. lia. Qed.

Lemma present_edges_NoDup (m : Manager) : NoDup (present_edges m).
Proof.
  eapply StronglySorted_NoDup;
    [apply lex_lt_irrefl | apply present_edges_strongly_sorted].
Qed.

(** Two managers with the same present edges enumerate them in the same
    order. *)
Lemma present_edges_eq (m m' : Manager) :
  (∀ e, e ∈ present_edges m ↔ e ∈ present_edges m') →
  present_edges m = present_edges m'.
Proof.
  intros Hiff. apply (sorting.StronglySorted_unique_strong lex_lt).
  - intros x y _ _. unfold lex_lt. lia.
  - apply present_edges_strongly_sorted.
  - apply present_edges_strongly_sorted.
  - by apply NoDup_Permutation; [apply present_edges_NoDup..|].
Qed.

(** X5. The save enumerates every edge once, as the pair of its positions
    with the smaller one first, and in ascending lexicographic order of
    these pairs: the order of the two nested loops of lines 149-150. *)
Theorem present_edges_canonical (m : Manager) :
  StronglySorted lex_lt (present_edges m)
  ∧ NoDup (present_edges m)
  ∧ ∀ i j, (i, j) ∈ present_edges m ↔ (i < j)%nat ∧ at2 (roads m) i j = Some 1.
Proof.
  split; [apply present_edges_strongly_sorted|].
  split; [apply present_edges_NoDup|].
  intros i j. apply elem_of_present_edges.
Qed.

(** ** The city file *)

(** X6. For a well-formed manager and a writable city file, loading what
    [save_cities_to_file] wrote gives the same city list, with zero matrices
    of the matching size. Names that contain the separator of the road file
    do no harm here. *)
Theorem city_file_round_trip (w : World) :
  well_formed (mgr w) → cities_writable (disk w) = true →
  load_cities_from_file (disk (save_cities_to_file w)) empty_manager
  = zero_manager (city_names (mgr w)).
Proof.
  intros Hwf Hcw. apply load_saved_cities; [done | apply Hwf..].
Qed.

Lemma kigali_nord_well_formed : well_formed (mgr kigali_nord).
Proof. well_formed_by_computation. Defined.

Lemma city_file_round_trip_witness :
  load_cities_from_file (disk (save_cities_to_file kigali_nord)) empty_manager
  = zero_manager ["Kigali - Nord"; "Huye"]%string.
Proof.
  exact (city_file_round_trip kigali_nord kigali_nord_well_formed eq_refl).
Defined.

Lemma load_city_line_mono (m : Manager) (l : city_line) (c : string) :
  c ∈ city_names m → c ∈ city_names (load_city_line m l).
Proof.
  intros Hc.
  destruct (load_city_line_cases m l) as [[-> _]|(name & _ & _ & _ & ->)]; [done|].
  simpl. apply elem_of_app. by left.
Qed.

Lemma load_city_lines_mono (ls : list city_line) (m : Manager) (c : string) :
  c ∈ city_names m → c ∈ city_names (foldl load_city_line m ls).
Proof.
  revert m. induction ls as [|l ls IH]; intros m Hc; [done|].
  simpl. by apply IH, load_city_line_mono.
Qed.

Lemma load_city_lines_complete (ls : list city_line) (m : Manager) (c : string) :
  CityLine c ∈ ls → is_valid_city_name c = true →
  c ∈ city_names (foldl load_city_line m ls).
Proof.
  intros Hin Hv. revert m. induction ls as [|l ls IH]; intros m.
  { by apply elem_of_nil in Hin. }
  apply elem_of_cons in Hin as [<-|Hin]; simpl; [|by apply IH].
  apply load_city_lines_mono. rewrite Hv. simpl.
  destruct (city_exists (city_names m) c) eqn:Hex; simpl.
  - by apply city_exists_true.
  - apply elem_of_app. right. by left.
Qed.

Lemma load_roads_names (d : Disk) (m : Manager) :
  city_names (load_roads_from_file d m) = city_names m.
Proof.
  unfold load_roads_from_file. destruct (roads_txt d) as [ls|]; [|done].
  generalize (tail ls). clear ls. intros ls. revert m.
  induction ls as [|l ls IH]; intros m; [done|].
  simpl. rewrite IH. unfold load_road_line.
  destruct (parse_load_line l) as [[[c1 c2] b]|]; [|done].
  destruct (record_write (city_names m) c1 c2 b); [|done].
  apply apply_write_names.
Qed.

(** X7. Every valid name on a line of the city file after the first one is
    in the registry once the constructor has run, whatever else the two
    files hold; the first line is never read as a city. *)
Theorem valid_city_line_loaded (d : Disk) (lines : list city_line) (c : string) :
  cities_txt d = Some lines →
  CityLine c ∈ tail lines →
  is_valid_city_name c = true →
  c ∈ city_names (new_manager d).
Proof.
  intros Hd Hin Hv. unfold new_manager. rewrite load_roads_names.
  unfold load_cities_from_file. rewrite Hd.
  by apply load_city_lines_complete.
Qed.

Lemma valid_city_line_loaded_witness :
  "Rubavu"%string ∈ city_names (new_manager reordered_disk).
Proof.
  apply (valid_city_line_loaded reordered_disk
           [cities_header; CityLine "Kigali"; CityLine "Huye";
            CityLine "Musanze"; CityLine "Rubavu"]);
    [reflexivity | | reflexivity].
  do 3 right. by left.
Defined.

(** ** Adding cities *)

Lemma get_city_index_app_l names names' name :
  name ∈ names → get_city_index (names ++ names') name = get_city_index names name.
Proof.
  induction names as [|c names IH]; intros Hin; [by apply elem_of_nil in Hin|].
  simpl. destruct (String.eqb c name) eqn:Heq; [done|].
  apply elem_of_cons in Hin as [->|Hin]; [by rewrite String.eqb_refl in Heq|].
  by rewrite IH.
Qed.

Lemma at2_push_city_roads (c : string) (m : Manager) (a b : nat) :
  well_formed m →
  at2 (roads (push_city c m)) a b
  = if decide (a < length (city_names m) ∧ b < length (city_names m))%nat
    then at2 (roads m) a b
    else if decide (a ≤ length (city_names m) ∧ b ≤ length (city_names m))%nat
         then Some 0 else None.
Proof.
  intros Hwf. rewrite push_city_grow. cbn [roads].
  rewrite length_app, Nat.add_1_r. apply at2_grow, Hwf.
Qed.

Lemma at2_push_city_budgets (c : string) (m : Manager) (a b : nat) :
  well_formed m →
  at2 (budgets (push_city c m)) a b
  = if decide (a < length (city_names m) ∧ b < length (city_names m))%nat
    then at2 (budgets m) a b
    else if decide (a ≤ length (city_names m) ∧ b ≤ length (city_names m))%nat
         then Some 0%Q else None.
Proof.
  intros Hwf. rewrite push_city_grow. cbn [budgets].
  rewrite length_app, Nat.add_1_r. apply at2_grow, Hwf.
Qed.

(** What a run of the loop of lines 276-298 leaves. *)
Lemma add_city_list_Some (names : list string) (m m' : Manager) :
  well_formed m → add_city_list names m = Some m' →
  well_formed m'
  ∧ city_names m' = city_names m ++ names
  ∧ (∀ a b, at2 (roads m') a b
       = if decide (a < length (city_names m) ∧ b < length (city_names m))%nat
         then at2 (roads m) a b
         else if decide (a < length (city_names m') ∧ b < length (city_names m'))%nat
              then Some 0 else None)
  ∧ (∀ a b, at2 (budgets m') a b
       = if decide (a < length (city_names m) ∧ b < length (city_names m))%nat
         then at2 (budgets m) a b
         else if decide (a < length (city_names m') ∧ b < length (city_names m'))%nat
              then Some 0%Q else None).
Proof.
  revert m. induction names as [|c names IH]; intros m Hwf Hadd.
  - simpl in Hadd. injection Hadd as <-. rewrite app_nil_r.
    split; [done|]. split; [done|].
    split; intros a b; repeat case_decide; try done.
    + destruct (at2 (roads m) a b) eqn:Hat; [|done].
      apply (at2_Some_lt _ _ _ _ _ (wf_roads _ Hwf)) in Hat. lia.
    + destruct (at2 (budgets m) a b) eqn:Hat; [|done].
      apply (at2_Some_lt _ _ _ _ _ (wf_budgets _ Hwf)) in Hat. lia.
  - simpl in Hadd. destruct (add_city c m) as [m1|] eqn:Hc; [|done].
    apply add_city_Some in Hc as (Hv & Hfresh & ->).
    pose proof (push_city_well_formed c m Hwf Hv Hfresh) as Hwf1.
    destruct (IH _ Hwf1 Hadd) as (Hwf' & Hn & Hr & Hb).
    assert (Hlen1 : length (city_names (push_city c m)) = S (length (city_names m))).
    { simpl. rewrite length_app. simpl. lia. }
    assert (Hlen' : (length (city_names m) < length (city_names m'))%nat).
    { rewrite Hn, length_app, Hlen1. lia. }
    split; [done|]. split.
    { rewrite Hn. simpl. by rewrite <- app_assoc. }
    split; intros a b.
    + rewrite Hr, Hlen1, at2_push_city_roads by done.
      repeat case_decide; try done; lia.
    + rewrite Hb, Hlen1, at2_push_city_budgets by done.
      repeat case_decide; try done; lia.
Qed.

Lemma add_city_list_fresh (names : list string) (m m' : Manager) :
  add_city_list names m = Some m' →
  city_names m' = city_names m ++ names
  ∧ Forall (λ c, is_valid_city_name c = true) names
  ∧ NoDup names
  ∧ (∀ c, c ∈ names → c ∉ city_names m).
Proof.
  revert m. induction names as [|c names IH]; intros m Hadd.
  - simpl in Hadd. injection Hadd as <-. rewrite app_nil_r.
    repeat split; [constructor | constructor | by intros c Hc%elem_of_nil].
  - simpl in Hadd. destruct (add_city c m) as [m1|] eqn:Hc; [|done].
    apply add_city_Some in Hc as (Hv & Hfresh & ->).
    destruct (IH _ Hadd) as (Hn & Hvs & Hnd & Hfr).
    split. { rewrite Hn. simpl. by rewrite <- app_assoc. }
    split; [by constructor|].
    split.
    + constructor; [|done]. intros Hin. apply (Hfr c Hin).
      simpl. apply elem_of_app. right. by left.
    + intros c' [->|Hin]%elem_of_cons; [done|].
      intros Hold. apply (Hfr c' Hin). simpl. apply elem_of_app. by left.
Qed.

(** X8. When [add_cities] returns, at least one name was given, the new
    names are valid, distinct from one another and from the names before,
    they follow the old ones in the order typed, every old name keeps its
    position, and the registry holds at most 500 cities. *)
Theorem add_cities_appends (names : list string) (w w' : World) :
  add_cities names w = Some w' →
  names ≠ []
  ∧ city_names (mgr w') = city_names (mgr w) ++ names
  ∧ (length (city_names (mgr w')) ≤ 500)%nat
  ∧ Forall (λ c, is_valid_city_name c = true) names
  ∧ NoDup names
  ∧ (∀ c, c ∈ names → c ∉ city_names (mgr w))
  ∧ (∀ c, c ∈ city_names (mgr w) →
       get_city_index (city_names (mgr w')) c = get_city_index (city_names (mgr w)) c).
Proof.
  intros Hadd.
  assert (Hcount : is_valid_city_count (mgr w) (Z.of_nat (length names)) = true).
  { unfold add_cities in Hadd.
    by destruct (is_valid_city_count (mgr w) (Z.of_nat (length names))). }
  apply add_cities_Some in Hadd as (m' & Hlist & ->).
  rewrite save_cities_mgr. cbn [mgr cout with_mgr].
  apply add_city_list_fresh in Hlist as (Hn & Hv & Hnd & Hfr).
  unfold is_valid_city_count, MAX_CITIES in Hcount.
  apply andb_true_iff in Hcount as [Hpos%Z.ltb_lt Hle%Z.leb_le].
  split. { intros ->. simpl in Hpos. lia. }
  split; [done|].
  split. { rewrite Hn, length_app. lia. }
  repeat split; try done.
  intros c Hc. rewrite Hn. by apply get_city_index_app_l.
Qed.

Lemma add_cities_appends_witness :
  ∃ w', add_cities ["Musanze"; "Rubavu"]%string kigali_huye = Some w'
        ∧ city_names (mgr w')
          = city_names (mgr kigali_huye) ++ ["Musanze"; "Rubavu"]%string.
Proof.
  eexists. split; [reflexivity|].
  exact (proj1 (proj2 (add_cities_appends ["Musanze"; "Rubavu"]%string
                         kigali_huye _ eq_refl))).
Defined.

(** X9. [add_cities] changes no road and no budget: the cells of the
    cities that were there keep their values, the cells of a new city are
    zero, the edges and their budgets are the same, and the road file is
    not written. *)
Theorem add_cities_keeps_roads (names : list string) (w w' : World) :
  well_formed (mgr w) →
  add_cities names w = Some w' →
  let n := length (city_names (mgr w)) in
  let n' := length (city_names (mgr w')) in
  (∀ a b, (a < n)%nat → (b < n)%nat →
     at2 (roads (mgr w')) a b = at2 (roads (mgr w)) a b
     ∧ at2 (budgets (mgr w')) a b = at2 (budgets (mgr w)) a b)
  ∧ (∀ a b, (a < n')%nat → (b < n')%nat → (n ≤ a)%nat ∨ (n ≤ b)%nat →
     at2 (roads (mgr w')) a b = Some 0
     ∧ at2 (budgets (mgr w')) a b = Some 0%Q)
  ∧ edge_enumeration (mgr w') = edge_enumeration (mgr w)
  ∧ roads_txt (disk w') = roads_txt (disk w).
Proof.
  intros Hwf Hadd n n'. subst n n'.
  apply add_cities_Some in Hadd as (m' & Hlist & ->).
  rewrite save_cities_mgr.
  destruct (save_cities_roads_file
              (cout (cities_added (Z.of_nat (length names))) (with_mgr m' w)))
    as [-> _].
  cbn [mgr disk cout with_mgr].
  apply add_city_list_Some in Hlist as (Hwf' & Hn & Hr & Hb); [|done].
  assert (Hedges : present_edges m' = present_edges (mgr w)).
  { apply present_edges_eq. intros [i j]. rewrite !elem_of_present_edges, Hr.
    destruct (decide (i < length (city_names (mgr w))
                      ∧ j < length (city_names (mgr w)))%nat) as [Hin|Hout]; [done|].
    assert (Hno : at2 (roads (mgr w)) i j ≠ Some 1).
    { intros Hat. apply (at2_Some_lt _ _ _ _ _ (wf_roads _ Hwf)) in Hat. lia. }
    case_decide; split; intros [Hij Hat]; done. }
  split. { intros a b Ha Hb'. rewrite Hr, Hb. by rewrite !decide_True by done. }
  split.
  { intros a b Ha Hb' Hnew. rewrite Hr, Hb.
    destruct (decide (a < length (city_names (mgr w))
                      ∧ b < length (city_names (mgr w)))%nat) as [Hin|Hout]; [lia|].
    by rewrite !decide_True by done. }
  split; [|done].
  unfold edge_enumeration. rewrite Hedges.
  apply list_fmap_ext. intros k [i j] Hk. cbn.
  apply list_elem_of_lookup_2 in Hk.
  apply elem_of_present_edges in Hk as [Hij Hat].
  apply (at2_Some_lt _ _ _ _ _ (wf_roads _ Hwf)) in Hat.
  unfold budget_at. rewrite Hb. by rewrite decide_True by done.
Qed.

Lemma kigali_huye_well_formed : well_formed (mgr kigali_huye).
Proof. well_formed_by_computation. Defined.

Lemma add_cities_keeps_roads_witness :
  ∃ w', add_cities ["Rubavu"]%string kigali_huye = Some w'
        ∧ edge_enumeration (mgr w') = edge_enumeration (mgr kigali_huye).
Proof.
  eexists. split; [reflexivity|].
  exact (proj1 (proj2 (proj2 (add_cities_keeps_roads ["Rubavu"]%string kigali_huye _
                                kigali_huye_well_formed eq_refl)))).
Defined.

(** ** Roads and budgets in memory *)

Lemma get_city_index_elem names name i :
  get_city_index names name = Some i → name ∈ names.
Proof.
  intros Hi. apply get_city_index_Some in Hi. by eapply list_elem_of_lookup_2.
Qed.

Lemma city_exists_index names name i :
  get_city_index names name = Some i → city_exists names name = true.
Proof. intros Hi. apply city_exists_true. by eapply get_city_index_elem. Qed.

Lemma get_city_index_inj names c1 c2 i :
  get_city_index names c1 = Some i → get_city_index names c2 = Some i → c1 = c2.
Proof.
  intros H1%get_city_index_Some H2%get_city_index_Some. congruence.
Qed.

(** X10. When [add_road] returns, the two names are different cities of
    the registry, the road is recorded in both directions, no other cell of
    the road matrix, no budget and no name has changed, and asking for the
    same road again, in either order, is refused. *)
Theorem add_road_records (c1 c2 : string) (w w' : World) :
  well_formed (mgr w) →
  add_road c1 c2 w = Some w' →
  ∃ i j,
    get_city_index (city_names (mgr w)) c1 = Some i
    ∧ get_city_index (city_names (mgr w)) c2 = Some j
    ∧ i ≠ j
    ∧ at2 (roads (mgr w')) i j = Some 1
    ∧ at2 (roads (mgr w')) j i = Some 1
    ∧ (∀ a b, ¬ touches a b (i, j, 0%Q) →
         at2 (roads (mgr w')) a b = at2 (roads (mgr w)) a b)
    ∧ budgets (mgr w') = budgets (mgr w)
    ∧ city_names (mgr w') = city_names (mgr w)
    ∧ add_road c1 c2 w' = None
    ∧ add_road c2 c1 w' = None.
Proof.
  intros Hwf Hadd.
  apply add_road_Some in Hadd as (i & j & Hi & Hj & Hij & Hno & ->).
  exists i, j. rewrite save_roads_mgr. cbn [mgr cout with_mgr roads budgets city_names].
  pose proof (get_city_index_lt _ _ _ Hi) as Hil.
  pose proof (get_city_index_lt _ _ _ Hj) as Hjl.
  destruct (at2_square _ _ i j (wf_roads _ Hwf) Hil Hjl) as [x Hx].
  destruct (at2_square _ _ j i (wf_roads _ Hwf) Hjl Hil) as [y Hy].
  assert (Hij1 : at2 (set_sym i j 1 (roads (mgr w))) i j = Some 1).
  { rewrite at2_set_sym, decide_True by tauto. by rewrite Hx. }
  assert (Hji1 : at2 (set_sym i j 1 (roads (mgr w))) j i = Some 1).
  { rewrite at2_set_sym, decide_True by tauto. by rewrite Hy. }
  do 5 (split; [done|]).
  split.
  { intros a b Hab. rewrite at2_set_sym. by rewrite decide_False. }
  do 2 (split; [done|]).
  unfold add_road. rewrite save_roads_mgr.
  cbn [mgr cout with_mgr roads budgets city_names].
  rewrite Hi, Hj, (city_exists_index _ _ _ Hi), (city_exists_index _ _ _ Hj).
  cbn [negb].
  assert (Hne : c1 ≠ c2).
  { intros ->. rewrite Hi in Hj. by injection Hj. }
  rewrite (proj2 (String.eqb_neq c2 c1)) by done.
  rewrite (proj2 (String.eqb_neq c1 c2)) by done.
  by rewrite !decide_True by done.
Qed.

Lemma add_road_records_witness :
  ∃ i j,
    get_city_index (city_names (mgr kigali_huye_start)) "Kigali" = Some i
    ∧ get_city_index (city_names (mgr kigali_huye_start)) "Huye" = Some j
    ∧ i ≠ j
    ∧ at2 (roads (mgr kigali_huye)) i j = Some 1
    ∧ at2 (roads (mgr kigali_huye)) j i = Some 1
    ∧ (∀ a b, ¬ touches a b (i, j, 0%Q) →
         at2 (roads (mgr kigali_huye)) a b = at2 (roads (mgr kigali_huye_start)) a b)
    ∧ budgets (mgr kigali_huye) = budgets (mgr kigali_huye_start)
    ∧ city_names (mgr kigali_huye) = city_names (mgr kigali_huye_start)
    ∧ add_road "Kigali" "Huye" kigali_huye = None
    ∧ add_road "Huye" "Kigali" kigali_huye = None.
Proof.
  apply (add_road_records "Kigali" "Huye" kigali_huye_start kigali_huye);
    [apply kigali_huye_start_well_formed | reflexivity].
Defined.

Lemma reachable_well_formed (w : World) : reachable w → well_formed (mgr w).
Proof.
  intros [d Hr]. apply (reaches_well_formed _ _ Hr). apply new_manager_well_formed.
Qed.

(** X11. When [add_budget] returns, the two names are cities whose cell
    of the road matrix is not 0, the amount is above 0 and at most 1000, it
    is stored in both directions, and no other budget, no road and no name
    has changed. *)
Theorem add_budget_records (c1 c2 : string) (b : Q) (w w' : World) :
  well_formed (mgr w) →
  add_budget c1 c2 b w = Some w' →
  ∃ i j,
    get_city_index (city_names (mgr w)) c1 = Some i
    ∧ get_city_index (city_names (mgr w)) c2 = Some j
    ∧ at2 (roads (mgr w)) i j ≠ Some 0
    ∧ (0 < b ∧ b <= 1000)%Q
    ∧ at2 (budgets (mgr w')) i j = Some b
    ∧ at2 (budgets (mgr w')) j i = Some b
    ∧ (∀ a b', ¬ touches a b' (i, j, b) →
         at2 (budgets (mgr w')) a b' = at2 (budgets (mgr w)) a b')
    ∧ roads (mgr w') = roads (mgr w)
    ∧ city_names (mgr w') = city_names (mgr w).
Proof.
  intros Hwf Hadd.
  apply add_budget_Some in Hadd as (i & j & Hi & Hj & Hroad & Hb & ->).
  exists i, j. rewrite save_roads_mgr. cbn [mgr cout with_mgr roads budgets city_names].
  pose proof (get_city_index_lt _ _ _ Hi) as Hil.
  pose proof (get_city_index_lt _ _ _ Hj) as Hjl.
  destruct (at2_square _ _ i j (wf_budgets _ Hwf) Hil Hjl) as [x Hx].
  destruct (at2_square _ _ j i (wf_budgets _ Hwf) Hjl Hil) as [y Hy].
  do 3 (split; [done|]).
  split; [by apply is_valid_budget_spec|].
  split. { rewrite at2_set_sym, decide_True by tauto. by rewrite Hx. }
  split. { rewrite at2_set_sym, decide_True by tauto. by rewrite Hy. }
  split; [|done].
  intros a b' Hab. rewrite at2_set_sym. by rewrite decide_False.
Qed.

Lemma add_budget_records_witness :
  ∃ i j,
    get_city_index (city_names (mgr kigali_huye)) "Kigali" = Some i
    ∧ get_city_index (city_names (mgr kigali_huye)) "Huye" = Some j
    ∧ at2 (roads (mgr kigali_huye)) i j ≠ Some 0
    ∧ (0 < 25 # 2 ∧ 25 # 2 <= 1000)%Q
    ∧ at2 (budgets (mgr kigali_huye_budget)) i j = Some (25 # 2)
    ∧ at2 (budgets (mgr kigali_huye_budget)) j i = Some (25 # 2)
    ∧ (∀ a b', ¬ touches a b' (i, j, 25 # 2) →
         at2 (budgets (mgr kigali_huye_budget)) a b'
         = at2 (budgets (mgr kigali_huye)) a b')
    ∧ roads (mgr kigali_huye_budget) = roads (mgr kigali_huye)
    ∧ city_names (mgr kigali_huye_budget) = city_names (mgr kigali_huye).
Proof.
  apply (add_budget_records "Kigali" "Huye" (25 # 2) kigali_huye kigali_huye_budget);
    [apply kigali_huye_well_formed | reflexivity].
Defined.

(** X12. In every world of a run, a road that was added can be given a
    budget from either end: for a valid amount [add_budget] returns with the
    two names in either order, and the two results hold the same budgets. *)
Theorem budget_from_either_end (c1 c2 : string) (b : Q) (w : World) (i j : nat) :
  reachable w →
  get_city_index (city_names (mgr w)) c1 = Some i →
  get_city_index (city_names (mgr w)) c2 = Some j →
  at2 (roads (mgr w)) i j = Some 1 →
  is_valid_budget b = true →
  ∃ w1 w2,
    add_budget c1 c2 b w = Some w1
    ∧ add_budget c2 c1 b w = Some w2
    ∧ (∀ a b', at2 (budgets (mgr w1)) a b' = at2 (budgets (mgr w2)) a b')
    ∧ budget_at (mgr w1) i j = b
    ∧ budget_at (mgr w1) j i = b.
Proof.
  intros Hreach Hi Hj Hroad Hb.
  pose proof (reachable_well_formed _ Hreach) as Hwf.
  destruct (reachable_symmetric _ Hreach) as [Hsym _].
  assert (Hroad' : at2 (roads (mgr w)) j i = Some 1) by (by rewrite <- (Hsym i j)).
  pose proof (get_city_index_lt _ _ _ Hi) as Hil.
  pose proof (get_city_index_lt _ _ _ Hj) as Hjl.
  destruct (at2_square _ _ i j (wf_budgets _ Hwf) Hil Hjl) as [x Hx].
  destruct (at2_square _ _ j i (wf_budgets _ Hwf) Hjl Hil) as [y Hy].
  unfold add_budget.
  rewrite Hi, Hj, (city_exists_index _ _ _ Hi), (city_exists_index _ _ _ Hj), Hb.
  cbn [negb].
  rewrite !decide_False by congruence.
  eexists _, _. split; [reflexivity|]. split; [reflexivity|].
  rewrite !save_roads_mgr. cbn [mgr cout with_mgr roads budgets city_names].
  unfold budget_at. cbn [budgets].
  split.
  { intros a b'. rewrite !at2_set_sym.
    destruct (decide ((a = i ∧ b' = j) ∨ (a = j ∧ b' = i)));
      [rewrite decide_True by tauto | rewrite decide_False by tauto]; done. }
  split; rewrite at2_set_sym, decide_True by tauto.
  - by rewrite Hx.
  - by rewrite Hy.
Qed.

Lemma kigali_huye_session : reaches (start fresh_disk) kigali_huye.
Proof.
  eapply reaches_step;
    [eapply reaches_step; [apply reaches_here|] |].
  - by apply (step_add_cities ["Kigali"; "Huye"]%string).
  - by apply (step_add_road "Kigali" "Huye").
Defined.

Lemma kigali_huye_reachable : reachable kigali_huye.
Proof. exists fresh_disk. apply kigali_huye_session. Defined.

Lemma budget_from_either_end_witness :
  ∃ w1 w2,
    add_budget "Kigali" "Huye" (25 # 2) kigali_huye = Some w1
    ∧ add_budget "Huye" "Kigali" (25 # 2) kigali_huye = Some w2
    ∧ (∀ a b', at2 (budgets (mgr w1)) a b' = at2 (budgets (mgr w2)) a b')
    ∧ budget_at (mgr w1) 0 1 = (25 # 2)
    ∧ budget_at (mgr w1) 1 0 = (25 # 2).
Proof.
  apply (budget_from_either_end "Kigali" "Huye" (25 # 2) kigali_huye 0 1);
    [apply kigali_huye_reachable | reflexivity..].
Defined.

(** ** Renaming and looking up *)

(** X13. When [edit_city] returns, the new name is valid and was not in
    use, it is found at the position edited, the name it replaces is no
    longer found, every other name is found where it was, and no road and
    no budget has changed. *)
Theorem edit_city_renames (index : Z) (new_name : string) (w w' : World) :
  well_formed (mgr w) →
  edit_city index new_name w = Some w' →
  let k := Z.to_nat (index - 1) in
  is_valid_city_name new_name = true
  ∧ (new_name ∉ city_names (mgr w))
  ∧ get_city_index (city_names (mgr w')) new_name = Some k
  ∧ get_city_index (city_names (mgr w')) (name_at (mgr w) k) = None
  ∧ (∀ c, c ≠ new_name → c ≠ name_at (mgr w) k →
       get_city_index (city_names (mgr w')) c = get_city_index (city_names (mgr w)) c)
  ∧ length (city_names (mgr w')) = length (city_names (mgr w))
  ∧ roads (mgr w') = roads (mgr w)
  ∧ budgets (mgr w') = budgets (mgr w).
Proof.
  intros Hwf Hedit k.
  apply edit_city_Some in Hedit as (Hk & Hfresh & Hv & ->). fold k in Hk |- *.
  rewrite save_roads_mgr, save_cities_mgr.
  cbn [mgr cout with_mgr roads budgets city_names].
  pose proof (wf_names_distinct _ Hwf) as Hnd.
  pose proof (NoDup_insert_fresh _ k new_name Hnd Hfresh) as Hnd'.
  destruct (lookup_lt_is_Some_2 _ _ Hk) as [old Hold].
  assert (Hname : name_at (mgr w) k = old) by (unfold name_at; by rewrite Hold).
  rewrite Hname.
  assert (Hne : old ≠ new_name).
  { intros ->. apply Hfresh. by eapply list_elem_of_lookup_2. }
  split; [done|]. split; [done|].
  split. { apply get_city_index_lookup; [done|]. by apply list_lookup_insert_eq. }
  split.
  { apply get_city_index_None. intros [i Hi]%list_elem_of_lookup.
    destruct (decide (i = k)) as [->|Hik].
    - rewrite list_lookup_insert_eq in Hi by done. congruence.
    - rewrite list_lookup_insert_ne in Hi by done.
      apply Hik. by apply (NoDup_lookup _ _ _ old Hnd). }
  split; [|split; [by rewrite length_insert | done]].
  intros c Hc1 Hc2.
  destruct (get_city_index (city_names (mgr w)) c) as [i|] eqn:Hi.
  - apply get_city_index_Some in Hi.
    apply get_city_index_lookup; [done|].
    rewrite list_lookup_insert_ne; [done|]. intros <-. congruence.
  - apply get_city_index_None. apply get_city_index_None in Hi.
    intros [i Hin]%list_elem_of_lookup.
    destruct (decide (i = k)) as [->|Hik].
    + rewrite list_lookup_insert_eq in Hin by done. congruence.
    + rewrite list_lookup_insert_ne in Hin by done.
      apply Hi. by eapply list_elem_of_lookup_2.
Qed.

Lemma edit_city_renames_witness :
  ∃ w', edit_city 2 "Butare" kigali_huye = Some w'
        ∧ get_city_index (city_names (mgr w')) "Butare" = Some 1%nat
        ∧ get_city_index (city_names (mgr w')) "Huye" = None.
Proof.
  eexists. split; [reflexivity|].
  pose proof (edit_city_renames 2 "Butare" kigali_huye _
                kigali_huye_well_formed eq_refl) as H.
  exact (conj (proj1 (proj2 (proj2 H))) (proj1 (proj2 (proj2 (proj2 H))))).
Defined.

Lemma console_cout_lines (lines : list string) (w : World) :
  console (foldl (λ w line, cout line w) w lines) = console w ++ lines
  ∧ mgr (foldl (λ w line, cout line w) w lines) = mgr w
  ∧ disk (foldl (λ w line, cout line w) w lines) = disk w.
Proof.
  revert w. induction lines as [|l lines IH]; intros w; simpl.
  - by rewrite app_nil_r.
  - destruct (IH (cout l w)) as (-> & -> & ->). simpl.
    by rewrite <- app_assoc.
Qed.

Lemma display_cities_console (w : World) :
  console (display_cities w)
  = console w ++ match city_names (mgr w) with
                 | [] => ["No cities recorded."]
                 | names => "Cities:" :: imap city_row names
                 end.
Proof.
  unfold display_cities. destruct (city_names (mgr w)) as [|c names]; [done|].
  destruct (console_cout_lines (imap city_row (c :: names)) (cout "Cities:" w))
    as (-> & _). simpl. by rewrite <- app_assoc.
Qed.

Lemma pretty_position (i : nat) : pretty (Z.of_nat (S i)) = pretty (S i).
Proof. reflexivity. Qed.

(** X14. The number that [display_cities] prints beside a city is the
    index under which [search_city] shows that city; [search_city] accepts
    the indices from 1 to the number of cities and no other, and changes
    neither the data nor the files. *)
Theorem listed_index_is_searchable (w : World) :
  (∀ i c, city_names (mgr w) !! i = Some c →
     city_row i c ∈ console (display_cities w)
     ∧ search_city (Z.of_nat (S i)) w
       = Some (cout ("City at index " +:+ city_row i c) w))
  ∧ (∀ index, search_city index w = None
       ↔ (index < 1 ∨ Z.of_nat (length (city_names (mgr w))) < index)%Z)
  ∧ (∀ index w', search_city index w = Some w' → mgr w' = mgr w ∧ disk w' = disk w).
Proof.
  split; [|split].
  - intros i c Hi. split.
    + rewrite display_cities_console.
      destruct (city_names (mgr w)) as [|c0 names] eqn:Hn; [done|].
      apply elem_of_app. right. right.
      apply list_elem_of_lookup. exists i.
      by rewrite list_lookup_imap, Hi.
    + unfold search_city, is_valid_index.
      pose proof (lookup_lt_Some _ _ _ Hi) as Hlt.
      rewrite (proj2 (Z.leb_le 1 _)) by lia.
      rewrite (proj2 (Z.leb_le _ _)) by lia.
      cbn [andb negb]. rewrite pretty_position.
      replace (Z.to_nat (Z.of_nat (S i) - 1)) with i by lia.
      unfold name_at. by rewrite Hi.
  - intros index. unfold search_city, is_valid_index.
    destruct (1 <=? index)%Z eqn:H1; destruct (index <=? _)%Z eqn:H2; cbn [andb negb];
      try apply Z.leb_le in H1; try apply Z.leb_le in H2;
      try apply Z.leb_gt in H1; try apply Z.leb_gt in H2;
      split; try done; lia.
  - intros index w' Hs. unfold search_city in Hs.
    destruct (negb (is_valid_index (mgr w) index)); [done|].
    by injection Hs as <-.
Qed.

(** X15. For a well-formed manager [display_roads] prints "No roads
    recorded." when there is no city, and otherwise the list of cities and
    one row per city, also when no road has been added. *)
Theorem display_roads_output (w : World) :
  well_formed (mgr w) →
  console (display_roads w)
  = console w ++ match city_names (mgr w) with
                 | [] => ["No roads recorded."]
                 | names =>
                     ("Cities:" :: imap city_row names)
                     ++ [EmptyString; "Roads Adjacency Matrix:"]
                     ++ (roads_row <$> roads (mgr w))
                 end
  ∧ length (roads_row <$> roads (mgr w)) = length (city_names (mgr w)).
Proof.
  intros Hwf. destruct (wf_roads _ Hwf) as [Hlen _].
  split; [|by rewrite length_fmap].
  unfold display_roads.
  destruct (city_names (mgr w)) as [|c names] eqn:Hn.
  - destruct (roads (mgr w)); [done | discriminate Hlen].
  - destruct (roads (mgr w)) as [|row rows] eqn:Hr; [discriminate Hlen|].
    destruct (console_cout_lines (roads_row <$> row :: rows)
                (cout "Roads Adjacency Matrix:" (cout EmptyString (display_cities w))))
      as (-> & _).
    cbn [console cout]. rewrite display_cities_console, Hn.
    by rewrite <- !app_assoc.
Qed.

Lemma display_roads_output_witness :
  console (display_roads kigali_huye)
  = console kigali_huye
    ++ ["Cities:"; "1: Kigali"; "2: Huye"; EmptyString; "Roads Adjacency Matrix:";
        "0 1 "; "1 0 "]%string.
Proof.
  exact (proj1 (display_roads_output kigali_huye kigali_huye_well_formed)).
Defined.

(** ** Invariants of a run *)

(** X16. In every world of a run, whatever the two files held at the
    start, roads and budgets are the same in both directions. *)
Theorem roads_are_two_way (w : World) (i j : nat) :
  reachable w →
  at2 (roads (mgr w)) i j = at2 (roads (mgr w)) j i
  ∧ at2 (budgets (mgr w)) i j = at2 (budgets (mgr w)) j i
  ∧ budget_at (mgr w) i j = budget_at (mgr w) j i.
Proof.
  intros [Hr Hb]%reachable_symmetric.
  unfold budget_at. by rewrite (Hr i j), (Hb i j).
Qed.

Lemma roads_are_two_way_witness :
  at2 (roads (mgr kigali_huye)) 0 1 = at2 (roads (mgr kigali_huye)) 1 0
  ∧ at2 (budgets (mgr kigali_huye)) 0 1 = at2 (budgets (mgr kigali_huye)) 1 0
  ∧ budget_at (mgr kigali_huye) 0 1 = budget_at (mgr kigali_huye) 1 0.
Proof. exact (roads_are_two_way kigali_huye 0 1 kigali_huye_reachable). Defined.

(** X17. The menu operations never put a road or a budget on the
    diagonal: in a session that starts from a well-formed manager without a
    road from a city to itself, every city has 0 in its own cell of both
    matrices. *)
Theorem operations_add_no_self_loop (w0 w : World) :
  well_formed (mgr w0) → diagonals_zero (mgr w0) → reaches w0 w →
  ∀ c i, get_city_index (city_names (mgr w)) c = Some i →
    at2 (roads (mgr w)) i i = Some 0 ∧ at2 (budgets (mgr w)) i i = Some 0%Q.
Proof.
  intros Hwf Hz Hr.
  pose proof (reaches_well_formed w0 w Hr Hwf) as Hwf'.
  assert (Hz' : diagonals_zero (mgr w)).
  { induction Hr as [|w w' Hr IH Hstep]; [done|].
    apply (step_diagonals_zero w w' Hstep).
    - by apply (reaches_well_formed w0).
    - apply IH. by apply (reaches_well_formed w0). }
  intros c i Hi%get_city_index_lt. destruct Hz' as [Hzr Hzb].
  destruct (at2_square _ _ i i (wf_roads _ Hwf') Hi Hi) as [x Hx].
  destruct (at2_square _ _ i i (wf_budgets _ Hwf') Hi Hi) as [y Hy].
  by rewrite Hx, Hy, (Hzr i x Hx), (Hzb i y Hy).
Qed.

Lemma fresh_start_diagonals_zero : diagonals_zero (mgr (start fresh_disk)).
Proof. split; intros i v Hat; by destruct i. Defined.

Lemma operations_add_no_self_loop_witness :
  at2 (roads (mgr kigali_huye)) 1 1 = Some 0
  ∧ at2 (budgets (mgr kigali_huye)) 1 1 = Some 0%Q.
Proof.
  exact (operations_add_no_self_loop (start fresh_disk) kigali_huye
           empty_manager_well_formed fresh_start_diagonals_zero
           kigali_huye_session "Huye" 1%nat eq_refl).
Defined.

(** ** What a save writes *)

Lemma find_first_match {A} (p : A → bool) (pre post : list A) (x : A) :
  p x = true → (∀ e, e ∈ pre → p e = false) →
  List.find p (pre ++ x :: post) = Some x.
Proof.
  intros Hx. induction pre as [|y pre IH]; intros Hpre; simpl.
  - by rewrite Hx.
  - rewrite (Hpre y) by left. apply IH. intros e He. apply Hpre. by right.
Qed.

(** X18. A save to a writable road file writes the header and one record
    per road of the adjacency matrix, in ascending order of identifier,
    whatever the prior file held: every record carries the current names of
    the two cities, the smaller position first, and the current budget. The
    manager and the city file are not changed. *)
Theorem saved_road_file (w : World) :
  roads_writable (disk w) = true →
  ∃ entries,
    roads_txt (disk (save_roads_to_file w))
    = Some (roads_header :: (format_entry <$> entries))
    ∧ entries ≡ₚ reconcile_edge (read_existing_roads (disk w)) (mgr w)
                   <$> present_edges (mgr w)
    ∧ StronglySorted nbr_le entries
    ∧ length entries = length (present_edges (mgr w))
    ∧ (∀ x, x ∈ entries →
         ∃ i j, (i, j) ∈ present_edges (mgr w)
           ∧ city1 x = name_at (mgr w) i
           ∧ city2 x = name_at (mgr w) j
           ∧ budget x = budget_at (mgr w) i j)
    ∧ cities_txt (disk (save_roads_to_file w)) = cities_txt (disk w)
    ∧ mgr (save_roads_to_file w) = mgr w.
Proof.
  intros Hw. rewrite (save_roads_writable _ Hw).
  exists (sort_by_nbr (updated_roads (read_existing_roads (disk w)) (mgr w))).
  pose proof (sort_by_nbr_perm (updated_roads (read_existing_roads (disk w)) (mgr w)))
    as Hperm.
  split; [done|]. split; [done|].
  split; [apply sort_by_nbr_sorted|].
  split. { rewrite Hperm. unfold updated_roads. by rewrite length_fmap. }
  split; [|done].
  intros x Hx. rewrite elem_of_sort_by_nbr in Hx.
  apply list_elem_of_fmap in Hx as ([i j] & -> & He).
  exists i, j. split; [done|]. apply reconcile_names.
Qed.

Lemma saved_road_file_witness :
  ∃ entries,
    roads_txt (disk (save_roads_to_file kigali_huye_budget))
    = Some (roads_header :: (format_entry <$> entries))
    ∧ length entries = length (present_edges (mgr kigali_huye_budget)).
Proof.
  destruct (saved_road_file kigali_huye_budget eq_refl)
    as (entries & Hfile & _ & _ & Hlen & _).
  exists entries. by split.
Defined.

(** X19. An edge whose two current names match a record of the prior
    file, in either order, is written with the identifier of the first such
    record, with its names in the order of their positions and with the
    budget of the matrix, not that of the record. *)
Theorem matched_edge_nbr (w : World) (i j : nat) (pre post : list RoadEntry)
    (x : RoadEntry) :
  roads_writable (disk w) = true →
  (i, j) ∈ present_edges (mgr w) →
  let c1 := name_at (mgr w) i in
  let c2 := name_at (mgr w) j in
  read_existing_roads (disk w) = pre ++ x :: post →
  same_pair c1 c2 x →
  (∀ e, e ∈ pre → ¬ same_pair c1 c2 e) →
  ∃ lines, roads_txt (disk (save_roads_to_file w)) = Some lines
    ∧ format_entry {| nbr := nbr x; city1 := c1; city2 := c2;
                      budget := budget_at (mgr w) i j |} ∈ lines.
Proof.
  intros Hw He c1 c2 Hex Hx Hpre.
  rewrite (save_roads_writable _ Hw). eexists. split; [reflexivity|].
  pose proof (reconciled_line_written (disk w) (mgr w) (i, j) He) as Hline.
  unfold reconcile_edge, reconcile in Hline. cbn [fst snd] in Hline.
  fold c1 c2 in Hline. rewrite Hex in Hline.
  rewrite (find_first_match _ pre post x) in Hline; [done | |].
  - by apply names_match_spec.
  - intros e Hin. specialize (Hpre e Hin).
    destruct (names_match c1 c2 e) eqn:Hm; [|done].
    by apply names_match_spec in Hm.
Qed.

Lemma matched_edge_nbr_witness :
  ∃ lines, roads_txt (disk (save_roads_to_file kigali_huye_budget)) = Some lines
    ∧ format_entry {| nbr := 1; city1 := "Kigali"; city2 := "Huye";
                      budget := 25 # 2 |} ∈ lines.
Proof.
  apply (matched_edge_nbr kigali_huye_budget 0 1 []
           [] {| nbr := 1; city1 := "Kigali"; city2 := "Huye";
                 budget := 25 # 2 |} eq_refl).
  - refine (bool_decide_unpack _ _). by vm_compute.
  - reflexivity.
  - by left.
  - by intros e ?%elem_of_nil.
Defined.

(** X20. Saving again changes nothing: for a well-formed manager whose
    names do not contain the separator and a writable road file, any number
    of further saves leaves the world of the first save. *)
Theorem repeated_saves_stable (w : World) (k : nat) :
  well_formed (mgr w) → names_split (mgr w) → roads_writable (disk w) = true →
  Nat.iter (S k) save_roads_to_file w = save_roads_to_file w.
Proof.
  intros Hwf Hsplit Hw. induction k as [|k IH]; [done|].
  change (Nat.iter (S (S k)) save_roads_to_file w)
    with (save_roads_to_file (Nat.iter (S k) save_roads_to_file w)).
  rewrite IH. by apply save_roads_twice.
Qed.

Lemma kigali_huye_budget_split : names_split (mgr kigali_huye_budget).
Proof. repeat constructor. Defined.

Lemma repeated_saves_stable_witness :
  Nat.iter 4 save_roads_to_file kigali_huye_budget
  = save_roads_to_file kigali_huye_budget.
Proof.
  exact (repeated_saves_stable kigali_huye_budget 3
           kigali_huye_budget_well_formed kigali_huye_budget_split eq_refl).
Defined.

(** ** Loading a road file as a whole *)

Lemma load_cities_zero (d : Disk) :
  load_cities_from_file d empty_manager
  = zero_manager (city_names (load_cities_from_file d empty_manager)).
Proof.
  unfold load_cities_from_file. destruct (cities_txt d) as [lines|]; [|done].
  destruct (load_city_lines_zero (tail lines) []) as [names' Hz].
  change empty_manager with (zero_manager []). by rewrite Hz.
Qed.

Lemma load_road_lines_writes (ls : list road_line) (m : Manager) :
  foldl load_road_line m ls
  = foldl apply_write m (omap (line_write (city_names m)) ls).
Proof.
  revert m. induction ls as [|l ls IH]; intros m; [done|].
  simpl. rewrite IH.
  assert (Hn : city_names (load_road_line m l) = city_names m).
  { unfold load_road_line.
    destruct (parse_load_line l) as [[[c1 c2] b]|]; [|done].
    destruct (record_write (city_names m) c1 c2 b) as [wr|]; [|done].
    apply apply_write_names. }
  rewrite Hn. unfold load_road_line, line_write.
  destruct (parse_load_line l) as [[[c1 c2] b]|]; [|done].
  by destruct (record_write (city_names m) c1 c2 b) as [wr|].
Qed.

(** The last write that goes to a cell decides its budget. *)
Lemma foldl_apply_write_last (m : Manager) (ws : list (nat * nat * Q)) (a b : nat) :
  at2 (budgets (foldl apply_write m ws)) a b
  = match last (filter (touches a b) ws) with
    | Some wr => (λ _, wr.2) <$> at2 (budgets m) a b
    | None => at2 (budgets m) a b
    end.
Proof.
  induction ws as [|wr ws IH] using rev_ind; [done|].
  rewrite foldl_snoc, at2_apply_write_budgets, filter_app.
  destruct (foldl_apply_write_shape m ws a b) as [_ Hshape].
  destruct (decide (touches a b wr)) as [Hwr|Hwr].
  - rewrite (filter_cons_True _ _ _ Hwr), filter_nil, last_snoc.
    destruct (at2 (budgets (foldl apply_write m ws)) a b),
      (at2 (budgets m) a b); done.
  - by rewrite (filter_cons_False _ _ _ Hwr), filter_nil, app_nil_r.
Qed.

(** X21. The matrices the constructor builds, for any two files. With the
    valid records of the road file taken in file order, a cell of the
    adjacency matrix is 1 when some record names its two cities, in either
    order, and 0 otherwise; the budget cell holds the budget of the last such
    record, and 0 when there is none. *)
Theorem loaded_matrices (d : Disk) (a b : nat) :
  let names := city_names (load_cities_from_file d empty_manager) in
  let ws := omap (line_write names) (tail (default [] (roads_txt d))) in
  city_names (new_manager d) = names
  ∧ at2 (roads (new_manager d)) a b
    = (if decide (a < length names ∧ b < length names)%nat
       then Some (if decide (Exists (touches a b) ws) then 1 else 0)
       else None)
  ∧ at2 (budgets (new_manager d)) a b
    = (if decide (a < length names ∧ b < length names)%nat
       then Some (match last (filter (touches a b) ws) with
                  | Some wr => wr.2
                  | None => 0%Q
                  end)
       else None).
Proof.
  intros names ws.
  assert (Hnew : new_manager d = foldl apply_write (zero_manager names) ws).
  { unfold new_manager, load_roads_from_file, ws. rewrite (load_cities_zero d).
    fold names. destruct (roads_txt d) as [lines|]; [|done].
    by rewrite load_road_lines_writes. }
  rewrite Hnew, foldl_apply_write_names. split; [done|].
  destruct (zero_manager_square names) as [Hsr Hsb].
  rewrite foldl_apply_write_last.
  destruct (decide (a < length names ∧ b < length names)%nat) as [[Ha Hb]|Hout].
  - assert (Hr0 : at2 (roads (zero_manager names)) a b = Some 0)
      by (by apply at2_replicate).
    assert (Hb0 : at2 (budgets (zero_manager names)) a b = Some 0%Q)
      by (by apply at2_replicate).
    split.
    + destruct (decide (Exists (touches a b) ws)) as [Hex|Hno].
      * by rewrite foldl_apply_write_touched_roads, Hr0.
      * apply not_Exists_Forall in Hno; [|apply _].
        destruct (foldl_apply_write_untouched (zero_manager names) ws a b Hno)
          as [-> _]. done.
    + rewrite Hb0. by destruct (last (filter (touches a b) ws)).
  - assert (Hr0 : at2 (roads (zero_manager names)) a b = None).
    { destruct (at2 (roads (zero_manager names)) a b) eqn:Hat; [|done].
      apply (at2_Some_lt _ _ _ _ _ Hsr) in Hat. lia. }
    assert (Hb0 : at2 (budgets (zero_manager names)) a b = None).
    { destruct (at2 (budgets (zero_manager names)) a b) eqn:Hat; [|done].
      apply (at2_Some_lt _ _ _ _ _ Hsb) in Hat. lia. }
    split.
    + destruct (foldl_apply_write_shape (zero_manager names) ws a b) as [Hshape _].
      rewrite Hr0 in Hshape.
      by destruct (at2 (roads (foldl apply_write (zero_manager names) ws)) a b).
    + rewrite Hb0. by destruct (last (filter (touches a b) ws)).
Qed.

(** ** Identifiers from one save to the next *)

Lemma nbr_reconcile_budget existing (c1 c2 : string) (b b' : Q) :
  nbr (reconcile existing c1 c2 b) = nbr (reconcile existing c1 c2 b').
Proof. unfold reconcile. by destruct (List.find _ existing). Qed.

Lemma nbr_reread (l : list RoadEntry) : nbr <$> (reread <$> l) = nbr <$> l.
Proof. rewrite <- list_fmap_compose. by apply list_fmap_ext. Qed.

Lemma next_nbr_after (l : list RoadEntry) :
  (∀ h, last (nbr <$> l) = Some h → INT_MIN ≤ h < INT_MAX) →
  next_nbr l = next_after (nbr <$> l).
Proof.
  intros Hlast. rewrite next_nbr_in_range.
  - unfold next_after. rewrite fmap_last. by destruct (last l).
  - intros e He. apply Hlast. by rewrite fmap_last, He.
Qed.

Lemma nbrs_sorted (l : list RoadEntry) :
  StronglySorted nbr_le l → StronglySorted Z.le (nbr <$> l).
Proof.
  induction 1 as [|e l Hs IH He]; [constructor|].
  rewrite fmap_cons. constructor; [done|]. by apply Forall_fmap.
Qed.

Lemma sorted_snoc (l : list Z) (x : Z) :
  StronglySorted Z.le l → Forall (λ y, y ≤ x) l → StronglySorted Z.le (l ++ [x]).
Proof.
  induction 1 as [|y l Hs IH Hy]; intros Hall; simpl.
  - repeat constructor.
  - apply Forall_cons in Hall as [Hyx Hall]. constructor; [by apply IH|].
    apply Forall_app. split; [done|]. by repeat constructor.
Qed.

Lemma sorted_below_next (l : list Z) :
  StronglySorted Z.le l → Forall (λ y, y ≤ next_after l) l.
Proof.
  unfold next_after. induction 1 as [|y l Hs IH Hy]; [constructor|].
  destruct l as [|z l].
  - repeat constructor. simpl. lia.
  - change (last (y :: z :: l)) with (last (z :: l)).
    constructor; [|done].
    apply Forall_cons in IH as [Hz _]. apply Forall_cons in Hy as [Hyz _]. lia.
Qed.

Lemma file_nbrs_lines (es : list RoadEntry) :
  omap line_nbr (roads_header :: (format_entry <$> es)) = nbr <$> es.
Proof.
  cbn [omap list_omap roads_header line_nbr].
  induction es as [|e es IH]; [done|].
  rewrite !fmap_cons. cbn [omap list_omap format_entry line_nbr]. by f_equal.
Qed.

Section in_sync.
Variable (w : World).
Hypothesis Hwf : well_formed (mgr w).
Hypothesis Hsplit : names_split (mgr w).
Hypothesis Hsync : roads_in_sync w.

(** What a save reads from a file in step with the manager. *)
Lemma in_sync_existing :
  ∃ ex0,
    read_existing_roads (disk w)
    = reread <$> sort_by_nbr (updated_roads ex0 (mgr w))
    ∧ file_nbrs (disk w) = nbr <$> sort_by_nbr (updated_roads ex0 (mgr w)).
Proof.
  destruct Hsync as [[Hnone Hno]|[d0 Hd0]].
  - exists []. unfold read_existing_roads, file_nbrs, updated_roads.
    by rewrite Hnone, Hno.
  - exists (read_existing_roads d0). split.
    + unfold read_existing_roads at 1. rewrite Hd0. unfold road_lines. simpl.
      apply (reread_saved _ _ Hwf Hsplit).
    + unfold file_nbrs. rewrite Hd0. apply file_nbrs_lines.
Qed.

End in_sync.

Section next_save.
Variables (ex0 : list RoadEntry) (m m' : Manager).
Hypothesis Hwf : well_formed m.
Hypothesis Hnames : city_names m' = city_names m.

Let saved := sort_by_nbr (updated_roads ex0 m).
Let existing := reread <$> saved.

(** A road that was saved keeps its identifier, whatever its budget is now. *)
Lemma kept_nbr (e : nat * nat) :
  e ∈ present_edges m →
  nbr (reconcile_edge existing m' e) = nbr (reconcile_edge ex0 m e)
  ∧ city1 (reconcile_edge existing m' e) = city1 (reconcile_edge ex0 m e)
  ∧ city2 (reconcile_edge existing m' e) = city2 (reconcile_edge ex0 m e).
Proof.
  intros He.
  pose proof (reconcile_again ex0 m Hwf e He) as Hagain. fold saved existing in Hagain.
  rewrite <- Hagain. unfold reconcile_edge, name_at. rewrite Hnames.
  split; [apply nbr_reconcile_budget|].
  destruct (reconcile_names existing (default EmptyString (city_names m !! e.1))
              (default EmptyString (city_names m !! e.2)) (budget_at m' e.1 e.2))
    as (-> & -> & _).
  destruct (reconcile_names existing (default EmptyString (city_names m !! e.1))
              (default EmptyString (city_names m !! e.2)) (budget_at m e.1 e.2))
    as (-> & -> & _).
  done.
Qed.

(** A road that was not there when the file was saved matches no record. *)
Lemma new_edge_nbr (lo hi : nat) :
  (lo < hi)%nat → (hi < length (city_names m))%nat →
  (lo, hi) ∉ present_edges m →
  nbr (reconcile_edge existing m' (lo, hi)) = next_nbr existing.
Proof.
  intros Hlh Hhi Hnew. unfold reconcile_edge. cbn [fst snd].
  rewrite reconcile_unmatched; [done|].
  intros x Hx Hpair. apply Hnew.
  apply list_elem_of_fmap in Hx as (y & -> & Hy). unfold saved in Hy.
  rewrite elem_of_sort_by_nbr in Hy.
  apply list_elem_of_fmap in Hy as ([i j] & -> & He).
  destruct (present_edges_in_range m i j Hwf He) as (Hij & Hj & _).
  unfold same_pair, reread, reconcile_edge in Hpair.
  cbn [city1 city2 fst snd] in Hpair.
  destruct (reconcile_names ex0 (name_at m i) (name_at m j) (budget_at m i j))
    as (Hc1 & Hc2 & _).
  rewrite Hc1, Hc2 in Hpair. unfold name_at in Hpair. rewrite Hnames in Hpair.
  fold (name_at m i) (name_at m j) (name_at m lo) (name_at m hi) in Hpair.
  destruct Hpair as [[H1 H2]|[H1 H2]];
    apply (name_at_inj m Hwf) in H1; try lia;
    apply (name_at_inj m Hwf) in H2; try lia.
  by subst.
Qed.

End next_save.

Lemma file_nbrs_write (lines : list road_line) (w : World) :
  file_nbrs (disk (write_roads lines w)) = omap line_nbr lines.
Proof. reflexivity. Qed.

(** The edges after [add_road]: one more. *)
Lemma add_road_edges (m : Manager) (i j : nat) :
  well_formed m → symmetric (roads m) →
  (i < length (city_names m))%nat → (j < length (city_names m))%nat →
  i ≠ j → at2 (roads m) i j ≠ Some 1 →
  let m' := {| city_names := city_names m;
               roads := set_sym i j 1 (roads m);
               budgets := budgets m |} in
  (((i `min` j)%nat, (i `max` j)%nat) ∉ present_edges m)
  ∧ present_edges m' ≡ₚ ((i `min` j)%nat, (i `max` j)%nat) :: present_edges m.
Proof.
  intros Hwf Hsym Hi Hj Hij Hno m'.
  assert (Hnew : ((i `min` j)%nat, (i `max` j)%nat) ∉ present_edges m).
  { rewrite elem_of_present_edges. intros [_ Hat]. apply Hno.
    destruct (decide (i < j)%nat).
    - by rewrite Nat.min_l, Nat.max_r in Hat by lia.
    - rewrite Nat.min_r, Nat.max_l in Hat by lia. by rewrite (Hsym i j). }
  split; [done|].
  apply NoDup_Permutation.
  - apply present_edges_NoDup.
  - constructor; [done | apply present_edges_NoDup].
  - intros [a b]. rewrite elem_of_cons, !elem_of_present_edges.
    unfold m'. cbn [roads]. rewrite at2_set_sym.
    destruct (decide ((a = i ∧ b = j) ∨ (a = j ∧ b = i))) as [Hab|Hab].
    + destruct (at2_square _ _ a b (wf_roads _ Hwf)) as [x Hx]; [lia..|].
      rewrite Hx. cbn. split.
      * intros [Hlt _]. left. f_equal; lia.
      * intros [[= -> ->]|[Hlt _]]; [|done]. split; [lia|done].
    + split; [by right|]. intros [[= -> ->]|?]; [|done].
      exfalso. apply Hab. lia.
Qed.

(** X22. With the road file in step with a manager of a run whose names
    do not contain the separator, and with a last identifier below the
    largest [int], [add_road] keeps every identifier of the file and adds
    one record, with the last identifier plus one, or 1 for the first road.
    The file is in step again. *)
Theorem add_road_appends_record (c1 c2 : string) (w w' : World) :
  reachable w → names_split (mgr w) → roads_in_sync w →
  roads_writable (disk w) = true →
  (∀ h, last (file_nbrs (disk w)) = Some h → INT_MIN ≤ h < INT_MAX) →
  add_road c1 c2 w = Some w' →
  file_nbrs (disk w') = file_nbrs (disk w) ++ [next_after (file_nbrs (disk w))]
  ∧ roads_in_sync w'.
Proof.
  intros Hreach Hsplit Hsync Hw Hlast Hadd.
  pose proof (reachable_well_formed _ Hreach) as Hwf.
  destruct (reachable_symmetric _ Hreach) as [Hsym _].
  destruct (in_sync_existing w Hwf Hsplit Hsync) as (ex0 & Hex & Hnbrs).
  rewrite Hnbrs in Hlast.
  apply add_road_Some in Hadd as (i & j & Hi & Hj & Hij & Hno & ->).
  apply get_city_index_lt in Hi, Hj.
  rewrite save_roads_writable by done.
  split; [|right; by eexists].
  rewrite file_nbrs_write. cbn [mgr disk cout with_mgr].
  set (m' := {| city_names := city_names (mgr w);
                roads := set_sym i j 1 (roads (mgr w));
                budgets := budgets (mgr w) |}).
  destruct (add_road_edges (mgr w) i j Hwf Hsym Hi Hj Hij Hno) as [Hnew Hperm].
  fold m' in Hperm.
  unfold road_lines. rewrite file_nbrs_lines, Hnbrs, Hex.
  set (saved := sort_by_nbr (updated_roads ex0 (mgr w))).
  assert (Hsorted : StronglySorted Z.le (nbr <$> saved))
    by apply nbrs_sorted, sort_by_nbr_sorted.
  apply (sorting.StronglySorted_unique_strong Z.le); [intros; lia | ..].
  - apply nbrs_sorted, sort_by_nbr_sorted.
  - apply sorted_snoc; [done | by apply sorted_below_next].
  - assert (Heq : nbr <$> (reconcile_edge (reread <$> saved) m' <$> present_edges (mgr w))
                  = nbr <$> updated_roads ex0 (mgr w)).
    { unfold updated_roads. rewrite <- !list_fmap_compose.
      apply Forall_fmap_ext, Forall_forall. intros e He.
      apply (kept_nbr ex0 (mgr w) m' Hwf eq_refl e He). }
    etrans; [apply fmap_Permutation, sort_by_nbr_perm|].
    unfold updated_roads at 1.
    etrans; [do 2 apply fmap_Permutation; exact Hperm|].
    rewrite !fmap_cons, Heq.
    rewrite (new_edge_nbr ex0 (mgr w) m' Hwf eq_refl) by (done || lia).
    fold saved. rewrite next_nbr_after; rewrite nbr_reread; [|done].
    etrans; [|apply Permutation_cons_append]. constructor.
    symmetry. apply fmap_Permutation, sort_by_nbr_perm.
Qed.

Lemma kigali_two_roads_reachable : reachable kigali_two_roads.
Proof.
  exists fresh_disk.
  eapply reaches_step;
    [eapply reaches_step; [eapply reaches_step; [apply reaches_here|] |] |].
  - by apply (step_add_cities ["Kigali"; "Huye"; "Musanze"]%string).
  - by apply (step_add_road "Kigali" "Huye").
  - by apply (step_add_road "Kigali" "Musanze").
Defined.

Lemma kigali_two_roads_in_sync : roads_in_sync kigali_two_roads.
Proof. right. by exists (disk kigali_two_roads). Defined.

Lemma add_road_appends_record_witness :
  ∃ w', add_road "Huye" "Musanze" kigali_two_roads = Some w'
        ∧ file_nbrs (disk w')
          = file_nbrs (disk kigali_two_roads)
            ++ [next_after (file_nbrs (disk kigali_two_roads))].
Proof.
  eexists. split; [reflexivity|].
  refine (proj1 (add_road_appends_record "Huye" "Musanze" kigali_two_roads _
                   kigali_two_roads_reachable _ kigali_two_roads_in_sync
                   eq_refl _ eq_refl)).
  - repeat constructor.
  - intros h [= <-]. split; [by intros H | reflexivity].
Defined.

(** The sort looks at identifiers only. *)
Lemma insert_by_nbr_keys (x y : RoadEntry) (l l' : list RoadEntry) :
  entry_key x = entry_key y →
  Forall2 (λ a b, entry_key a = entry_key b) l l' →
  Forall2 (λ a b, entry_key a = entry_key b) (insert_by_nbr x l) (insert_by_nbr y l').
Proof.
  intros Hxy. induction 1 as [|a b l l' Hab Hl IH]; simpl.
  - by repeat constructor.
  - assert (Hx : nbr x = nbr y) by (unfold entry_key in Hxy; congruence).
    assert (Ha : nbr a = nbr b) by (unfold entry_key in Hab; congruence).
    unfold nbr_less. rewrite Hx, Ha.
    destruct (nbr b <? nbr y)%Z; repeat (constructor; try done).
Qed.

Lemma sort_by_nbr_keys (l l' : list RoadEntry) :
  Forall2 (λ a b, entry_key a = entry_key b) l l' →
  Forall2 (λ a b, entry_key a = entry_key b) (sort_by_nbr l) (sort_by_nbr l').
Proof.
  induction 1 as [|a b l l' Hab Hl IH]; [constructor|].
  simpl. by apply insert_by_nbr_keys.
Qed.

Lemma entry_key_reread (l : list RoadEntry) :
  entry_key <$> (reread <$> l) = entry_key <$> l.
Proof. rewrite <- list_fmap_compose. by apply list_fmap_ext. Qed.

Lemma Forall2_keys (l l' : list RoadEntry) :
  Forall2 (λ a b, entry_key a = entry_key b) l l' →
  entry_key <$> l = entry_key <$> l'.
Proof. induction 1; [done|]. rewrite !fmap_cons. by f_equal. Qed.

(** X23. With the road file in step with a well-formed manager whose
    names do not contain the separator, [add_budget] rewrites the file with
    the same records in the same order: every record keeps its identifier
    and its two names, only budgets change. The file is in step again. *)
Theorem add_budget_keeps_identifiers (c1 c2 : string) (b : Q) (w w' : World) :
  well_formed (mgr w) → names_split (mgr w) → roads_in_sync w →
  roads_writable (disk w) = true →
  add_budget c1 c2 b w = Some w' →
  entry_key <$> read_existing_roads (disk w')
  = entry_key <$> read_existing_roads (disk w)
  ∧ roads_in_sync w'.
Proof.
  intros Hwf Hsplit Hsync Hw Hadd.
  destruct (in_sync_existing w Hwf Hsplit Hsync) as (ex0 & Hex & _).
  apply add_budget_Some in Hadd as (i & j & Hi & Hj & Hroad & Hb & ->).
  rewrite save_roads_writable by done.
  split; [|right; by eexists].
  set (m' := {| city_names := city_names (mgr w);
                roads := roads (mgr w);
                budgets := set_sym i j b (budgets (mgr w)) |}).
  assert (Hwf' : well_formed m').
  { split; try apply Hwf. apply set_sym_square, Hwf. }
  unfold read_existing_roads at 1. unfold road_lines. simpl.
  fold m'. rewrite (reread_saved _ m' Hwf' Hsplit).
  rewrite Hex, !entry_key_reread.
  apply Forall2_keys, sort_by_nbr_keys. unfold updated_roads.
  change (present_edges m') with (present_edges (mgr w)).
  apply Forall2_fmap, Forall2_same_length_lookup. split; [done|].
  intros k e e' Hk Hk'. assert (e' = e) as -> by congruence.
  apply list_elem_of_lookup_2 in Hk.
  destruct (kept_nbr ex0 (mgr w) m' Hwf eq_refl e Hk) as (Hn & Hc1 & Hc2).
  unfold updated_roads in Hn, Hc1, Hc2.
  unfold entry_key. by rewrite Hn, Hc1, Hc2.
Qed.

Lemma kigali_huye_in_sync : roads_in_sync kigali_huye.
Proof. right. by exists (disk kigali_huye). Defined.

Lemma add_budget_keeps_identifiers_witness :
  entry_key <$> read_existing_roads (disk kigali_huye_budget)
  = entry_key <$> read_existing_roads (disk kigali_huye).
Proof.
  refine (proj1 (add_budget_keeps_identifiers "Kigali" "Huye" (25 # 2)
                   kigali_huye kigali_huye_budget kigali_huye_well_formed _
                   kigali_huye_in_sync eq_refl eq_refl)).
  repeat constructor.
Defined.

(** ** The files follow the data *)

Lemma save_cities_flags (w : World) :
  cities_writable (disk (save_cities_to_file w)) = cities_writable (disk w)
  ∧ roads_writable (disk (save_cities_to_file w)) = roads_writable (disk w).
Proof.
  unfold save_cities_to_file. by destruct (cities_writable (disk w)) eqn:E.
Qed.

Lemma save_roads_flags (w : World) :
  cities_writable (disk (save_roads_to_file w)) = cities_writable (disk w)
  ∧ roads_writable (disk (save_roads_to_file w)) = roads_writable (disk w)
  ∧ cities_txt (disk (save_roads_to_file w)) = cities_txt (disk w).
Proof.
  unfold save_roads_to_file. by destruct (roads_writable (disk w)) eqn:E.
Qed.

Lemma step_flags (w w' : World) :
  step w w' →
  cities_writable (disk w') = cities_writable (disk w)
  ∧ roads_writable (disk w') = roads_writable (disk w).
Proof.
  intros [names w1 w2 H|c1 c2 w1 w2 H|c1 c2 b w1 w2 H|index new_name w1 w2 H].
  - apply add_cities_Some in H as (m' & _ & ->).
    destruct (save_cities_flags
                (cout (cities_added (Z.of_nat (length names))) (with_mgr m' w1)))
      as [-> ->]. done.
  - apply add_road_Some in H as (i & j & _ & _ & _ & _ & ->).
    by destruct (save_roads_flags (cout (road_added c1 c2)
         (with_mgr {| city_names := city_names (mgr w1);
                      roads := set_sym i j 1 (roads (mgr w1));
                      budgets := budgets (mgr w1) |} w1))) as (-> & -> & _).
  - apply add_budget_Some in H as (i & j & _ & _ & _ & _ & ->).
    by destruct (save_roads_flags (cout (budget_added c1 c2)
         (with_mgr {| city_names := city_names (mgr w1);
                      roads := roads (mgr w1);
                      budgets := set_sym i j b (budgets (mgr w1)) |} w1)))
      as (-> & -> & _).
  - apply edit_city_Some in H as (_ & _ & _ & ->).
    match goal with
    | |- context [save_roads_to_file ?x] =>
        destruct (save_roads_flags x) as (-> & -> & _)
    end.
    match goal with
    | |- context [save_cities_to_file ?x] =>
        destruct (save_cities_flags x) as (-> & ->)
    end.
    done.
Qed.

(** New cities change no record of a save. *)
Lemma add_city_list_road_lines (names : list string) (m m' : Manager) (d0 : Disk) :
  well_formed m → add_city_list names m = Some m' →
  present_edges m' = present_edges m ∧ road_lines d0 m' = road_lines d0 m.
Proof.
  intros Hwf Hlist.
  apply add_city_list_Some in Hlist as (Hwf' & Hn & Hr & Hb); [|done].
  assert (Hedges : present_edges m' = present_edges m).
  { apply present_edges_eq. intros [i j]. rewrite !elem_of_present_edges, Hr.
    destruct (decide (i < length (city_names m)
                      ∧ j < length (city_names m))%nat) as [Hin|Hout]; [done|].
    assert (Hno : at2 (roads m) i j ≠ Some 1).
    { intros Hat. apply (at2_Some_lt _ _ _ _ _ (wf_roads _ Hwf)) in Hat. lia. }
    case_decide; split; intros [Hij Hat]; done. }
  split; [done|].
  unfold road_lines, updated_roads. rewrite Hedges. do 3 f_equal.
  apply Forall_fmap_ext, Forall_forall. intros [i j] He.
  destruct (present_edges_in_range m i j Hwf He) as (Hij & Hj & _).
  unfold reconcile_edge, name_at, budget_at. cbn [fst snd].
  rewrite Hn, Hb, !lookup_app_l by lia. by rewrite decide_True by lia.
Qed.

Lemma step_in_step (w w' : World) :
  step w w' → well_formed (mgr w) →
  cities_writable (disk w) = true → roads_writable (disk w) = true →
  roads_in_sync w → cities_in_step w →
  roads_in_sync w' ∧ cities_in_step w'.
Proof.
  intros Hstep Hwf Hcw Hrw Hroads Hcities. revert Hwf Hcw Hrw Hroads Hcities.
  destruct Hstep as [names w w' H|c1 c2 w w' H|c1 c2 b w w' H|index new_name w w' H];
    intros Hwf Hcw Hrw Hroads Hcities.
  - apply add_cities_Some in H as (m' & Hlist & ->).
    unfold save_cities_to_file. cbn [disk mgr cout with_mgr]. rewrite Hcw.
    split; [|by right].
    unfold roads_in_sync. cbn [disk mgr write_cities cout with_mgr roads_txt].
    destruct Hroads as [[Hnone Hno]|[d0 Hd0]].
    + left. split; [done|].
      by rewrite (proj1 (add_city_list_road_lines names _ _ fresh_disk Hwf Hlist)).
    + right. exists d0.
      by rewrite (proj2 (add_city_list_road_lines names _ _ d0 Hwf Hlist)).
  - apply add_road_Some in H as (i & j & _ & _ & _ & _ & ->).
    rewrite save_roads_writable by done. split; [right; by eexists|].
    destruct Hcities as [[Hnone Hno]|Hsync]; [by left | by right].
  - apply add_budget_Some in H as (i & j & _ & _ & _ & _ & ->).
    rewrite save_roads_writable by done. split; [right; by eexists|].
    destruct Hcities as [[Hnone Hno]|Hsync]; [by left | by right].
  - apply edit_city_Some in H as (_ & _ & _ & ->).
    unfold save_cities_to_file. cbn [disk mgr cout with_mgr]. rewrite Hcw.
    rewrite save_roads_writable by done.
    split; [right; by eexists | by right].
Qed.

(** X24. The files follow the data. In a session that starts with both
    files writable and in step with a well-formed manager, as after a start
    from an empty data directory, both files are in step after every
    operation: they hold what a save of the current data writes. *)
Theorem files_stay_in_step (w0 w : World) :
  well_formed (mgr w0) →
  cities_writable (disk w0) = true → roads_writable (disk w0) = true →
  roads_in_sync w0 → cities_in_step w0 →
  reaches w0 w →
  roads_in_sync w ∧ cities_in_step w.
Proof.
  intros Hwf Hcw Hrw Hroads Hcities Hr.
  enough (Hall : well_formed (mgr w)
                 ∧ cities_writable (disk w) = true ∧ roads_writable (disk w) = true
                 ∧ roads_in_sync w ∧ cities_in_step w)
    by (destruct Hall as (_ & _ & _ & ? & ?); done).
  induction Hr as [|w w' Hr IH Hstep]; [done|].
  destruct IH as (Hwf' & Hcw' & Hrw' & Hroads' & Hcities').
  destruct (step_flags _ _ Hstep) as [Hf1 Hf2].
  destruct (step_in_step _ _ Hstep Hwf' Hcw' Hrw' Hroads' Hcities') as [? ?].
  split; [by apply (step_well_formed w)|].
  by rewrite Hf1, Hf2.
Qed.

Lemma files_stay_in_step_witness :
  roads_in_sync kigali_huye ∧ cities_in_step kigali_huye.
Proof.
  apply (files_stay_in_step (start fresh_disk) kigali_huye
           empty_manager_well_formed eq_refl eq_refl).
  - by left.
  - by left.
  - apply kigali_huye_session.
Defined.

(** ** Restart, names in the road field, and a city file that cannot be written *)

(** X25. What a restart keeps. For a well-formed manager whose names do
    not contain the separator and two writable files, the manager built from
    the saved files has the same cities and exactly the roads whose budget,
    as printed with one decimal place, is above 0 and at most 1000, each with
    that printed budget; every other road is gone. *)
Theorem restart_keeps_budgeted_roads (w : World) :
  well_formed (mgr w) → names_split (mgr w) →
  cities_writable (disk w) = true → roads_writable (disk w) = true →
  city_names (save_then_load w) = city_names (mgr w)
  ∧ present_edges (save_then_load w)
    = filter (budget_accepted (mgr w)) (present_edges (mgr w))
  ∧ edge_enumeration (save_then_load w)
    = (λ e, (e.1, e.2, read_back (mgr w) e))
        <$> filter (budget_accepted (mgr w)) (present_edges (mgr w)).
Proof.
  intros Hwf Hsplit Hcw Hrw.
  destruct (saved_files w Hcw Hrw) as [Hc Hr].
  exact (restart_of_saved _ _ _ Hwf Hsplit Hc Hr).
Qed.

Lemma restart_keeps_budgeted_roads_witness :
  edge_enumeration (save_then_load kigali_huye_budget) = [(0%nat, 1%nat, 25 # 2)].
Proof.
  refine (proj2 (proj2 (restart_keeps_budgeted_roads kigali_huye_budget
                          kigali_huye_budget_well_formed _ eq_refl eq_refl))).
  repeat constructor.
Defined.

(** X26. The road field of a record gives back the two names it was
    written from, provided the first name does not contain a space followed
    by a hyphen; the second name may contain anything. *)
Theorem join_road_split (c1 c2 : string) :
  Text.has_space_hyphen c1 = false →
  Text.split_road (Text.join_road c1 c2) = Some (c1, c2).
Proof. apply TextFacts.split_join_road. Qed.

Lemma join_road_split_witness :
  Text.split_road (Text.join_road "Kigali" "Nord - Huye")
  = Some ("Kigali", "Nord - Huye")%string.
Proof. exact (join_road_split "Kigali" "Nord - Huye" eq_refl). Defined.

(** X27. When the city file cannot be opened for writing, [add_cities]
    and [edit_city] still change the registry in memory and print their
    success line; the error line follows it and the city file is left as it
    was. *)
Theorem city_file_unwritable (w w' : World) :
  cities_writable (disk w) = false →
  (∀ names, add_cities names w = Some w' →
     city_names (mgr w') = city_names (mgr w) ++ names
     ∧ disk w' = disk w
     ∧ console w'
       = console w ++ [cities_added (Z.of_nat (length names)); cannot_save_cities])
  ∧ (∀ index new_name, edit_city index new_name w = Some w' →
     city_names (mgr w')
     = <[Z.to_nat (index - 1) := new_name]> (city_names (mgr w))
     ∧ cities_txt (disk w') = cities_txt (disk w)
     ∧ ∃ rest, console w' = console w ++ [city_edited; cannot_save_cities] ++ rest).
Proof.
  intros Hcw. split.
  - intros names Hadd. apply add_cities_Some in Hadd as (m' & Hlist & ->).
    apply add_city_list_fresh in Hlist as (Hn & _).
    unfold save_cities_to_file. cbn [disk mgr cout with_mgr]. rewrite Hcw.
    cbn [disk mgr console cout with_mgr]. rewrite <- app_assoc. by rewrite Hn.
  - intros index new_name Hedit.
    apply edit_city_Some in Hedit as (_ & _ & _ & ->).
    rewrite save_roads_mgr, save_cities_mgr.
    match goal with
    | |- context [save_roads_to_file ?x] =>
        destruct (save_roads_flags x) as (_ & _ & ->)
    end.
    unfold save_cities_to_file. cbn [disk mgr cout with_mgr]. rewrite Hcw.
    split; [done|]. split; [done|].
    unfold save_roads_to_file. cbn [disk mgr cout with_mgr].
    destruct (roads_writable (disk w)); cbn [console cout write_roads].
    + exists []. by rewrite <- !app_assoc.
    + exists [cannot_save_roads]. by rewrite <- !app_assoc.
Qed.

Lemma city_file_unwritable_witness :
  ∃ w', add_cities ["Musanze"]%string (read_only_cities kigali_huye) = Some w'
        ∧ city_names (mgr w') = ["Kigali"; "Huye"; "Musanze"]%string
        ∧ disk w' = disk (read_only_cities kigali_huye).
Proof.
  eexists. split; [reflexivity|].
  pose proof (proj1 (city_file_unwritable (read_only_cities kigali_huye) _ eq_refl)
                ["Musanze"]%string eq_refl) as H.
  exact (conj (proj1 H) (proj1 (proj2 H))).
Defined.
